(** * sql-migrator: the migration engine, embedded and verified

    The development follows the Go packages of the repository:
    - [storage]   : the [Migration] record, the [SQLStorage] interface and
                    the in-memory [MockSQLStorage];
    - [processes] : the [Migrator] with [Up], [Down], [Redo], [DBVersion];
    - [app]       : registry construction from a directory listing
                    ([getMigrations], [mergeMigrations], [runMigrations])
                    and the creation of migration files ([Create]).

    Go passes migrations to the store as pointers ([&m.migrations[i]]) and
    the mock store keeps those pointers, so migrations live in an explicit
    heap and both the migrator and the stores hold addresses into it. *)

From Stdlib Require Import ZArith String Ascii List Bool Lia.
From stdpp Require Import base option list gmap strings.

Local Open Scope Z_scope.

(** ** Go runtime: errors, machine integers, panics *)

(** Go's [error] values that the modelled code creates or compares with.
    [errorString] is an [errors.New] value (never equal to a sentinel),
    [wrapError] an error that unwraps to another one. The declaration of
    [storage.ErrMigrationNotFound] is missing; it is the not-found error
    of section 4.1 of the specification. *)
Inductive error : Type :=
| ErrMigrationNotFound
| ErrInvalidMigrationName
| ErrMigrationUp
| ErrMigrationDown
| ErrMigrationRedo
| ErrGetStatus
| ErrGetVersion
| ErrUnexpectedMigrationVersion
| errorString (msg : string)
| wrapError (msg : string) (inner : error).

#[global] Instance error_eq_dec : EqDecision error.
Proof. solve_decision. Defined.

(** [errors.Is(err, storage.ErrMigrationNotFound)]: follows the unwrap chain. *)
Fixpoint Is_ErrMigrationNotFound (err : error) : bool :=
  match err with
  | ErrMigrationNotFound => true
  | wrapError _ inner => Is_ErrMigrationNotFound inner
  | _ => false
  end.

(** Go's [int] is 64 bits wide on the supported targets; arithmetic wraps. *)
Definition int_min : Z := - 2 ^ 63.
Definition int_max : Z := 2 ^ 63 - 1.
Definition wrap_int (z : Z) : Z := (z + 2 ^ 63) mod 2 ^ 64 - 2 ^ 63.
Definition int_sub (a b : Z) : Z := wrap_int (a - b).

(** ** Package storage *)
Module storage.

(** The body of a Go migration is a closure [func(ctx) error]; the ones the
    application builds run an external script, so a closure is identified
    by the script it runs and interpreted by the environment. *)
Definition GoFunc : Type := string.

(** Modelled from the spec: the file of this package that declares the
    [Migration] struct and its accessors is missing. The fields are those
    of section 3 of the specification, under the names the migrator and
    the mock store use for them. *)
Record Migration : Type := mkMigration {
  Version : Z;
  Name : string;
  Up : string;
  Down : string;
  UpGo : option GoFunc;
  DownGo : option GoFunc;
  Status : string;
  StatusChangeTime : Z
}.

#[global] Instance Migration_eq_dec : EqDecision Migration.
Proof. solve_decision. Defined.

(** The zero value of the struct. *)
Definition zeroMigration : Migration :=
  mkMigration 0 "" "" "" None None "" 0.

(** Modelled from the spec: the setters of [Migration] are missing with
    its declaration; each writes the one field it is named after. *)
Definition SetStatus (s : string) (m : Migration) : Migration :=
  mkMigration (Version m) (Name m) (Up m) (Down m) (UpGo m) (DownGo m)
              s (StatusChangeTime m).

(** Modelled from the spec: see [SetStatus]. *)
Definition SetStatusChangeTime (t : Z) (m : Migration) : Migration :=
  mkMigration (Version m) (Name m) (Up m) (Down m) (UpGo m) (DownGo m)
              (Status m) t.

(** Modelled from the spec: see [SetStatus]. *)
Definition SetVersion (v : Z) (m : Migration) : Migration :=
  mkMigration v (Name m) (Up m) (Down m) (UpGo m) (DownGo m)
              (Status m) (StatusChangeTime m).

(** Modelled from the spec: see [SetStatus]. *)
Definition SetName (n : string) (m : Migration) : Migration :=
  mkMigration (Version m) n (Up m) (Down m) (UpGo m) (DownGo m)
              (Status m) (StatusChangeTime m).

(** Modelled from the spec: [storage.CreateMigration(name, status,
    version, time)] is missing; the tests use it to make the history
    record they seed, which has these four fields and no body. *)
Definition CreateMigration (name status : string) (version t : Z) : Migration :=
  mkMigration version name "" "" None None status t.

(** Modelled from the spec: the declaration of the status constants is
    missing. They are the five states of section 4.3 of the
    specification; [Migrator.Create] spells the one for success, the
    others are spelled alike. Nothing below depends on the spelling, only
    on the five being distinct. *)
Definition StatusProcess : string := "process".

(** Modelled from the spec: see [StatusProcess]. *)
Definition StatusSuccess : string := "success".

(** Modelled from the spec: see [StatusProcess]. *)
Definition StatusCancellation : string := "cancellation".

(** Modelled from the spec: see [StatusProcess]. *)
Definition StatusCancel : string := "cancel".

(** Modelled from the spec: see [StatusProcess]. *)
Definition StatusError : string := "error".

(** *** The heap of migration objects

    A [*Migration] is an address; reading an address that holds nothing
    gives the zero value. *)

Abbreviation ptr := nat.
Abbreviation Heap := (gmap nat Migration).

Definition load (h : Heap) (p : ptr) : Migration := default zeroMigration (h !! p).
Definition poke (h : Heap) (p : ptr) (f : Migration -> Migration) : Heap :=
  <[p := f (load h p)]> h.
Definition alloc (h : Heap) (m : Migration) : Heap * ptr :=
  let p := fresh (dom h) in (<[p := m]> h, p).

(** *** The SQLStorage interface

    A method call may read and write the objects the store holds pointers
    to, so it transforms the heap together with the store's own state. *)
Definition Call (St R : Type) : Type := Heap -> St -> Heap * St * R.

Record SQLStorage : Type := {
  St : Type;
  Lock : Call St (option error);
  Unlock : Call St (option error);
  Migrate : string -> Call St (option error);
  InsertMigration : ptr -> Call St (option error);
  (** Go returns the pair [(IMigration, error)]; the migrator only reads
      the returned record's version, at once. *)
  SelectLastMigrationByStatus : string -> Call St (option Migration * option error)
}.

(** *** MockSQLStorage: a slice of pointers *)

Record MockSQLStorage : Type := { migrations : list ptr }.

Definition NewMockSQLStorage : MockSQLStorage := {| migrations := [] |}.

(** The [for ... range m.migrations] of [InsertMigration]: the first stored
    record with the version and name of the argument is overwritten through
    its pointer, field by field. *)
Fixpoint insert_scan (h : Heap) (recs : list ptr) (migration : ptr) : option Heap :=
  match recs with
  | [] => None
  | m :: rest =>
      if (Version (load h m) =? Version (load h migration))%Z
         && String.eqb (Name (load h m)) (Name (load h migration))
      then
        let h1 := poke h m (SetStatus (Status (load h migration))) in
        let h2 := poke h1 m (SetStatusChangeTime (StatusChangeTime (load h1 migration))) in
        let h3 := poke h2 m (SetVersion (Version (load h2 migration))) in
        let h4 := poke h3 m (SetName (Name (load h3 migration))) in
        Some h4
      else insert_scan h rest migration
  end.

Definition Mock_InsertMigration (migration : ptr) : Call MockSQLStorage (option error) :=
  fun h s =>
    match insert_scan h (migrations s) migration with
    | Some h' => (h', s, None)
    | None => (h, {| migrations := migrations s ++ [migration] |}, None)
    end.

(** [for i := len-1; i >= 0; i--]: the last stored record with the status. *)
Fixpoint last_with_status (h : Heap) (recs : list ptr) (status : string) : option Migration :=
  match recs with
  | [] => None
  | m :: rest =>
      match last_with_status h rest status with
      | Some r => Some r
      | None => if String.eqb (Status (load h m)) status then Some (load h m) else None
      end
  end.

Definition Mock_SelectLastMigrationByStatus (status : string)
  : Call MockSQLStorage (option Migration * option error) :=
  fun h s =>
    match last_with_status h (migrations s) status with
    | Some r => (h, s, (Some r, None))
    | None => (h, s, (None, Some (errorString ("no migrations found with status " +:+ status))))
    end.

Definition Mock : SQLStorage := {|
  St := MockSQLStorage;
  Lock := fun h s => (h, s, None);
  Unlock := fun h s => (h, s, None);
  Migrate := fun _ h s => (h, s, None);
  InsertMigration := Mock_InsertMigration;
  SelectLastMigrationByStatus := Mock_SelectLastMigrationByStatus
|}.

(** The methods of the mock store that the migrator's [Up], [Down] and
    [Redo] do not call. *)

Definition Mock_Connect : Call MockSQLStorage (option error) := fun h s => (h, s, None).
Definition Mock_Close : Call MockSQLStorage (option error) := fun h s => (h, s, None).

(** The loop of [UpdateMigration]: the first stored record with the
    version and name of the argument gets its status and its time. *)
Fixpoint update_scan (h : Heap) (recs : list ptr) (migration : ptr) : option Heap :=
  match recs with
  | [] => None
  | m :: rest =>
      if (Version (load h m) =? Version (load h migration))%Z
         && String.eqb (Name (load h m)) (Name (load h migration))
      then
        let h1 := poke h m (SetStatus (Status (load h migration))) in
        let h2 := poke h1 m (SetStatusChangeTime (StatusChangeTime (load h1 migration))) in
        Some h2
      else update_scan h rest migration
  end.

Definition Mock_UpdateMigration (migration : ptr) : Call MockSQLStorage (option error) :=
  fun h s =>
    match update_scan h (migrations s) migration with
    | Some h' => (h', s, None)
    | None => (h, s, Some (errorString "migration not found"))
    end.

(** [SelectMigrations] hands out the slice itself, or [nil] and an error
    when it is empty. *)
Definition Mock_SelectMigrations : Call MockSQLStorage (option (list ptr) * option error) :=
  fun h s =>
    if (List.length (migrations s) =? 0)%nat
    then (h, s, (None, Some (errorString "no migrations found")))
    else (h, s, (Some (migrations s), None)).

Definition Mock_DeleteMigrations : Call MockSQLStorage (option error) :=
  fun h s => (h, {| migrations := [] |}, None).

(** *** The database-backed store *)

(** Modelled from the spec: the store that [storage.NewPostgresStorage]
    builds is missing. This is the persistence contract of section 4.1 of
    the specification: [lock] fails when another holder is active,
    [migrate] fails on the statements the database rejects,
    [insertOrUpdateMigration] upserts by (version, name),
    [selectLastMigrationByStatus] returns the last matching record in
    insertion order and fails with the not-found error when none matches.
    Records are copies of what was handed in, as rows of a table are. *)
Record ContractStorage : Type := mkContract {
  records : list Migration;
  heldByOther : bool;
  held : bool;
  rejected : list string
}.

(** Modelled from the spec: [insertOrUpdateMigration], "upserting by
    (version, name)". *)
Fixpoint upsert (recs : list Migration) (r : Migration) : list Migration :=
  match recs with
  | [] => [r]
  | x :: rest =>
      if (Version x =? Version r)%Z && String.eqb (Name x) (Name r)
      then r :: rest
      else x :: upsert rest r
  end.

(** Modelled from the spec: [selectLastMigrationByStatus], "the most
    recently inserted record matching status". *)
Fixpoint last_record (recs : list Migration) (status : string) : option Migration :=
  match recs with
  | [] => None
  | x :: rest =>
      match last_record rest status with
      | Some r => Some r
      | None => if String.eqb (Status x) status then Some x else None
      end
  end.

(** Modelled from the spec: the operations of section 4.1 on
    [ContractStorage], as an [SQLStorage]. *)
Definition Contract : SQLStorage := {|
  St := ContractStorage;
  Lock := fun h s =>
    if heldByOther s then (h, s, Some (errorString "lock is held"))
    else (h, mkContract (records s) (heldByOther s) true (rejected s), None);
  Unlock := fun h s =>
    (h, mkContract (records s) (heldByOther s) false (rejected s), None);
  Migrate := fun sql h s =>
    if bool_decide (sql ∈ rejected s)
    then (h, s, Some (errorString "statement failed"))
    else (h, s, None);
  InsertMigration := fun p h s =>
    (h, mkContract (upsert (records s) (load h p)) (heldByOther s) (held s) (rejected s),
     None);
  SelectLastMigrationByStatus := fun status h s =>
    match last_record (records s) status with
    | Some r => (h, s, (Some r, None))
    | None => (h, s, (None, Some ErrMigrationNotFound))
    end
|}.

End storage.

(** ** Package processes *)
Module processes.
Import storage.

(** What the migrator asks of its environment, in the order it asks.
    The log is ghost state: the code does not read it. *)
Inductive Event : Type :=
| ELock (err : option error)
| EUnlock (err : option error)
| ESelectLast (status : string) (res : option Migration * option error)
| EInsert (migration : ptr) (record : Migration) (err : option error)
| EMigrate (sql : string) (err : option error)
| EGoFunc (f : GoFunc) (err : option error).

#[global] Instance Event_eq_dec : EqDecision Event.
Proof. solve_decision. Defined.

(** A call either returns or panics (index out of range, nil dereference). *)
Inductive Res (A : Type) : Type :=
| Ret (a : A)
| Panic (msg : string).
Arguments Ret {A} a.
Arguments Panic {A} msg.

Record Migrator : Type := { migrations : list ptr }.

(** [processes.New]: an empty slice. *)
Definition New : Migrator := {| migrations := [] |}.

Definition len (m : Migrator) : Z := Z.of_nat (List.length (migrations m)).

(** [&m.migrations[i]], with Go's bounds check. *)
Definition elem (m : Migrator) (i : Z) : option ptr :=
  if (i <? 0) || (len m <=? i) then None
  else migrations m !! Z.to_nat i.

(** The first lines shared by [Up] and [Redo]:
    [lastVersion := 0; if err == nil { lastVersion = lastMigration.GetVersion() }
     else if !errors.Is(err, storage.ErrMigrationNotFound) { return err }].
    [inl] is the version read, [inr] the error to return. Calling
    [GetVersion] on a nil interface panics. *)
Definition lastVersionOf (r : option Migration * option error) : Res (Z + error) :=
  match snd r with
  | None =>
      match fst r with
      | Some lastMigration => Ret (inl (Version lastMigration))
      | None => Panic "nil pointer dereference"
      end
  | Some err =>
      if Is_ErrMigrationNotFound err then Ret (inl 0) else Ret (inr err)
  end.

(** [lastMigration != nil && lastMigration.GetVersion()-1 > len(m.migrations)] *)
Definition versionBeyond (m : Migrator) (lastMigration : option Migration) : bool :=
  match lastMigration with
  | Some mig => len m <? int_sub (Version mig) 1
  | None => false
  end.

(** The state a run works on: the heap, the state of the store, the
    clock and the log. *)
Record World (St : Type) : Type := mkWorld {
  heap : Heap;
  store : St;
  clock : Z;
  trace : list Event
}.
Arguments heap {St} w.
Arguments store {St} w.
Arguments clock {St} w.
Arguments trace {St} w.
Arguments mkWorld {St} heap store clock trace.

Section Engine.

(** The store behind [m.storage] and the interpretation of Go closures. *)
Variable S : SQLStorage.
Variable goFuncs : GoFunc -> Call (St S) (option error).

Definition M (A : Type) : Type := World (St S) -> World (St S) * Res A.

Definition ret {A} (a : A) : M A := fun w => (w, Ret a).
Definition panic {A} (msg : string) : M A := fun w => (w, Panic msg).
Definition lift {A} (r : Res A) : M A := fun w => (w, r).
Definition bind {A B} (c : M A) (k : A -> M B) : M B :=
  fun w => match c w with
           | (w', Ret a) => k a w'
           | (w', Panic msg) => (w', Panic msg)
           end.

Notation "x <- c1 ;; c2" := (bind c1 (fun x => c2))
  (at level 100, c1 at next level, right associativity).
Notation "c1 ;; c2" := (bind c1 (fun _ => c2))
  (at level 100, right associativity).

(** Go's [defer]: the deferred call runs when the body returns and when it
    panics, and the outcome of the body is the outcome of the function. *)
Definition defer {A B} (deferred : M B) (body : M A) : M A :=
  fun w => let (w1, r) := body w in
           let (w2, _) := deferred w1 in (w2, r).

(** A store method, logged. *)
Definition invoke {R} (c : Call (St S) R) (ev : R -> Event) : M R :=
  fun w => match c (heap w) (store w) with
           | (h, s, r) => (mkWorld h s (clock w) (trace w ++ [ev r]), Ret r)
           end.

Definition storage_Lock : M (option error) := invoke (Lock S) ELock.
Definition storage_Unlock : M (option error) := invoke (Unlock S) EUnlock.
Definition storage_Migrate (sql : string) : M (option error) :=
  invoke (Migrate S sql) (EMigrate sql).
Definition storage_SelectLastMigrationByStatus (status : string)
  : M (option Migration * option error) :=
  invoke (SelectLastMigrationByStatus S status) (ESelectLast status).
Definition storage_InsertMigration (migration : ptr) : M (option error) :=
  fun w => invoke (InsertMigration S migration)
                  (EInsert migration (load (heap w) migration)) w.
Definition callGo (f : GoFunc) : M (option error) := invoke (goFuncs f) (EGoFunc f).

(** [time.Now()]: a clock that advances with every reading. *)
Definition time_Now : M Z :=
  fun w => (mkWorld (heap w) (store w) (clock w + 1) (trace w), Ret (clock w)).

(** Writes through a [*Migration]. *)
Definition update (p : ptr) (f : Migration -> Migration) : M unit :=
  fun w => (mkWorld (poke (heap w) p f) (store w) (clock w) (trace w), Ret tt).
Definition deref (p : ptr) : M Migration := fun w => (w, Ret (load (heap w) p)).

Definition index (m : Migrator) (i : Z) : M ptr :=
  match elem m i with
  | Some p => ret p
  | None => panic "index out of range"
  end.

(** [Migrator.Create]: appends a migration whose version is its position.
    A slice has fewer than 2^63 elements, so [len+1] does not wrap. The
    application registers every migration before it runs any, so no
    pointer into the slice exists yet when [append] moves it: the new
    element gets a new address and the others keep theirs. *)
Definition Create (m : Migrator) (name up down : string)
           (upGo downGo : option GoFunc) : M Migrator :=
  fun w =>
    let (h, p) := alloc (heap w)
                    (mkMigration (len m + 1) name up down upGo downGo "success" 0) in
    (mkWorld h (store w) (clock w) (trace w),
     Ret {| migrations := migrations m ++ [p] |}).

Definition executeMigration (migration : ptr) (sql : string) (goFunc : option GoFunc)
           (processStatus successStatus errorStatus : string) : M (option error) :=
  let failed : M (option error) :=
    update migration (SetStatus errorStatus) ;;
    t <- time_Now ;;
    update migration (SetStatusChangeTime t) ;;
    err <- storage_InsertMigration migration ;;
    ret err in
  let succeeded : M (option error) :=
    update migration (SetStatus successStatus) ;;
    t <- time_Now ;;
    update migration (SetStatusChangeTime t) ;;
    err <- storage_InsertMigration migration ;;
    match err with
    | Some e => ret (Some e)
    | None => ret None
    end in
  update migration (SetStatus processStatus) ;;
  t <- time_Now ;;
  update migration (SetStatusChangeTime t) ;;
  err <- storage_InsertMigration migration ;;
  match err with
  | Some e => ret (Some e)
  | None =>
      match goFunc with
      | Some f =>
          err <- callGo f ;;
          match err with
          | Some _ => failed
          | None => succeeded
          end
      | None =>
          if negb (String.eqb sql "")
          then err <- storage_Migrate sql ;;
               match err with
               | Some _ => failed
               | None => succeeded
               end
          else succeeded
      end
  end.

Definition upMigration (migration : ptr) (sql : string) (upGo : option GoFunc)
  : M (option error) :=
  executeMigration migration sql upGo StatusProcess StatusSuccess StatusError.

Definition downMigration (migration : ptr) (sql : string) (downGo : option GoFunc)
  : M (option error) :=
  executeMigration migration sql downGo StatusCancellation StatusCancel StatusError.

(** [for i := lastVersion; i < len(m.migrations); i++]; [n] counts the
    iterations left, [len - i]. *)
Fixpoint up_loop (m : Migrator) (i : Z) (n : nat) : M (option error) :=
  match n with
  | O => ret None
  | Datatypes.S n' =>
      p <- index m i ;;
      mig <- deref p ;;
      err <- upMigration p (storage.Up mig) (storage.UpGo mig) ;;
      match err with
      | Some _ => ret (Some ErrMigrationUp)
      | None => up_loop m (i + 1) n'
      end
  end.

Definition Up (m : Migrator) : M (option error) :=
  err <- storage_Lock ;;
  match err with
  | Some e => ret (Some e)
  | None =>
      defer storage_Unlock
        (r <- storage_SelectLastMigrationByStatus StatusSuccess ;;
         lv <- lift (lastVersionOf r) ;;
         match lv with
         | inr e => ret (Some e)
         | inl lastVersion =>
             if versionBeyond m (fst r)
             then ret (Some ErrUnexpectedMigrationVersion)
             else up_loop m lastVersion (Z.to_nat (len m - lastVersion))
         end)
  end.

Definition Down (m : Migrator) : M (option error) :=
  err <- storage_Lock ;;
  match err with
  | Some e => ret (Some e)
  | None =>
      defer storage_Unlock
        (r <- storage_SelectLastMigrationByStatus StatusSuccess ;;
         match snd r with
         | Some e =>
             if Is_ErrMigrationNotFound e then ret None else ret (Some e)
         | None =>
             match fst r with
             | None => panic "nil pointer dereference"
             | Some lastMigration =>
                 if len m <? Version lastMigration
                 then ret (Some ErrUnexpectedMigrationVersion)
                 else
                   let downMigrationIndex := int_sub (Version lastMigration) 1 in
                   p <- index m downMigrationIndex ;;
                   mig <- deref p ;;
                   err <- downMigration p (storage.Down mig) (storage.DownGo mig) ;;
                   match err with
                   | Some _ => ret (Some ErrMigrationDown)
                   | None => ret None
                   end
             end
         end)
  end.

Definition Redo (m : Migrator) : M (option error) :=
  err <- Down m ;;
  match err with
  | Some e => ret (Some e)
  | None =>
      r <- storage_SelectLastMigrationByStatus StatusSuccess ;;
      lv <- lift (lastVersionOf r) ;;
      match lv with
      | inr e => ret (Some e)
      | inl lastVersion =>
          if versionBeyond m (fst r)
          then ret (Some ErrUnexpectedMigrationVersion)
          else
            p <- index m lastVersion ;;
            mig <- deref p ;;
            err <- upMigration p (storage.Up mig) (storage.UpGo mig) ;;
            match err with
            | Some _ => ret (Some ErrMigrationRedo)
            | None => ret None
            end
      end
  end.

(** [DBVersion] returns only an error; the version it logs is returned
    alongside so that it can be stated. *)
Definition DBVersion : M (option Z * option error) :=
  r <- storage_SelectLastMigrationByStatus StatusSuccess ;;
  match snd r with
  | None =>
      match fst r with
      | Some lastMigration => ret (Some (Version lastMigration), None)
      | None => panic "nil pointer dereference"
      end
  | Some err =>
      if Is_ErrMigrationNotFound err then ret (Some 0, None)
      else ret (None, Some ErrGetVersion)
  end.

End Engine.

End processes.

(** ** Package app: building the registry from a directory *)
Module app.
Import storage.

(** *** Strings, as the Go library functions used here treat them *)

Definition is_digit (c : ascii) : bool :=
  (48 <=? nat_of_ascii c)%nat && (nat_of_ascii c <=? 57)%nat.

(** [regGetVersion.FindString], the pattern being [^\d+]: the longest
    prefix of ASCII digits, empty when there is none. *)
Fixpoint FindVersion (s : string) : string :=
  match s with
  | String c rest => if is_digit c then String c (FindVersion rest) else EmptyString
  | EmptyString => EmptyString
  end.

Fixpoint digits_value (acc : Z) (s : string) : Z :=
  match s with
  | String c rest => digits_value (10 * acc + (Z.of_nat (nat_of_ascii c) - 48)) rest
  | EmptyString => acc
  end.

(** [strconv.Quote] of a string of digits: the digits between two double
    quotes. *)
Definition Quote (s : string) : string :=
  String "034"%char (s +:+ String "034"%char EmptyString).

(** [strconv.ErrRange] *)
Definition ErrRange : error := errorString "value out of range".

(** The [*strconv.NumError] that [Atoi] returns for digits [s] whose value
    does not fit: its text names the function and the digits, and it
    unwraps to [ErrRange]. *)
Definition rangeError (s : string) : error :=
  wrapError ("strconv.Atoi: parsing " +:+ Quote s +:+ ": value out of range") ErrRange.

(** [strconv.Atoi] on a non-empty string of digits: the value, or a range
    error when it does not fit an [int]. *)
Definition Atoi (s : string) : Z + error :=
  let v := digits_value 0 s in
  if int_max <? v then inr (rangeError s) else inl v.

(** [strings.Split(s, "_")] *)
Fixpoint Split (s : string) : list string :=
  match s with
  | EmptyString => [EmptyString]
  | String c rest =>
      if Ascii.eqb c "_"%char then EmptyString :: Split rest
      else match Split rest with
           | p :: ps => String c p :: ps
           | [] => [String c EmptyString]
           end
  end.

(** [strings.Join(parts, "_")] *)
Definition Join (parts : list string) : string := String.concat "_" parts.

(** The elements of a path, those between its slashes; an empty one
    stands before a leading slash, after a trailing one and between two
    that follow each other. *)
Fixpoint path_elems (s : string) : list string :=
  match s with
  | EmptyString => [EmptyString]
  | String c rest =>
      if Ascii.eqb c "/"%char then EmptyString :: path_elems rest
      else match path_elems rest with
           | p :: ps => String c p :: ps
           | [] => [String c EmptyString]
           end
  end.

(** One turn of the loop of [path.Clean], on the element [e]; [kept] are
    the elements written out so far, the last one first. An empty element
    and [.] are dropped. [..] takes back the last element written; when
    there is none to take back it is dropped in a rooted path and written
    out in any other. Every other element is written out. *)
Definition clean_elem (rooted : bool) (kept : list string) (e : string) : list string :=
  if String.eqb e "" || String.eqb e "." then kept
  else if String.eqb e ".." then
    match kept with
    | last :: before => if String.eqb last ".." then e :: kept else before
    | [] => if rooted then [] else [e]
    end
  else e :: kept.

(** A path is rooted when it begins with a slash. *)
Definition rooted (path : string) : bool :=
  match path with
  | String c _ => Ascii.eqb c "/"%char
  | EmptyString => false
  end.

(** [path.Clean]: the shortest path that names the same file; [.] when
    nothing is left. *)
Definition path_Clean (path : string) : string :=
  let kept := rev (fold_left (clean_elem (rooted path)) (path_elems path) []) in
  let out := (if rooted path then "/" else "") +:+ String.concat "/" kept in
  if String.eqb out "" then "." else out.

(** [path.Join(a, b)]: the elements that are not empty, with a slash
    between them, cleaned. *)
Definition path_Join (a b : string) : string :=
  if String.eqb a "" then (if String.eqb b "" then "" else path_Clean b)
  else if String.eqb b "" then path_Clean a
  else path_Clean (a +:+ "/" +:+ b).

Fixpoint no_slash (s : string) : bool :=
  match s with
  | EmptyString => true
  | String c rest => negb (Ascii.eqb c "/"%char) && no_slash rest
  end.

(** The name of a file in a directory, as [os.ReadDir] gives it: not
    empty, without a slash, and neither [.] nor [..]. *)
Definition plain_name (s : string) : bool :=
  negb (String.eqb s "") && negb (String.eqb s ".") && negb (String.eqb s "..")
  && no_slash s.

(** [s] with the suffix removed, when it ends with it. *)
Definition trimmed (suffix s : string) : option string :=
  let n := (String.length s - String.length suffix)%nat in
  if (String.length suffix <=? String.length s)%nat
     && String.eqb (String.substring n (String.length suffix) s) suffix
  then Some (String.substring 0 n s)
  else None.

Fixpoint no_newline (s : string) : bool :=
  match s with
  | EmptyString => true
  | String c rest => negb (Ascii.eqb c "010"%char) && no_newline rest
  end.

(** The four patterns [^.+_up\.sql$], ...: at least one character, none of
    them a line feed, and then the literal suffix up to the end. *)
Definition matches (suffix s : string) : bool :=
  match trimmed suffix s with
  | Some pre => negb (String.eqb pre "") && no_newline pre
  | None => false
  end.

Definition regGetUpMigration : string -> bool := matches "_up.sql".
Definition regGetDownMigration : string -> bool := matches "_down.sql".
Definition regGetUpGoMigration : string -> bool := matches "_up.go".
Definition regGetDownGoMigration : string -> bool := matches "_down.go".

(** *** Directory entries *)

(** An entry of [os.ReadDir] with what [os.ReadFile] gives for it. *)
Record DirEntry : Type := {
  FileName : string;
  ReadFile : string + error
}.

Definition parseFileName (fileName : string) : (Z * string) + error :=
  let strVersion := FindVersion fileName in
  if String.eqb strVersion "" then inr ErrInvalidMigrationName
  else match Atoi strVersion with
       | inr err => inr err
       | inl version =>
           let parts := Split fileName in
           if (List.length parts <? 3)%nat then inr ErrInvalidMigrationName
           else
             let migrationName :=
               Join (take (List.length parts - 1 - 1) (drop 1 parts)) in
             inl (version, migrationName)
       end.

(** The closure [func(ctx) error { return runGoMigration(filePath, name) }]
    is the script it runs, [path.Join(filePath, name)]. *)
Definition runGoMigration (filePath fileName : string) : GoFunc :=
  path_Join filePath fileName.

Definition processMigrationFile (filePath : string) (file : DirEntry)
           (version : Z) (migrationName : string) : Migration + error :=
  if regGetUpMigration (FileName file) then
    match ReadFile file with
    | inr err => inr err
    | inl sql => inl (mkMigration version migrationName sql "" None None "" 0)
    end
  else if regGetDownMigration (FileName file) then
    match ReadFile file with
    | inr err => inr err
    | inl sql => inl (mkMigration version migrationName "" sql None None "" 0)
    end
  else if regGetUpGoMigration (FileName file) then
    inl (mkMigration version migrationName "" ""
           (Some (runGoMigration filePath (FileName file))) None "" 0)
  else if regGetDownGoMigration (FileName file) then
    inl (mkMigration version migrationName "" ""
           None (Some (runGoMigration filePath (FileName file))) "" 0)
  else inr ErrInvalidMigrationName.

(** [mergeMigrations(existing, new)] writes into [existing]; the result is
    the object [existing] points to afterwards. *)
Definition mergeMigrations (existing new : Migration) : Migration :=
  let e1 := if negb (String.eqb (storage.Up new) "")
            then mkMigration (Version existing) (Name existing) (storage.Up new)
                   (storage.Down existing) (UpGo existing) (DownGo existing)
                   (Status existing) (StatusChangeTime existing)
            else existing in
  let e2 := if negb (String.eqb (storage.Down new) "")
            then mkMigration (Version e1) (Name e1) (storage.Up e1)
                   (storage.Down new) (UpGo e1) (DownGo e1)
                   (Status e1) (StatusChangeTime e1)
            else e1 in
  let e3 := match UpGo new with
            | Some f => mkMigration (Version e2) (Name e2) (storage.Up e2)
                          (storage.Down e2) (Some f) (DownGo e2)
                          (Status e2) (StatusChangeTime e2)
            | None => e2
            end in
  match DownGo new with
  | Some f => mkMigration (Version e3) (Name e3) (storage.Up e3)
                (storage.Down e3) (UpGo e3) (Some f)
                (Status e3) (StatusChangeTime e3)
  | None => e3
  end.

(** The loop of [getMigrations] over the entries, in directory order. *)
Fixpoint collect (filePath : string) (files : list DirEntry)
         (migrations : gmap Z Migration) : gmap Z Migration + error :=
  match files with
  | [] => inl migrations
  | file :: rest =>
      match parseFileName (FileName file) with
      | inr err => inr err
      | inl (version, migrationName) =>
          match processMigrationFile filePath file version migrationName with
          | inr err => inr err
          | inl migration =>
              match migrations !! version with
              | Some existingMigration =>
                  collect filePath rest
                    (<[version := mergeMigrations existingMigration migration]> migrations)
              | None =>
                  collect filePath rest (<[version := migration]> migrations)
              end
          end
      end
  end.

(** [getMigrations]; [readDir] is the outcome of [os.ReadDir(filePath)]. *)
Definition getMigrations (filePath : string) (readDir : list DirEntry + error)
  : gmap Z Migration + error :=
  match readDir with
  | inr err => inr err
  | inl files => collect filePath files ∅
  end.

(** *** Creating the files of a new migration *)

(** [getLastVersion]: the largest version a file name starts with, 0 when
    none starts with a digit, and -1 as soon as a version does not parse. *)
Fixpoint getLastVersion_loop (files : list DirEntry) (lastVersion : Z) : Z :=
  match files with
  | [] => lastVersion
  | file :: rest =>
      let strVersion := FindVersion (FileName file) in
      if negb (String.eqb strVersion "") then
        match Atoi strVersion with
        | inr _ => -1
        | inl version =>
            getLastVersion_loop rest
              (if lastVersion <? version then version else lastVersion)
        end
      else getLastVersion_loop rest lastVersion
  end.

Definition getLastVersion (files : list DirEntry) : Z := getLastVersion_loop files 0.

(** The character of the decimal digit [d], [0 <= d <= 9]. *)
Definition digit_char (d : Z) : ascii := ascii_of_nat (Z.to_nat (48 + d)).

(** The decimal digits of [n], [0 <= n], in front of [acc]; [fuel] bounds
    their number. *)
Fixpoint digits_of (fuel : nat) (n : Z) (acc : string) : string :=
  match fuel with
  | O => acc
  | Datatypes.S fuel' =>
      let acc' := String (digit_char (n mod 10)) acc in
      if n <? 10 then acc' else digits_of fuel' (n / 10) acc'
  end.

(** The digits of the absolute value of an [int]: there are at most 19. *)
Definition Itoa (n : Z) : string := digits_of 19 n "".

Fixpoint zeros (k : nat) : string :=
  match k with
  | O => EmptyString
  | Datatypes.S k' => String "0"%char (zeros k')
  end.

(** The verb [%05d] of [fmt.Sprintf]: the number in decimal, filled with
    zeros to five characters; the sign of a negative number comes first
    and counts as one of the five. *)
Definition Sprintf_05d (n : Z) : string :=
  if n <? 0
  then "-" +:+ zeros (4 - String.length (Itoa (- n))) +:+ Itoa (- n)
  else zeros (5 - String.length (Itoa n)) +:+ Itoa n.

(** [fmt.Sprintf("%05d_%s" + tail, version, name)], [tail] being one of
    [_up.sql], [_down.sql], [_up.go] and [_down.go]. *)
Definition Sprintf_05d_s (tail : string) (version : Z) (name : string) : string :=
  Sprintf_05d version +:+ "_" +:+ name +:+ tail.

(** The file system, as far as [Create] uses it. [ReadDir] is
    [os.ReadDir]; [WriteFile dir file data] is
    [os.WriteFile(path.Join(dir, file), data, 0o600)]. *)
Record FileSystem : Type := {
  Fs : Type;
  ReadDir : string -> Fs -> list DirEntry + error;
  WriteFile : string -> string -> string -> Fs -> Fs * option error
}.

(** A call of [os.WriteFile] that was made: the file, the data, the answer. *)
Record WriteCall : Type := mkWrite {
  wFile : string;
  wData : string;
  wErr : option error
}.

Section CreateFiles.

Variable F : FileSystem.

(** The texts of the two Go templates that [createMigrationFiles] writes. *)
Variable upContent downContent : string.

(** [createMigrationFiles]: the up file, then the down file; the first
    write that fails ends the call with its error. The calls made are
    returned with the outcome. *)
Definition createMigrationFiles (filePath : string) (version : Z)
           (name migrationType : string) (fs : Fs F)
  : Fs F * list WriteCall * option error :=
  let both (upTail upData downTail downData : string) :=
    let upFile := Sprintf_05d_s upTail version name in
    let (fs1, err) := WriteFile F filePath upFile upData fs in
    match err with
    | Some e => (fs1, [mkWrite upFile upData (Some e)], Some e)
    | None =>
        let downFile := Sprintf_05d_s downTail version name in
        let (fs2, err2) := WriteFile F filePath downFile downData fs1 in
        (fs2, [mkWrite upFile upData None; mkWrite downFile downData err2], err2)
    end in
  if String.eqb migrationType "sql" then both "_up.sql" "" "_down.sql" ""
  else if String.eqb migrationType "go" then both "_up.go" upContent "_down.go" downContent
  else (fs, [], Some (errorString "unsupported migration type")).

(** [Application.Create]. It returns nothing; the error it logs is
    returned so that it can be stated. [lastVersion++] wraps. *)
Definition Create (name filePath migrationType : string) (fs : Fs F)
  : Fs F * list WriteCall * option error :=
  match ReadDir F filePath fs with
  | inr err => (fs, [], Some err)
  | inl files =>
      let lastVersion := getLastVersion files in
      if lastVersion <? 0 then (fs, [], None)
      else createMigrationFiles filePath (wrap_int (lastVersion + 1)) name migrationType fs
  end.

End CreateFiles.

(** *** Handing the registry to the migrator *)
Section Register.

Variable S : SQLStorage.

(** Go does not specify the order in which [range] visits a map, and it
    may differ from one loop to the next: [order] is the order this run
    takes, any arrangement of the keys. *)
Definition range_order (migrations : gmap Z Migration) (order : list Z) : Prop :=
  order ≡ₚ (map_to_list migrations).*1.

(** [for _, migration := range migrations { migrator.Create(...) }] *)
Fixpoint registerAll (migrations : gmap Z Migration) (order : list Z)
         (migrator : processes.Migrator) : processes.M S processes.Migrator :=
  match order with
  | [] => processes.ret S migrator
  | version :: rest =>
      match migrations !! version with
      | Some migration =>
          processes.bind S
            (processes.Create S migrator (Name migration) (storage.Up migration)
               (storage.Down migration) (UpGo migration) (DownGo migration))
            (registerAll migrations rest)
      | None => registerAll migrations rest migrator
      end
  end.

(** The first half of [runMigrations]: a new migrator, the migrations
    read from the directory, each of them registered. *)
Definition registerMigrations (filePath : string) (readDir : list DirEntry + error)
           (order : list Z) : processes.M S (processes.Migrator + error) :=
  match getMigrations filePath readDir with
  | inr err => processes.ret S (inr err)
  | inl migrations =>
      processes.bind S (registerAll migrations order processes.New)
        (fun migrator => processes.ret S (inl migrator))
  end.

End Register.

End app.

(** * The log of a run, and the runs examined below *)

Module log.
Import storage processes.

(** The events one [executeMigration] can leave, with the error it returns:
    a write entering the transient status; if that write succeeds the
    action (a Go closure, else a non-empty statement, else nothing) and a
    second write, entering [successStatus] when the action returned nil and
    [errorStatus] when it failed. In each case the call returns what its
    last write returned. *)
Inductive transition (p : ptr) (sql : string) (goFunc : option GoFunc)
          (processStatus successStatus errorStatus : string)
  : list Event -> option error -> Prop :=
| tr_refused r1 e :
    Status r1 = processStatus ->
    transition p sql goFunc processStatus successStatus errorStatus
               [EInsert p r1 (Some e)] (Some e)
| tr_go_done f r1 r2 e2 :
    goFunc = Some f ->
    Status r1 = processStatus -> Status r2 = successStatus ->
    transition p sql goFunc processStatus successStatus errorStatus
               [EInsert p r1 None; EGoFunc f None; EInsert p r2 e2] e2
| tr_go_failed f e r1 r2 e2 :
    goFunc = Some f ->
    Status r1 = processStatus -> Status r2 = errorStatus ->
    transition p sql goFunc processStatus successStatus errorStatus
               [EInsert p r1 None; EGoFunc f (Some e); EInsert p r2 e2] e2
| tr_sql_done r1 r2 e2 :
    goFunc = None -> sql <> "" ->
    Status r1 = processStatus -> Status r2 = successStatus ->
    transition p sql goFunc processStatus successStatus errorStatus
               [EInsert p r1 None; EMigrate sql None; EInsert p r2 e2] e2
| tr_sql_failed e r1 r2 e2 :
    goFunc = None -> sql <> "" ->
    Status r1 = processStatus -> Status r2 = errorStatus ->
    transition p sql goFunc processStatus successStatus errorStatus
               [EInsert p r1 None; EMigrate sql (Some e); EInsert p r2 e2] e2
| tr_no_action r1 r2 e2 :
    goFunc = None -> sql = "" ->
    Status r1 = processStatus -> Status r2 = successStatus ->
    transition p sql goFunc processStatus successStatus errorStatus
               [EInsert p r1 None; EInsert p r2 e2] e2.

(** The migrations whose record entered [status], in order. *)
Fixpoint entered (status : string) (evs : list Event) : list ptr :=
  match evs with
  | [] => []
  | EInsert p r _ :: rest =>
      if String.eqb (Status r) status then p :: entered status rest
      else entered status rest
  | _ :: rest => entered status rest
  end.

(** The actions run, in order. *)
Fixpoint actions (evs : list Event) : list Event :=
  match evs with
  | [] => []
  | EMigrate sql e :: rest => EMigrate sql e :: actions rest
  | EGoFunc f e :: rest => EGoFunc f e :: actions rest
  | _ :: rest => actions rest
  end.

(** The status writes issued, in order. *)
Fixpoint writes (evs : list Event) : list (ptr * string) :=
  match evs with
  | [] => []
  | EInsert p r _ :: rest => (p, Status r) :: writes rest
  | _ :: rest => writes rest
  end.

(** Every action and every status write happens while the lock is held;
    [held] says whether it is held before the first event. *)
Fixpoint guarded (held : bool) (evs : list Event) : bool :=
  match evs with
  | [] => true
  | ELock None :: rest => guarded true rest
  | ELock (Some _) :: rest => guarded held rest
  | EUnlock _ :: rest => guarded false rest
  | ESelectLast _ _ :: rest => guarded held rest
  | EInsert _ _ _ :: rest => held && guarded held rest
  | EMigrate _ _ :: rest => held && guarded held rest
  | EGoFunc _ _ :: rest => held && guarded held rest
  end.

(** Whether the lock is held after the events. *)
Fixpoint holding (held : bool) (evs : list Event) : bool :=
  match evs with
  | [] => held
  | ELock None :: rest => holding true rest
  | EUnlock _ :: rest => holding false rest
  | _ :: rest => holding held rest
  end.

Definition is_work (ev : Event) : bool :=
  match ev with
  | ELock _ | EUnlock _ => false
  | _ => true
  end.

(** *** A transition, call by call

    The record of a migration as [executeMigration] writes it: with
    [status], at time [t]. *)
Definition stamp (status : string) (t : Z) (r : Migration) : Migration :=
  SetStatusChangeTime t (SetStatus status r).

(** The status a transition ends in: [failure] when the action returned
    an error, [completed] when it returned nil. *)
Definition terminal (a : option error) (completed failure : string) : string :=
  match a with
  | Some _ => failure
  | None => completed
  end.

Section Performed.

Variable S : SQLStorage.
Variable goFuncs : GoFunc -> Call (St S) (option error).

(** The action of a migration with statement [sql] and closure [goFunc],
    run once on heap and store: the closure when there is one, else the
    statement when it is not empty, else nothing. The event logged carries
    the answer [a] that the closure or the store gave. *)
Inductive acted (sql : string) (goFunc : option GoFunc) (h : Heap) (s : St S)
  : list Event -> option error -> Heap -> St S -> Prop :=
| act_go f h' s' a :
    goFunc = Some f -> goFuncs f h s = (h', s', a) ->
    acted sql goFunc h s [EGoFunc f a] a h' s'
| act_sql h' s' a :
    goFunc = None -> sql <> "" -> Migrate S sql h s = (h', s', a) ->
    acted sql goFunc h s [EMigrate sql a] a h' s'
| act_none :
    goFunc = None -> sql = "" ->
    acted sql goFunc h s [] None h s.

(** One transition of the migration at [p], from the world [w] to the
    world after it, with the error returned. The migration is written
    with the [transient] status; when the store refuses that write
    nothing else happens. Otherwise the action runs once, and the
    migration is written a second time, with the [completed] status when
    the action returned nil and with the [failure] status when it did
    not. Each write is the store's [InsertMigration] on the object at [p]
    as it then is, every logged answer is the one the store gave, and the
    error returned is the answer to the last write. *)
Inductive performed (p : ptr) (sql : string) (goFunc : option GoFunc)
          (transient completed failure : string) (w : World (St S))
  : World (St S) -> option error -> Prop :=
| pf_refused h1 s1 e :
    InsertMigration S p (poke (heap w) p (stamp transient (clock w))) (store w)
    = (h1, s1, Some e) ->
    performed p sql goFunc transient completed failure w
      (mkWorld h1 s1 (clock w + 1)
         (trace w ++ [EInsert p (stamp transient (clock w) (load (heap w) p)) (Some e)]))
      (Some e)
| pf_written h1 s1 acts a h2 s2 h3 s3 e :
    InsertMigration S p (poke (heap w) p (stamp transient (clock w))) (store w)
    = (h1, s1, None) ->
    acted sql goFunc h1 s1 acts a h2 s2 ->
    InsertMigration S p
      (poke h2 p (stamp (terminal a completed failure) (clock w + 1))) s2
    = (h3, s3, e) ->
    performed p sql goFunc transient completed failure w
      (mkWorld h3 s3 (clock w + 2)
         (trace w
          ++ [EInsert p (stamp transient (clock w) (load (heap w) p)) None]
          ++ acts
          ++ [EInsert p (stamp (terminal a completed failure) (clock w + 1)
                           (load h2 p)) e]))
      e.

End Performed.

(** The migrations of the registry, as they are in the heap. *)
Definition registered {St : Type} (m : Migrator) (w : World St) : list Migration :=
  map (load (heap w)) (migrations m).

(** *** The mock store under a history in registry order *)

(** Two heaps with the same version and name at every address. *)
Definition same_keys (h h' : Heap) : Prop :=
  forall x, Version (load h' x) = Version (load h x) /\
            Name (load h' x) = Name (load h x).

(** What the four setters of the mock's [InsertMigration] leave at [q]. *)
Definition overwritten (h : Heap) (q p : ptr) : Heap :=
  let h1 := poke h q (SetStatus (Status (load h p))) in
  let h2 := poke h1 q (SetStatusChangeTime (StatusChangeTime (load h1 p))) in
  let h3 := poke h2 q (SetVersion (Version (load h2 p))) in
  poke h3 q (SetName (Name (load h3 p))).

(** The records of the mock store are the beginning of the registry: the
    record inserted [j]-th is that of the migration at index [j], under
    its version [j + 1] and its name. *)
Record aligned (m : Migrator) (h : Heap) (recs : list ptr) : Prop := {
  al_len : (List.length recs <= List.length (migrations m))%nat;
  al_reg : forall i p, migrations m !! i = Some p ->
             Version (load h p) = Z.of_nat i + 1;
  al_rec : forall j q p, recs !! j = Some q -> migrations m !! j = Some p ->
             Version (load h q) = Version (load h p) /\
             Name (load h q) = Name (load h p)
}.

(** *** The claims that do not hold as stated

    Down does nothing and returns nil when the store names no successful
    migration; when it names one, Down enters exactly one down
    transition, on a migration of that version. *)
Definition Down_noop_or_one_transition (S : SQLStorage)
           (goFuncs : GoFunc -> Call (St S) (option error))
           (m : Migrator) (w : World (St S)) : Prop :=
  forall h1 s1 h2 s2 r,
    Lock S (heap w) (store w) = (h1, s1, None) ->
    SelectLastMigrationByStatus S StatusSuccess h1 s1 = (h2, s2, r) ->
    exists evs,
      trace (fst (Down S goFuncs m w)) = trace w ++ evs /\
      match fst r with
      | None =>
          snd (Down S goFuncs m w) = Ret None /\ writes evs = [] /\ actions evs = []
      | Some last =>
          exists p, entered StatusCancellation evs = [p] /\
                    Version (load (heap w) p) = Version last
      end.

(** Redo re-applies the very migration it rolled back: the one whose
    version is the last successful one when Redo starts. *)
Definition Redo_reapplies_rolled_back (S : SQLStorage)
           (goFuncs : GoFunc -> Call (St S) (option error))
           (m : Migrator) (w : World (St S)) : Prop :=
  forall h1 s1 h2 s2 last p,
    Lock S (heap w) (store w) = (h1, s1, None) ->
    SelectLastMigrationByStatus S StatusSuccess h1 s1 = (h2, s2, (Some last, None)) ->
    migrations m !! Z.to_nat (Version last - 1) = Some p ->
    exists evs,
      trace (fst (Redo S goFuncs m w)) = trace w ++ evs /\
      entered StatusCancellation evs = [p] /\
      entered StatusProcess evs = [p].

(** Up right after an Up that returned nil runs no action and writes no
    status. *)
Definition Up_idempotent (S : SQLStorage)
           (goFuncs : GoFunc -> Call (St S) (option error))
           (m : Migrator) (w : World (St S)) : Prop :=
  forall w1,
    Up S goFuncs m w = (w1, Ret None) ->
    exists evs,
      trace (fst (Up S goFuncs m w1)) = trace w1 ++ evs /\
      actions evs = [] /\ writes evs = [].

(** A fragment supplies the fields it has a value for. *)
Definition disjoint (a b : Migration) : bool :=
  (String.eqb (storage.Up a) "" || String.eqb (storage.Up b) "")
  && (String.eqb (storage.Down a) "" || String.eqb (storage.Down b) "")
  && (negb (bool_decide (is_Some (UpGo a))) || negb (bool_decide (is_Some (UpGo b))))
  && (negb (bool_decide (is_Some (DownGo a))) || negb (bool_decide (is_Some (DownGo b)))).

(** Merging two fragments of one version gives the same migration
    whichever of them is found first, when they supply different fields. *)
Definition merge_commutes (a b : Migration) : Prop :=
  Version a = Version b -> disjoint a b = true ->
  app.mergeMigrations a b = app.mergeMigrations b a.

(** *** Reading a directory, and the mock store's records *)

(** One turn of the loop of [getMigrations]: the fragment of a file goes
    where its version says, merged into what is there. *)
Definition placed (migrations : gmap Z Migration) (a : Migration) : gmap Z Migration :=
  <[Version a := match migrations !! Version a with
                 | Some existing => app.mergeMigrations existing a
                 | None => a
                 end]> migrations.

(** What the mock store compares records by. *)
Definition key (h : Heap) (p : ptr) : Z * string :=
  (Version (load h p), Name (load h p)).

(** A history in registry order in which the first [k] versions are the
    applied ones: their records are successful, the later records are not. *)
Record applied (m : Migrator) (h : Heap) (recs : list ptr) (k : nat) : Prop := {
  ap_aligned : aligned m h recs;
  ap_len : (k <= List.length recs)%nat;
  ap_done : forall j q, recs !! j = Some q -> (j < k)%nat ->
              Status (load h q) = StatusSuccess;
  ap_rest : forall j q, recs !! j = Some q -> (k <= j)%nat ->
              Status (load h q) <> StatusSuccess
}.

End log.

Module scenarios.
Import storage processes log.

(** A registry built by successive [Create]s, as [runMigrations] does. *)
Fixpoint register (S : SQLStorage) (defs : list Migration) (m : Migrator)
  : M S Migrator :=
  match defs with
  | [] => ret S m
  | d :: rest =>
      bind S (Create S m (Name d) (storage.Up d) (storage.Down d) (UpGo d) (DownGo d))
           (register S rest)
  end.

Definition registry (S : SQLStorage) (defs : list Migration) (w : World (St S))
  : Migrator * World (St S) :=
  match register S defs New w with
  | (w', Ret m) => (m, w')
  | (w', Panic _) => (New, w')
  end.

(** A migration given by SQL text in both directions. *)
Definition sql (name up down : string) : Migration :=
  mkMigration 0 name up down None None "" 0.

(** No Go closure fails (none is run in the runs below). *)
Definition noGo {St : Type} : GoFunc -> Call St (option error) :=
  fun _ h s => (h, s, None).

(** The Go closures in [bad] fail, the others return nil. *)
Definition failing {St : Type} (bad : list GoFunc) : GoFunc -> Call St (option error) :=
  fun f h s =>
    (h, s, if bool_decide (f ∈ bad) then Some (errorString "exit status 1") else None).

(** A migration given by Go scripts in both directions. *)
Definition script (name up down : GoFunc) : Migration :=
  mkMigration 0 name "" "" (Some up) (Some down) "" 0.

(** A history record put into the mock store the way the tests do:
    [mockStorage.InsertMigration(ctx, storage.CreateMigration(...))]. *)
Definition seed (r : Migration) (w : World MockSQLStorage) : World MockSQLStorage :=
  let (h, p) := alloc (heap w) r in
  match Mock_InsertMigration p h (store w) with
  | (h', s', _) => mkWorld h' s' (clock w) (trace w)
  end.

Definition mock_empty : World MockSQLStorage := mkWorld ∅ NewMockSQLStorage 0 [].

Definition database (records : list Migration) (rejected : list string)
  : World ContractStorage :=
  mkWorld ∅ (mkContract records false false rejected) 0 [].

(** Versions 1 and 2, no history, and a database that rejects the
    up-script of version 1. *)
Definition failed_script : Migrator * World ContractStorage :=
  registry Contract [sql "a" "BAD" "DA"; sql "b" "UB" "DB"] (database [] ["BAD"]).

(** Versions 1, 2 and 3 on the mock store, version 1 recorded as
    successful; version 2 is a Go script. *)
Definition failed_closure : Migrator * World MockSQLStorage :=
  registry Mock [sql "a" "UA" "DA"; script "b" "b_up.go" "b_down.go"; sql "c" "UC" "DC"]
           (seed (CreateMigration "a" StatusSuccess 1 0) mock_empty).

(** One migration in the registry, version 2 recorded as successful. *)
Definition one_past : Migrator * World MockSQLStorage :=
  registry Mock [sql "a" "UA" "DA"]
           (seed (CreateMigration "b" StatusSuccess 2 0) mock_empty).

(** Versions 1 and 2, both recorded as successful, in that order. *)
Definition both_applied : Migrator * World MockSQLStorage :=
  registry Mock [sql "a" "UA" "DA"; sql "b" "UB" "DB"]
           (seed (CreateMigration "b" StatusSuccess 2 0)
                 (seed (CreateMigration "a" StatusSuccess 1 0) mock_empty)).

(** Versions 1, 2 and 3; versions 1 and 3 are recorded as successful,
    version 2 as failed. *)
Definition second_failed : Migrator * World MockSQLStorage :=
  registry Mock [sql "a" "UA" "DA"; sql "b" "UB" "DB"; sql "c" "UC" "DC"]
           (seed (CreateMigration "c" StatusSuccess 3 0)
                 (seed (CreateMigration "b" StatusError 2 0)
                       (seed (CreateMigration "a" StatusSuccess 1 0) mock_empty))).

(** Versions 1 and 2; the record of version 2 (rolled back) was inserted
    before the record of version 1 (successful). *)
Definition out_of_order : Migrator * World MockSQLStorage :=
  registry Mock [sql "a" "UA" "DA"; sql "b" "UB" "DB"]
           (seed (CreateMigration "a" StatusSuccess 1 0)
                 (seed (CreateMigration "b" StatusCancel 2 0) mock_empty)).

(** Versions 1 and 2; version 1 is recorded as successful. *)
Definition one_applied : Migrator * World MockSQLStorage :=
  registry Mock [sql "a" "UA" "DA"; sql "b" "UB" "DB"]
           (seed (CreateMigration "a" StatusSuccess 1 0) mock_empty).

(** One migration in the registry; the last successful record of the
    history has version -1. *)
Definition below_one : Migrator * World MockSQLStorage :=
  registry Mock [sql "a" "UA" "DA"]
           (seed (CreateMigration "z" StatusSuccess (-1) 0) mock_empty).

(** One migration in the registry and a mock store without history. *)
Definition no_history : Migrator * World MockSQLStorage :=
  registry Mock [sql "a" "UA" "DA"] mock_empty.

(** No migration and no history. *)
Definition nothing : Migrator * World ContractStorage := registry Contract [] (database [] []).

(** A directory with the up-scripts of two versions. *)
Definition two_files : list app.DirEntry :=
  [ {| app.FileName := "00001_a_up.sql"; app.ReadFile := inl "A" |};
    {| app.FileName := "00002_b_up.sql"; app.ReadFile := inl "B" |} ].

(** What the migrator holds after [runMigrations] has read [two_files]
    and visited the map in [order]. *)
Definition registered_in (order : list Z) : list (Z * string * string) :=
  match app.registerMigrations Mock "migrations" (inl two_files) order mock_empty with
  | (w, Ret (inl m)) =>
      map (fun x => (Version x, Name x, storage.Up x)) (registered m w)
  | _ => []
  end.

(** The repository's [TestUpDownMigration]: a successful record of
    version 1 is put into the mock store, [app.Create] writes the two
    empty scripts of [create_users], then [app.Up] and [app.Down] run,
    each on a migrator of its own. The result is what the store holds. *)
Definition TestUpDownMigration : list Migration :=
  let files : list app.DirEntry + error :=
    inl [ {| app.FileName := "00001_create_users_down.sql"; app.ReadFile := inl "" |};
          {| app.FileName := "00001_create_users_up.sql"; app.ReadFile := inl "" |} ] in
  let w0 := seed (CreateMigration "create_users" StatusSuccess 1 0) mock_empty in
  match app.registerMigrations Mock "../migrations" files [1] w0 with
  | (w1, Ret (inl m1)) =>
      let (w2, _) := Up Mock noGo m1 w1 in
      match app.registerMigrations Mock "../migrations" files [1] w2 with
      | (w3, Ret (inl m2)) =>
          let (w4, _) := Down Mock noGo m2 w3 in
          map (load (heap w4)) (storage.migrations (store w4))
      | _ => []
      end
  | _ => []
  end.

(** The fragment [getMigrations] makes of one directory entry. *)
Definition fragment (filePath : string) (file : app.DirEntry) : Migration + error :=
  match app.parseFileName (app.FileName file) with
  | inr err => inr err
  | inl (version, migrationName) =>
      app.processMigrationFile filePath file version migrationName
  end.

(** A directory kept as the list of its entries, in a file system in
    which nothing else can be written. [ReadDir] lists the entries.
    [WriteFile dir file data] writes at [path.Join(dir, file)]: when that
    is the path of a file of the directory, [path.Join(dir, base)] for a
    name [base], the entry of that name gets the data, or is added at the
    end; a path that leads elsewhere is refused. *)
Fixpoint put (file data : string) (entries : list app.DirEntry) : list app.DirEntry :=
  match entries with
  | [] => [ {| app.FileName := file; app.ReadFile := inl data |} ]
  | entry :: rest =>
      if String.eqb (app.FileName entry) file
      then {| app.FileName := file; app.ReadFile := inl data |} :: rest
      else entry :: put file data rest
  end.

Definition disk : app.FileSystem := {|
  app.Fs := list app.DirEntry;
  app.ReadDir := fun _ entries => inl entries;
  app.WriteFile := fun dir file data entries =>
    let target := app.path_Join dir file in
    let refused := Some (errorString ("open " +:+ target +:+ ": no such file or directory")) in
    match last (app.path_elems target) with
    | Some base =>
        if app.plain_name base && String.eqb (app.path_Join dir base) target
        then (put base data entries, None)
        else (entries, refused)
    | None => (entries, refused)
    end
|}.

(** A directory with the two scripts of version 1. *)
Definition first_migration : list app.DirEntry :=
  [ {| app.FileName := "00001_a_down.sql"; app.ReadFile := inl "DA" |};
    {| app.FileName := "00001_a_up.sql"; app.ReadFile := inl "UA" |} ].

(** The map [getMigrations] makes of [two_files]. *)
Definition two_versions : gmap Z Migration :=
  match app.getMigrations "migrations" (inl two_files) with
  | inl migrations => migrations
  | inr _ => ∅
  end.

(** The repository's [TestCreateMigrationFiles]: [app.Create] of
    [create_users] on an empty directory. The result is the names of the
    files the directory lists afterwards. *)
Definition TestCreateMigrationFiles : list string :=
  match app.Create disk "" "" "create_users" "../migrations" "sql" [] with
  | (entries, _, _) => map app.FileName entries
  end.

(** Two fragments of version 1 with different names. *)
Definition up_x : Migration := mkMigration 1 "x" "A" "" None None "" 0.
Definition down_y : Migration := mkMigration 1 "y" "" "B" None None "" 0.

End scenarios.

(** * Properties *)

Module props.
Import storage processes log scenarios.

(** ** The heap *)

Lemma load_poke (h : Heap) (p : ptr) (f : Migration -> Migration) :
  load (poke h p f) p = f (load h p).
Proof. unfold load at 1, poke. by rewrite lookup_insert_eq. Qed.

Lemma load_poke_ne (h : Heap) (p q : ptr) (f : Migration -> Migration) :
  p <> q -> load (poke h p f) q = load h q.
Proof. intros Hpq. unfold load at 1, poke. by rewrite lookup_insert_ne. Qed.

(** ** What a transition leaves in the log *)

Lemma transition_down_entered p sql g evs e :
  transition p sql g StatusCancellation StatusCancel StatusError evs e ->
  entered StatusCancellation evs = [p] /\ entered StatusProcess evs = [].
Proof.
  destruct 1; cbn;
    repeat match goal with H : Status _ = _ |- _ => rewrite H end; done.
Qed.

Lemma transition_up_entered p sql g evs e :
  transition p sql g StatusProcess StatusSuccess StatusError evs e ->
  entered StatusProcess evs = [p] /\ entered StatusCancellation evs = [].
Proof.
  destruct 1; cbn;
    repeat match goal with H : Status _ = _ |- _ => rewrite H end; done.
Qed.

Lemma transition_once p sql g ps ss es evs e :
  transition p sql g ps ss es evs e ->
  Forall (fun x => x.1 = p) (writes evs) /\
  (List.length (writes evs) <= 2)%nat /\ (List.length (actions evs) <= 1)%nat.
Proof.
  destruct 1; cbn; (split; [repeat constructor|lia]).
Qed.

Lemma transition_work p sql g ps ss es evs e :
  transition p sql g ps ss es evs e -> forallb is_work evs = true.
Proof. by destruct 1. Qed.

Lemma guarded_work evs rest :
  forallb is_work evs = true -> guarded true (evs ++ rest) = guarded true rest.
Proof.
  induction evs as [|ev evs IH]; [done|].
  cbn. intros [Hev Hevs]%andb_prop. destruct ev; try done; cbn; auto.
Qed.

Lemma holding_work held evs rest :
  forallb is_work evs = true -> holding held (evs ++ rest) = holding held rest.
Proof.
  induction evs as [|ev evs IH]; [done|].
  cbn. intros [Hev Hevs]%andb_prop. destruct ev; try done; cbn; auto.
Qed.

Lemma entered_app status evs1 evs2 :
  entered status (evs1 ++ evs2) = entered status evs1 ++ entered status evs2.
Proof.
  induction evs1 as [|ev evs1 IH]; [done|].
  destruct ev; cbn; try done.
  destruct (String.eqb _ _); cbn; by rewrite IH.
Qed.

Lemma writes_app (evs1 evs2 : list Event) :
  writes (evs1 ++ evs2) = writes evs1 ++ writes evs2.
Proof.
  induction evs1 as [|ev evs1 IH]; [done|].
  destruct ev; cbn; by rewrite ?IH.
Qed.

(** ** Machine integers and indexing *)

Lemma wrap_int_small (z : Z) : int_min <= z <= int_max -> wrap_int z = z.
Proof.
  unfold wrap_int, int_min, int_max. intros Hz.
  rewrite Z.mod_small; lia.
Qed.

Lemma wrap_int_le (z : Z) : wrap_int z <= int_max.
Proof.
  unfold wrap_int, int_max.
  pose proof (Z.mod_pos_bound (z + 2 ^ 63) (2 ^ 64)). lia.
Qed.

Lemma int_sub_one_lt (n : Z) : 0 <= n -> int_sub n 1 < n.
Proof.
  intros Hn. unfold int_sub.
  destruct (Z_le_gt_dec (n - 1) int_max) as [Hle|Hgt].
  - rewrite wrap_int_small; [lia|]. unfold int_min. lia.
  - pose proof (wrap_int_le (n - 1)). lia.
Qed.

(** The migration of version [V] is at index [V - 1]. *)
Lemma elem_version (m : Migrator) (V : Z) :
  1 <= V <= len m -> len m <= int_max ->
  elem m (int_sub V 1) = migrations m !! Z.to_nat (V - 1) /\
  is_Some (migrations m !! Z.to_nat (V - 1)).
Proof.
  intros HV Hlen. unfold int_sub. rewrite wrap_int_small.
  2:{ unfold int_min. lia. }
  unfold elem.
  destruct (Z.ltb_spec (V - 1) 0); [lia|].
  destruct (Z.leb_spec (len m) (V - 1)); [lia|].
  split; [done|]. apply lookup_lt_is_Some. unfold len in *. lia.
Qed.

(** ** The engine over an arbitrary store *)
Section Generic.

Variable S : SQLStorage.
Variable goFuncs : GoFunc -> Call (St S) (option error).

Ltac run_call :=
  match goal with
  | |- context [InsertMigration S ?p ?h ?s] =>
      let e := fresh "e" in
      destruct (InsertMigration S p h s) as [[? ?] e]; destruct e
  | |- context [goFuncs ?f ?h ?s] =>
      let e := fresh "e" in
      destruct (goFuncs f h s) as [[? ?] e]; destruct e
  | |- context [Migrate S ?q ?h ?s] =>
      let e := fresh "e" in
      destruct (Migrate S q h s) as [[? ?] e]; destruct e
  end; cbn.

Lemma executeMigration_log p sql goFunc ps ss es (w : World (St S)) :
  exists evs e,
    snd (executeMigration S goFuncs p sql goFunc ps ss es w) = Ret e /\
    trace (fst (executeMigration S goFuncs p sql goFunc ps ss es w)) = trace w ++ evs /\
    transition p sql goFunc ps ss es evs e.
Proof.
  unfold executeMigration, bind, update, time_Now, storage_InsertMigration,
    storage_Migrate, callGo, invoke, ret. cbn.
  run_call.
  { eexists _, _. split; [done|]. split; [done|].
    apply tr_refused. by rewrite !load_poke. }
  destruct goFunc as [f|]; cbn.
  - run_call; run_call; (eexists _, _; split; [done|]; split;
      [by rewrite <- !app_assoc|]).
    all: try (eapply tr_go_failed; [done|by rewrite !load_poke..]).
    all: try (eapply tr_go_done; [done|by rewrite !load_poke..]).
  - destruct (String.eqb_spec sql "") as [->|Hsql]; cbn.
    + run_call; (eexists _, _; split; [done|]; split;
        [by rewrite <- !app_assoc|]);
      (eapply tr_no_action; [done|done|by rewrite !load_poke..]).
    + run_call; run_call; (eexists _, _; split; [done|]; split;
        [by rewrite <- !app_assoc|]).
      all: try (eapply tr_sql_failed; [done|done|by rewrite !load_poke..]).
      all: try (eapply tr_sql_done; [done|done|by rewrite !load_poke..]).
Qed.

(** Two writes through one pointer are one write. *)
Lemma poke_poke (h : Heap) (p : ptr) (f g : Migration -> Migration) :
  poke (poke h p f) p g = poke h p (fun r => g (f r)).
Proof.
  unfold poke at 1. rewrite load_poke. unfold poke. by rewrite insert_insert_eq.
Qed.

Lemma performed_eq p sql goFunc ps ss es (w w1 w2 : World (St S)) e :
  performed S goFuncs p sql goFunc ps ss es w w1 e -> w1 = w2 ->
  performed S goFuncs p sql goFunc ps ss es w w2 e.
Proof. by intros H <-. Qed.

(** [executeMigration] performs one transition, whatever the store
    answers. *)
Lemma executeMigration_performed p sql goFunc ps ss es (w : World (St S)) :
  exists w' e,
    executeMigration S goFuncs p sql goFunc ps ss es w = (w', Ret e) /\
    performed S goFuncs p sql goFunc ps ss es w w' e.
Proof.
  unfold executeMigration, bind, update, time_Now, storage_InsertMigration,
    storage_Migrate, callGo, invoke, ret. cbn.
  rewrite !poke_poke, !load_poke. fold (stamp ps (clock w)).
  destruct (InsertMigration S p (poke (heap w) p (stamp ps (clock w))) (store w))
    as [[h1 s1] [e1|]] eqn:H1; cbn.
  { eexists _, _. split; [reflexivity|]. by apply pf_refused. }
  assert (forall acts a h2 s2,
    acted S goFuncs sql goFunc h1 s1 acts a h2 s2 ->
    forall h3 s3 e,
      InsertMigration S p (poke h2 p (stamp (terminal a ss es) (clock w + 1))) s2
      = (h3, s3, e) ->
      performed S goFuncs p sql goFunc ps ss es w
        (mkWorld h3 s3 (clock w + 1 + 1)
           (((trace w ++ [EInsert p (stamp ps (clock w) (load (heap w) p)) None])
             ++ acts)
            ++ [EInsert p (stamp (terminal a ss es) (clock w + 1) (load h2 p)) e]))
        e) as Hdone.
  { intros acts a h2 s2 Hact h3 s3 e H3.
    eapply performed_eq; [by eapply pf_written|].
    f_equal; [lia|]. by rewrite <- !app_assoc. }
  destruct goFunc as [f|]; cbn.
  - destruct (goFuncs f h1 s1) as [[h2 s2] a] eqn:H2; cbn.
    destruct a as [e2|]; cbn; rewrite !poke_poke, !load_poke;
      match goal with
      | |- context [InsertMigration S p ?h ?s] =>
          destruct (InsertMigration S p h s) as [[h3 s3] e3] eqn:H3
      end; cbn; (eexists _, _; split; [by destruct e3|]).
    + eapply (Hdone [EGoFunc f (Some e2)] (Some e2)); [by eapply act_go|exact H3].
    + destruct e3; eapply (Hdone [EGoFunc f None] None); by (eapply act_go || exact H3).
  - destruct (String.eqb_spec sql "") as [Hsql|Hsql]; cbn.
    + rewrite !poke_poke, !load_poke.
      match goal with
      | |- context [InsertMigration S p ?h ?s] =>
          destruct (InsertMigration S p h s) as [[h3 s3] e3] eqn:H3
      end; cbn; (eexists _, _; split; [by destruct e3|]).
      destruct e3; eapply performed_eq;
        try (eapply (Hdone [] None); [by eapply act_none|exact H3]);
        by rewrite app_nil_r.
    + destruct (Migrate S sql h1 s1) as [[h2 s2] a] eqn:H2; cbn.
      destruct a as [e2|]; cbn; rewrite !poke_poke, !load_poke;
        match goal with
        | |- context [InsertMigration S p ?h ?s] =>
            destruct (InsertMigration S p h s) as [[h3 s3] e3] eqn:H3
        end; cbn; (eexists _, _; split; [by destruct e3|]).
      * eapply (Hdone [EMigrate sql (Some e2)] (Some e2)); [by eapply act_sql|exact H3].
      * destruct e3; eapply (Hdone [EMigrate sql None] None);
          by (eapply act_sql || exact H3).
Qed.

(** What a transition leaves in the log. *)
Lemma performed_transition p sql goFunc ps ss es (w w' : World (St S)) e :
  performed S goFuncs p sql goFunc ps ss es w w' e ->
  exists evs,
    trace w' = trace w ++ evs /\ transition p sql goFunc ps ss es evs e.
Proof.
  destruct 1 as [h1 s1 e H1|h1 s1 acts a h2 s2 h3 s3 e H1 Hact H3].
  - eexists. split; [reflexivity|]. by apply tr_refused.
  - eexists. split; [reflexivity|].
    destruct Hact as [f h' s' a Hg Hf|h' s' a Hg Hsql Hm|Hg Hsql]; cbn.
    + destruct a; [by eapply tr_go_failed|by eapply tr_go_done].
    + destruct a; [by eapply tr_sql_failed|by eapply tr_sql_done].
    + by eapply tr_no_action.
Qed.

Arguments executeMigration : simpl never.

(** What [Down] does once it holds the lock and the store has answered
    the query for the last successful migration with [r]. *)
Lemma Down_cases (m : Migrator) (w : World (St S)) h1 s1 h2 s2 r :
  Lock S (heap w) (store w) = (h1, s1, None) ->
  SelectLastMigrationByStatus S StatusSuccess h1 s1 = (h2, s2, r) ->
  exists evs u,
    trace (fst (Down S goFuncs m w))
    = trace w ++ [ELock None; ESelectLast StatusSuccess r] ++ evs ++ [EUnlock u] /\
    match snd r, fst r with
    | Some e, _ =>
        evs = [] /\
        snd (Down S goFuncs m w)
        = Ret (if Is_ErrMigrationNotFound e then None else Some e)
    | None, None =>
        evs = [] /\ snd (Down S goFuncs m w) = Panic "nil pointer dereference"
    | None, Some last =>
        if len m <? Version last
        then evs = [] /\
             snd (Down S goFuncs m w) = Ret (Some ErrUnexpectedMigrationVersion)
        else match elem m (int_sub (Version last) 1) with
             | None =>
                 evs = [] /\ snd (Down S goFuncs m w) = Panic "index out of range"
             | Some p =>
                 exists e,
                   transition p (storage.Down (load h2 p)) (DownGo (load h2 p))
                              StatusCancellation StatusCancel StatusError evs e /\
                   snd (Down S goFuncs m w)
                   = Ret (match e with Some _ => Some ErrMigrationDown | None => None end)
             end
    end.
Proof.
  intros HL HS.
  unfold Down, bind, defer, storage_Lock, storage_Unlock,
    storage_SelectLastMigrationByStatus, invoke, ret, panic.
  rewrite HL. cbn. rewrite HS. cbn.
  destruct r as [[last|] [e|]]; cbn.
  - destruct (Is_ErrMigrationNotFound e); cbn;
      destruct (Unlock S h2 s2) as [[? ?] u]; cbn;
      exists [], u; by rewrite <- !app_assoc.
  - destruct (len m <? Version last) eqn:Hlt; cbn.
    { destruct (Unlock S h2 s2) as [[? ?] u]; cbn.
      exists [], u. by rewrite <- !app_assoc. }
    unfold index. destruct (elem m (int_sub (Version last) 1)) as [p|]; cbn.
    2:{ destruct (Unlock S h2 s2) as [[? ?] u]; cbn.
        exists [], u. by rewrite <- !app_assoc. }
    unfold downMigration.
    match goal with
    | |- context [executeMigration S goFuncs ?p ?q ?g ?a ?b ?c ?w0] =>
        destruct (executeMigration_log p q g a b c w0) as (evs & e & Hr & Ht & Htr);
        destruct (executeMigration S goFuncs p q g a b c w0) as [w3 res]
    end.
    cbn in Hr, Ht. subst res. cbn.
    destruct e as [e|]; cbn;
      destruct (Unlock S (heap w3) (store w3)) as [[? ?] u]; cbn;
      exists evs, u; (split; [rewrite Ht; by rewrite <- !app_assoc|]);
      eexists; (split; [exact Htr|done]).
  - destruct (Is_ErrMigrationNotFound e); cbn;
      destruct (Unlock S h2 s2) as [[? ?] u]; cbn;
      exists [], u; by rewrite <- !app_assoc.
  - destruct (Unlock S h2 s2) as [[? ?] u]; cbn.
    exists [], u. by rewrite <- !app_assoc.
Qed.

(** [Down] when the store names a last successful migration and the
    registry has one at the index of its version: between the query and
    the unlock it performs one down transition, on that migration. *)
Lemma Down_performs (m : Migrator) (w : World (St S)) h1 s1 h2 s2 last p :
  Lock S (heap w) (store w) = (h1, s1, None) ->
  SelectLastMigrationByStatus S StatusSuccess h1 s1 = (h2, s2, (Some last, None)) ->
  (len m <? Version last) = false ->
  elem m (int_sub (Version last) 1) = Some p ->
  exists w3 e h4 s4 u,
    performed S goFuncs p (storage.Down (load h2 p)) (DownGo (load h2 p))
      StatusCancellation StatusCancel StatusError
      (mkWorld h2 s2 (clock w)
         (trace w ++ [ELock None; ESelectLast StatusSuccess (Some last, None)]))
      w3 e /\
    Unlock S (heap w3) (store w3) = (h4, s4, u) /\
    Down S goFuncs m w
    = (mkWorld h4 s4 (clock w3) (trace w3 ++ [EUnlock u]),
       Ret (match e with Some _ => Some ErrMigrationDown | None => None end)).
Proof.
  intros HL HS Hlt Hel.
  unfold Down, bind, defer, storage_Lock, storage_Unlock,
    storage_SelectLastMigrationByStatus, invoke, ret, panic.
  rewrite HL. cbn. rewrite HS. cbn. rewrite Hlt.
  unfold index. rewrite Hel. cbn. unfold downMigration.
  rewrite <- app_assoc. cbn [app].
  match goal with
  | |- context [executeMigration S goFuncs ?p ?q ?g ?a ?b ?c ?w0] =>
      destruct (executeMigration_performed p q g a b c w0) as (w3 & e & Hrun & Hperf)
  end.
  rewrite Hrun.
  destruct (Unlock S (heap w3) (store w3)) as [[h4 s4] u] eqn:HU.
  exists w3, e, h4, s4, u. split; [exact Hperf|]. split; [exact HU|].
  destruct e; cbn; by rewrite HU.
Qed.

(** [Down] when the store knows of no successful migration. *)
Lemma Down_noop (m : Migrator) (w : World (St S)) h1 s1 h2 s2 r e h3 s3 u :
  Lock S (heap w) (store w) = (h1, s1, None) ->
  SelectLastMigrationByStatus S StatusSuccess h1 s1 = (h2, s2, (r, Some e)) ->
  Is_ErrMigrationNotFound e = true ->
  Unlock S h2 s2 = (h3, s3, u) ->
  Down S goFuncs m w
  = (mkWorld h3 s3 (clock w)
       (trace w ++ [ELock None; ESelectLast StatusSuccess (r, Some e); EUnlock u]),
     Ret None).
Proof.
  intros HL HS He HU.
  unfold Down, bind, defer, storage_Lock, storage_Unlock,
    storage_SelectLastMigrationByStatus, invoke, ret.
  rewrite HL. cbn. rewrite HS. cbn. rewrite He. cbn. rewrite HU.
  by rewrite <- !app_assoc.
Qed.

(** The drift check of [Down] fires from one past the end. *)
Lemma Down_version_mismatch (m : Migrator) (w : World (St S)) h1 s1 h2 s2 last :
  Lock S (heap w) (store w) = (h1, s1, None) ->
  SelectLastMigrationByStatus S StatusSuccess h1 s1 = (h2, s2, (Some last, None)) ->
  len m < Version last ->
  snd (Down S goFuncs m w) = Ret (Some ErrUnexpectedMigrationVersion) /\
  exists u,
    trace (fst (Down S goFuncs m w))
    = trace w ++ [ELock None; ESelectLast StatusSuccess (Some last, None); EUnlock u].
Proof.
  intros HL HS HV.
  destruct (Down_cases m w h1 s1 h2 s2 _ HL HS) as (evs & u & Ht & Hc).
  cbn in Hc. destruct (Z.ltb_spec (len m) (Version last)); [|lia].
  destruct Hc as [-> Hr]. split; [done|]. by exists u.
Qed.

(** So does [Down]. *)
Lemma Down_holds_lock (m : Migrator) (w : World (St S)) :
  exists evs,
    trace (fst (Down S goFuncs m w)) = trace w ++ evs /\
    guarded false evs = true /\ holding false evs = false.
Proof.
  destruct (Lock S (heap w) (store w)) as [[h1 s1] [e|]] eqn:HL.
  { unfold Down, bind at 1, storage_Lock, invoke. rewrite HL. cbn.
    by exists [ELock (Some e)]. }
  destruct (SelectLastMigrationByStatus S StatusSuccess h1 s1) as [[h2 s2] r] eqn:HS.
  destruct (Down_cases m w h1 s1 h2 s2 r HL HS) as (evs & u & Ht & Hcases).
  exists ([ELock None; ESelectLast StatusSuccess r] ++ evs ++ [EUnlock u]).
  split; [done|].
  assert (forallb is_work evs = true) as Hw.
  { destruct r as [[last|] [e|]]; cbn in Hcases.
    - by destruct Hcases as [-> _].
    - destruct (len m <? Version last); [by destruct Hcases as [-> _]|].
      destruct (elem m (int_sub (Version last) 1)).
      + destruct Hcases as (e & Htr & _). by eapply transition_work.
      + by destruct Hcases as [-> _].
    - by destruct Hcases as [-> _].
    - by destruct Hcases as [-> _]. }
  cbn. rewrite guarded_work, holding_work by done. done.
Qed.

(** One turn of the loop of [Up]. *)
Lemma up_loop_step (m : Migrator) (n : nat) (i : Z) (w : World (St S)) :
  up_loop S goFuncs m i (Datatypes.S n) w
  = match elem m i with
    | None => (w, Panic "index out of range")
    | Some p =>
        let (w3, res) :=
          upMigration S goFuncs p (storage.Up (load (heap w) p))
                      (UpGo (load (heap w) p)) w in
        match res with
        | Ret (Some _) => (w3, Ret (Some ErrMigrationUp))
        | Ret None => up_loop S goFuncs m (i + 1) n w3
        | Panic msg => (w3, Panic msg)
        end
    end.
Proof.
  cbn. unfold bind, index, deref. destruct (elem m i) as [p|]; [|done]. cbn.
  by destruct (upMigration S goFuncs p _ _ w) as [w3 [[e|]|msg]].
Qed.

(** The loop of [Up] only queries, writes and runs actions. *)
Lemma up_loop_log (m : Migrator) (n : nat) : forall (i : Z) (w : World (St S)),
  exists evs,
    trace (fst (up_loop S goFuncs m i n w)) = trace w ++ evs /\
    forallb is_work evs = true.
Proof.
  induction n as [|n IH]; intros i w.
  { exists []. by rewrite app_nil_r. }
  rewrite up_loop_step. destruct (elem m i) as [p|].
  2:{ exists []. by rewrite app_nil_r. }
  unfold upMigration.
  match goal with
  | |- context [executeMigration S goFuncs ?p ?q ?g ?a ?b ?c ?w0] =>
      destruct (executeMigration_log p q g a b c w0) as (evs & e & Hr & Ht & Htr);
      destruct (executeMigration S goFuncs p q g a b c w0) as [w3 res]
  end.
  cbn in Hr, Ht. subst res. apply transition_work in Htr.
  destruct e as [e|]; cbn.
  - by exists evs.
  - destruct (IH (i + 1) w3) as (evs' & Ht' & Hw').
    exists (evs ++ evs'). split.
    + by rewrite Ht', Ht, <- app_assoc.
    + rewrite forallb_app. by rewrite Htr, Hw'.
Qed.

(** The loop of [Up] enters the migrations from index [i] on, one after
    the other in the order of the registry; when it returns nil it has
    entered every one of them. *)
Lemma up_loop_order (m : Migrator) (n : nat) : forall (i : Z) (w : World (St S)),
  0 <= i ->
  (Z.to_nat i + n)%nat = List.length (migrations m) ->
  exists evs k,
    trace (fst (up_loop S goFuncs m i n w)) = trace w ++ evs /\
    (k <= n)%nat /\
    entered StatusProcess evs = take k (drop (Z.to_nat i) (migrations m)) /\
    (snd (up_loop S goFuncs m i n w) = Ret None -> k = n).
Proof.
  induction n as [|n IH]; intros i w Hi Hn.
  { exists [], 0%nat. by rewrite app_nil_r. }
  assert (is_Some (migrations m !! Z.to_nat i)) as [p Hp]
    by (apply lookup_lt_is_Some; lia).
  assert (elem m i = Some p) as Hel.
  { unfold elem, len.
    destruct (Z.ltb_spec i 0); [lia|].
    destruct (Z.leb_spec (Z.of_nat (List.length (migrations m))) i); [lia|done]. }
  rewrite up_loop_step, Hel. unfold upMigration.
  match goal with
  | |- context [executeMigration S goFuncs ?p ?q ?g ?a ?b ?c ?w0] =>
      destruct (executeMigration_log p q g a b c w0) as (evs & e & Hr & Ht & Htr);
      destruct (executeMigration S goFuncs p q g a b c w0) as [w3 res]
  end.
  cbn in Hr, Ht. subst res.
  destruct (transition_up_entered _ _ _ _ _ Htr) as [Hent _].
  rewrite (drop_S _ _ _ Hp).
  destruct e as [e|]; cbn.
  - exists evs, 1%nat. split; [done|]. split; [lia|]. split; [|done].
    by rewrite Hent.
  - destruct (IH (i + 1) w3) as (evs' & k & Ht' & Hk & Hent' & Hall); [lia|lia|].
    exists (evs ++ evs'), (Datatypes.S k). split.
    { by rewrite Ht', Ht, <- app_assoc. }
    split; [lia|]. split.
    + rewrite entered_app, Hent, Hent'. cbn.
      by replace (Z.to_nat (i + 1)) with (Datatypes.S (Z.to_nat i)) by lia.
    + intros Hr. by rewrite (Hall Hr).
Qed.

(** [Up] takes the lock first, runs everything else while holding it and
    gives it back on every way out. *)
Lemma Up_holds_lock (m : Migrator) (w : World (St S)) :
  exists evs,
    trace (fst (Up S goFuncs m w)) = trace w ++ evs /\
    guarded false evs = true /\ holding false evs = false.
Proof.
  unfold Up, bind, defer, storage_Lock, storage_Unlock,
    storage_SelectLastMigrationByStatus, invoke, lift, ret.
  destruct (Lock S (heap w) (store w)) as [[h1 s1] [e|]]; cbn.
  { by exists [ELock (Some e)]. }
  destruct (SelectLastMigrationByStatus S StatusSuccess h1 s1) as [[h2 s2] r]; cbn.
  destruct (lastVersionOf r) as [[lv|e]|msg]; cbn.
  - destruct (versionBeyond m r.1); cbn.
    + destruct (Unlock S h2 s2) as [[? ?] u]; cbn.
      exists [ELock None; ESelectLast StatusSuccess r; EUnlock u].
      by rewrite <- !app_assoc.
    + match goal with
      | |- context [up_loop S goFuncs m ?i ?n ?w0] =>
          destruct (up_loop_log m n i w0) as (evs & Ht & Hw);
          destruct (up_loop S goFuncs m i n w0) as [w3 res]
      end.
      cbn in Ht.
      destruct (Unlock S (heap w3) (store w3)) as [[? ?] u]; cbn.
      exists (ELock None :: ESelectLast StatusSuccess r :: evs ++ [EUnlock u]).
      split; [rewrite Ht; by rewrite <- !app_assoc|]. cbn.
      rewrite guarded_work, holding_work by done. done.
  - destruct (Unlock S h2 s2) as [[? ?] u]; cbn.
    exists [ELock None; ESelectLast StatusSuccess r; EUnlock u].
    by rewrite <- !app_assoc.
  - destruct (Unlock S h2 s2) as [[? ?] u]; cbn.
    exists [ELock None; ESelectLast StatusSuccess r; EUnlock u].
    by rewrite <- !app_assoc.
Qed.

(** [Up] enters the migrations after the last successful version [L] in
    ascending order and stops at the first it gives up on; it returns nil
    only when it has entered all of them. *)
Lemma Up_applies_in_order (m : Migrator) (w : World (St S)) h1 s1 h2 s2 r L :
  Lock S (heap w) (store w) = (h1, s1, None) ->
  SelectLastMigrationByStatus S StatusSuccess h1 s1 = (h2, s2, r) ->
  lastVersionOf r = Ret (inl L) ->
  versionBeyond m (fst r) = false ->
  0 <= L <= len m ->
  exists evs k u,
    trace (fst (Up S goFuncs m w))
    = trace w ++ [ELock None; ESelectLast StatusSuccess r] ++ evs ++ [EUnlock u] /\
    entered StatusProcess evs = take k (drop (Z.to_nat L) (migrations m)) /\
    (snd (Up S goFuncs m w) = Ret None -> k = Z.to_nat (len m - L)).
Proof.
  intros HL HS HLv Hb HLen.
  unfold Up, bind, defer, storage_Lock, storage_Unlock,
    storage_SelectLastMigrationByStatus, invoke, lift, ret.
  rewrite HL. cbn. rewrite HS. cbn. rewrite HLv, Hb.
  match goal with
  | |- context [up_loop S goFuncs m ?i ?n ?w0] =>
      destruct (up_loop_order m n i w0) as (evs & k & Ht & Hk & Hent & Hall);
        [lia|unfold len in *; lia|];
      destruct (up_loop S goFuncs m i n w0) as [w3 res]
  end.
  cbn in Ht, Hall |- *.
  destruct (Unlock S (heap w3) (store w3)) as [[? ?] u]. cbn.
  exists evs, k, u. split; [|by split].
  rewrite Ht. by repeat (rewrite <- app_assoc; cbn).
Qed.

(** [Up] when the store reports a last successful version at or past the
    end of the registry, within the tolerance of the drift check. *)
Lemma Up_nothing_to_do (m : Migrator) (w : World (St S)) h1 s1 h2 s2 last h3 s3 u :
  Lock S (heap w) (store w) = (h1, s1, None) ->
  SelectLastMigrationByStatus S StatusSuccess h1 s1 = (h2, s2, (Some last, None)) ->
  Unlock S h2 s2 = (h3, s3, u) ->
  len m <= Version last ->
  versionBeyond m (Some last) = false ->
  Up S goFuncs m w
  = (mkWorld h3 s3 (clock w)
       (trace w ++ [ELock None; ESelectLast StatusSuccess (Some last, None); EUnlock u]),
     Ret None).
Proof.
  intros HL HS HU Hlen Hb.
  unfold Up, bind, defer, storage_Lock, storage_Unlock,
    storage_SelectLastMigrationByStatus, invoke, lift.
  rewrite HL. cbn. rewrite HS. cbn. cbn in Hb. rewrite Hb.
  replace (Z.to_nat (len m - Version last)) with 0%nat by lia.
  cbn. rewrite HU. by rewrite <- !app_assoc.
Qed.

(** The drift check of [Up] fires from two past the end of the registry. *)
Lemma Up_version_mismatch (m : Migrator) (w : World (St S)) h1 s1 h2 s2 last :
  Lock S (heap w) (store w) = (h1, s1, None) ->
  SelectLastMigrationByStatus S StatusSuccess h1 s1 = (h2, s2, (Some last, None)) ->
  len m + 1 < Version last <= int_max ->
  snd (Up S goFuncs m w) = Ret (Some ErrUnexpectedMigrationVersion) /\
  exists u,
    trace (fst (Up S goFuncs m w))
    = trace w ++ [ELock None; ESelectLast StatusSuccess (Some last, None); EUnlock u].
Proof.
  intros HL HS HV.
  unfold Up, bind, defer, storage_Lock, storage_Unlock,
    storage_SelectLastMigrationByStatus, invoke, lift, ret.
  rewrite HL. cbn. rewrite HS. cbn.
  unfold int_sub. rewrite wrap_int_small.
  2:{ unfold int_min. unfold len in HV. lia. }
  destruct (Z.ltb_spec (len m) (Version last - 1)); [|lia]. cbn.
  destruct (Unlock S h2 s2) as [[? ?] u]. cbn.
  split; [done|]. exists u. by rewrite <- !app_assoc.
Qed.

(** The second half of [Redo], after a [Down] that returned nil. *)
Lemma Redo_after_Down (m : Migrator) (w w1 : World (St S)) h2 s2 r L :
  Down S goFuncs m w = (w1, Ret None) ->
  SelectLastMigrationByStatus S StatusSuccess (heap w1) (store w1) = (h2, s2, r) ->
  lastVersionOf r = Ret (inl L) ->
  versionBeyond m (fst r) = false ->
  Redo S goFuncs m w
  = let w2 := mkWorld h2 s2 (clock w1) (trace w1 ++ [ESelectLast StatusSuccess r]) in
    match elem m L with
    | None => (w2, Panic "index out of range")
    | Some q =>
        let (w3, res) :=
          upMigration S goFuncs q (storage.Up (load h2 q)) (UpGo (load h2 q)) w2 in
        (w3, match res with
             | Ret (Some _) => Ret (Some ErrMigrationRedo)
             | Ret None => Ret None
             | Panic msg => Panic msg
             end)
    end.
Proof.
  intros HD HS HL Hb.
  unfold Redo, bind at 1. rewrite HD.
  unfold bind at 1, storage_SelectLastMigrationByStatus, invoke. rewrite HS.
  unfold bind at 1, lift. rewrite HL, Hb.
  unfold bind at 1, index. destruct (elem m L) as [q|]; [|done].
  unfold ret at 1, bind at 1, deref. cbn -[upMigration].
  unfold bind at 1.
  destruct (upMigration S goFuncs q _ _ _) as [w3 [[e|]|msg]]; done.
Qed.

End Generic.

(** ** The mock store under a history in registry order *)

Lemma same_keys_refl h : same_keys h h.
Proof. by intros x. Qed.

Lemma same_keys_trans h1 h2 h3 :
  same_keys h1 h2 -> same_keys h2 h3 -> same_keys h1 h3.
Proof.
  intros H12 H23 x. destruct (H23 x) as [-> ->]. apply H12.
Qed.

Lemma same_keys_poke h p f :
  (forall r, Version (f r) = Version r /\ Name (f r) = Name r) ->
  same_keys h (poke h p f).
Proof.
  intros Hf x. destruct (decide (p = x)) as [->|Hne].
  - rewrite load_poke. apply Hf.
  - by rewrite load_poke_ne.
Qed.

Lemma overwritten_status h q p :
  Status (load (overwritten h q p) q) = Status (load h p).
Proof.
  unfold overwritten. rewrite !load_poke. by cbn.
Qed.

Lemma overwritten_other h q p x :
  x <> q -> load (overwritten h q p) x = load h x.
Proof.
  intros Hx. unfold overwritten. by rewrite !load_poke_ne.
Qed.

Lemma overwritten_keys h q p :
  Version (load h q) = Version (load h p) ->
  Name (load h q) = Name (load h p) ->
  same_keys h (overwritten h q p).
Proof.
  intros HV HN x. destruct (decide (x = q)) as [->|Hne].
  - unfold overwritten. rewrite !load_poke. cbn.
    destruct (decide (p = q)) as [->|Hpq].
    + rewrite ?load_poke. cbn. rewrite ?load_poke. by cbn.
    + rewrite !(load_poke_ne _ q p) by done. by rewrite HV, HN.
  - by rewrite overwritten_other.
Qed.

Lemma insert_scan_miss h recs p :
  Forall (fun q => Version (load h q) <> Version (load h p)) recs ->
  insert_scan h recs p = None.
Proof.
  induction 1 as [|q recs Hq _ IH]; [done|]. cbn.
  destruct (Z.eqb_spec (Version (load h q)) (Version (load h p))); [done|].
  exact IH.
Qed.

Lemma insert_scan_hit h pre q post p :
  Forall (fun x => Version (load h x) <> Version (load h p)) pre ->
  Version (load h q) = Version (load h p) ->
  Name (load h q) = Name (load h p) ->
  insert_scan h (pre ++ q :: post) p = Some (overwritten h q p).
Proof.
  intros Hpre HV HN. induction Hpre as [|x pre Hx _ IH]; cbn.
  - rewrite HV, HN, Z.eqb_refl, String.eqb_refl. done.
  - destruct (Z.eqb_spec (Version (load h x)) (Version (load h p))); [done|].
    exact IH.
Qed.

Lemma aligned_same_keys m h h' recs :
  same_keys h h' -> aligned m h recs -> aligned m h' recs.
Proof.
  intros Hk [Hlen Hreg Hrec]. split; [done| |].
  - intros i p Hp. destruct (Hk p) as [-> _]. by apply Hreg.
  - intros j q p Hq Hp. destruct (Hk q) as [-> ->], (Hk p) as [-> ->].
    by eapply Hrec.
Qed.

(** The earlier records are of other versions. *)
Lemma aligned_before m h recs i p :
  aligned m h recs -> migrations m !! i = Some p ->
  Forall (fun x => Version (load h x) <> Version (load h p)) (take i recs).
Proof.
  intros [Hlen Hreg Hrec] Hp. apply Forall_lookup. intros j x Hx.
  apply lookup_take_Some in Hx as [Hx Hj].
  assert (is_Some (migrations m !! j)) as [pj Hpj].
  { apply lookup_lt_is_Some. apply lookup_lt_Some in Hx. lia. }
  destruct (Hrec j x pj Hx Hpj) as [-> _].
  rewrite (Hreg j pj Hpj), (Hreg i p Hp). lia.
Qed.

Lemma aligned_enter m h recs p st t :
  aligned m h recs ->
  aligned m (poke (poke h p (SetStatus st)) p (SetStatusChangeTime t)) recs.
Proof.
  apply aligned_same_keys.
  eapply same_keys_trans; by apply same_keys_poke.
Qed.

(** [InsertMigration] of the migration at index [i], on a history that
    has the records before it: the record is updated in place, or added
    as the next one; in both cases it then has the status handed in. *)
Lemma mock_insert_aligned m h s i p :
  aligned m h (storage.migrations s) ->
  migrations m !! i = Some p ->
  (i <= List.length (storage.migrations s))%nat ->
  exists h' s',
    Mock_InsertMigration p h s = (h', s', None) /\
    aligned m h' (storage.migrations s') /\
    same_keys h h' /\
    List.length (storage.migrations s') = (List.length (storage.migrations s) `max` Datatypes.S i)%nat /\
    exists q, storage.migrations s' !! i = Some q /\
              Status (load h' q) = Status (load h p).
Proof.
  intros Hal Hp Hi. unfold Mock_InsertMigration.
  pose proof (aligned_before m h _ i p Hal Hp) as Hbefore.
  destruct (storage.migrations s !! i) as [q|] eqn:Hq.
  - destruct (al_rec _ _ _ Hal i q p Hq Hp) as [HV HN].
    replace (insert_scan h (storage.migrations s) p)
      with (insert_scan h (take i (storage.migrations s)
                             ++ q :: drop (Datatypes.S i) (storage.migrations s)) p)
      by (by rewrite take_drop_middle).
    rewrite (insert_scan_hit _ _ _ _ _ Hbefore HV HN).
    exists (overwritten h q p), s. split; [done|].
    pose proof (overwritten_keys h q p HV HN) as Hk.
    split; [by eapply aligned_same_keys|]. split; [done|].
    apply lookup_lt_Some in Hq as Hlt. split; [lia|].
    exists q. split; [done|]. apply overwritten_status.
  - apply lookup_ge_None in Hq.
    rewrite take_ge in Hbefore by lia.
    rewrite (insert_scan_miss _ _ _ Hbefore).
    exists h, {| storage.migrations := storage.migrations s ++ [p] |}.
    split; [done|]. cbn. split; [|split; [apply same_keys_refl|split]].
    + destruct Hal as [Hlen Hreg Hrec]. split.
      * rewrite length_app. cbn. apply lookup_lt_Some in Hp. lia.
      * done.
      * intros j q' p' Hq' Hp'.
        destruct (decide (j < List.length (storage.migrations s))%nat).
        -- rewrite lookup_app_l in Hq' by done. by eapply Hrec.
        -- assert (j = i) as -> .
           { apply lookup_lt_Some in Hq'. rewrite length_app in Hq'. cbn in Hq'. lia. }
           rewrite lookup_app_r in Hq' by lia.
           replace (i - List.length (storage.migrations s))%nat with 0%nat in Hq' by lia.
           cbn in Hq'. by simplify_eq.
    + rewrite length_app. cbn. lia.
    + exists p. split; [|done].
      rewrite lookup_app_r by lia.
      by replace (i - List.length (storage.migrations s))%nat with 0%nat by lia.
Qed.

Lemma last_with_status_last h recs st q :
  last recs = Some q -> Status (load h q) = st ->
  last_with_status h recs st = Some (load h q).
Proof.
  intros Hlast Hst. apply last_Some in Hlast as [l ->].
  induction l as [|x l IH]; cbn.
  - by rewrite Hst, String.eqb_refl.
  - by rewrite IH.
Qed.

Lemma last_with_status_Some h recs st r :
  last_with_status h recs st = Some r ->
  exists j q, recs !! j = Some q /\ r = load h q.
Proof.
  induction recs as [|x recs IH]; [done|]. cbn.
  destruct (last_with_status h recs st) as [r'|].
  - intros [= <-]. destruct IH as (j & q & Hq & ->); [done|].
    by exists (Datatypes.S j), q.
  - destruct (String.eqb _ _); [|done]. intros [= <-]. by exists 0%nat, x.
Qed.

(** On the mock store, when [DBVersion] reports the size of the registry,
    [Up] returns nil and changes nothing but the log, where it leaves the
    lock, the query and the unlock. *)
Lemma Up_at_registry_size (goFuncs : GoFunc -> Call MockSQLStorage (option error))
      (m : Migrator) (w1 : World MockSQLStorage) :
  snd (DBVersion Mock w1) = Ret (Some (len m), None) ->
  exists evs,
    Up Mock goFuncs m w1
    = (mkWorld (heap w1) (store w1) (clock w1) (trace w1 ++ evs), Ret None) /\
    actions evs = [] /\ writes evs = [].
Proof.
  intros HV.
  unfold DBVersion, bind, storage_SelectLastMigrationByStatus, invoke in HV.
  cbn in HV. unfold Mock_SelectLastMigrationByStatus in HV.
  destruct (last_with_status (heap w1) (storage.migrations (store w1)) StatusSuccess)
    as [last|] eqn:Hlast; cbn in HV; [|done].
  injection HV as HV.
  exists [ELock None; ESelectLast StatusSuccess (Some last, None); EUnlock None].
  split; [|split; [|reflexivity]].
  - apply (Up_nothing_to_do Mock goFuncs m w1
             (heap w1) (store w1) (heap w1) (store w1) last (heap w1) (store w1) None).
    + reflexivity.
    + cbn. unfold Mock_SelectLastMigrationByStatus. by rewrite Hlast.
    + reflexivity.
    + lia.
    + cbn. rewrite HV. apply Z.ltb_ge.
      pose proof (int_sub_one_lt (len m)). unfold len in *. lia.
  - reflexivity.
Qed.

Section MockRun.

Variable goFuncs : GoFunc -> Call MockSQLStorage (option error).
Hypothesis closures_return_nil : forall f h s, goFuncs f h s = (h, s, None).

Arguments Mock_InsertMigration : simpl never.

Ltac insert_step m i Hal Hp Hi h' s' Hal' Hlen' :=
  match goal with
  | |- context [Mock_InsertMigration ?p ?h ?s] =>
      let Heq := fresh "Heq" in
      destruct (mock_insert_aligned m h s i p (aligned_enter _ _ _ _ _ _ Hal) Hp Hi)
        as (h' & s' & Heq & Hal' & _ & Hlen' & ?);
      rewrite Heq; cbn
  end.

(** On the mock store, with closures that return nil, one up transition
    on the migration at index [i] returns nil, keeps the history in
    registry order and leaves the record of that migration, the [i]-th,
    successful. *)
Lemma upMigration_mock m (w : World MockSQLStorage) i p sql goFunc :
  aligned m (heap w) (storage.migrations (store w)) ->
  migrations m !! i = Some p ->
  (i <= List.length (storage.migrations (store w)))%nat ->
  exists w',
    upMigration Mock goFuncs p sql goFunc w = (w', Ret None) /\
    aligned m (heap w') (storage.migrations (store w')) /\
    List.length (storage.migrations (store w'))
    = (List.length (storage.migrations (store w)) `max` Datatypes.S i)%nat /\
    exists q, storage.migrations (store w') !! i = Some q /\
              Status (load (heap w') q) = StatusSuccess.
Proof.
  intros Hal Hp Hi.
  unfold upMigration, executeMigration, bind, update, time_Now,
    storage_InsertMigration, storage_Migrate, callGo, invoke, ret.
  cbn.
  insert_step m i Hal Hp Hi h2 s2 Hal2 Hlen2.
  assert (i <= List.length (storage.migrations s2))%nat as Hi' by lia.
  destruct goFunc as [f|]; [rewrite closures_return_nil|destruct (String.eqb sql "")];
    cbn; insert_step m i Hal2 Hp Hi' h4 s4 Hal4 Hlen4;
    (eexists; split; [reflexivity|]; cbn; split; [done|]; split; [lia|]);
    match goal with
    | H : exists q, _ |- _ =>
        destruct H as (q & Hq & Hst); exists q; split; [done|];
        rewrite Hst, !load_poke; done
    end.
Qed.

(** The loop of [Up] from index [i], on a history in registry order that
    has the records before [i]: it returns nil, and when it has run at
    all the last record of the history is then that of the last
    migration, successful. *)
Lemma up_loop_mock m (n : nat) : forall (i : nat) (w : World MockSQLStorage),
  aligned m (heap w) (storage.migrations (store w)) ->
  (i <= List.length (storage.migrations (store w)))%nat ->
  (i + n)%nat = List.length (migrations m) ->
  exists w',
    up_loop Mock goFuncs m (Z.of_nat i) n w = (w', Ret None) /\
    aligned m (heap w') (storage.migrations (store w')) /\
    (n = 0%nat -> w' = w) /\
    ((0 < n)%nat ->
     exists q, last (storage.migrations (store w')) = Some q /\
               Status (load (heap w') q) = StatusSuccess /\
               Version (load (heap w') q) = len m).
Proof.
  induction n as [|n IH]; intros i w Hal Hi Hn.
  { exists w. split; [done|]. split; [done|]. split; [done|lia]. }
  assert (is_Some (migrations m !! i)) as [p Hp]
    by (apply lookup_lt_is_Some; lia).
  assert (elem m (Z.of_nat i) = Some p) as Hel.
  { unfold elem, len.
    destruct (Z.ltb_spec (Z.of_nat i) 0); [lia|].
    destruct (Z.leb_spec (Z.of_nat (List.length (migrations m))) (Z.of_nat i)); [lia|].
    by rewrite Nat2Z.id. }
  rewrite up_loop_step, Hel.
  destruct (upMigration_mock m w i p (storage.Up (load (heap w) p))
              (UpGo (load (heap w) p)) Hal Hp Hi)
    as (w1 & Hup & Hal1 & Hlen1 & q & Hq & Hst).
  change (St Mock) with MockSQLStorage in *. rewrite Hup.
  replace (Z.of_nat i + 1) with (Z.of_nat (Datatypes.S i)) by lia.
  destruct (IH (Datatypes.S i) w1 Hal1) as (w' & Hrun & Hal' & Hsame & Hlast);
    [lia|lia|].
  exists w'. split; [done|]. split; [done|]. split; [lia|]. intros _.
  destruct n as [|n]; [|apply Hlast; lia].
  rewrite (Hsame eq_refl). exists q. split; [|split; [done|]].
  - rewrite last_lookup.
    pose proof (al_len _ _ _ Hal1).
    by replace (Init.Nat.pred (List.length (storage.migrations (store w1)))) with i by lia.
  - destruct (al_rec _ _ _ Hal1 i q p Hq Hp) as [-> _].
    rewrite (al_reg _ _ _ Hal1 i p Hp). unfold len. lia.
Qed.

(** On a history in registry order, an [Up] that returns nil leaves the
    registry's last version as the last successful one. *)
Lemma Up_mock_reaches_end m (w w1 : World MockSQLStorage) :
  aligned m (heap w) (storage.migrations (store w)) ->
  Up Mock goFuncs m w = (w1, Ret None) ->
  snd (DBVersion Mock w1) = Ret (Some (len m), None).
Proof.
  intros Hal.
  unfold Up, bind, defer, storage_Lock, storage_Unlock,
    storage_SelectLastMigrationByStatus, invoke, lift, ret.
  cbn. unfold Mock_SelectLastMigrationByStatus.
  destruct (last_with_status (heap w) (storage.migrations (store w)) StatusSuccess)
    as [last|] eqn:Hlast; cbn; [|by intros [= _ ?]].
  destruct (last_with_status_Some _ _ _ _ Hlast) as (j & q & Hq & Hlq).
  assert (is_Some (migrations m !! j)) as [pj Hpj].
  { apply lookup_lt_is_Some. apply lookup_lt_Some in Hq.
    pose proof (al_len _ _ _ Hal). lia. }
  assert (Version last = Z.of_nat (Datatypes.S j)) as HV.
  { subst last. destruct (al_rec _ _ _ Hal j q pj Hq Hpj) as [-> _].
    rewrite (al_reg _ _ _ Hal j pj Hpj). lia. }
  destruct (Z.ltb_spec (len m) (int_sub (Version last) 1)) as [Hb|_].
  { pose proof (int_sub_one_lt (Version last)).
    apply lookup_lt_Some in Hpj. unfold len in *. lia. }
  rewrite HV.
  match goal with
  | |- context [up_loop Mock goFuncs m _ ?n ?w0] =>
      destruct (up_loop_mock m n (Datatypes.S j) w0 Hal)
        as (w' & Hrun & Hal' & Hsame & Hlast')
  end.
  { cbn. apply lookup_lt_Some in Hq. lia. }
  { apply lookup_lt_Some in Hpj. unfold len. lia. }
  change (St Mock) with MockSQLStorage in *. rewrite Hrun. cbn.
  intros [= <-].
  unfold DBVersion, bind, storage_SelectLastMigrationByStatus, invoke, ret.
  cbn. unfold Mock_SelectLastMigrationByStatus.
  destruct (Z.to_nat (len m - Z.of_nat (Datatypes.S j))) as [|n] eqn:Hn.
  - rewrite (Hsame eq_refl). cbn. rewrite Hlast. cbn.
    do 3 f_equal. apply lookup_lt_Some in Hpj. unfold len in *. lia.
  - destruct Hlast' as (q' & Hq' & Hst & HVq); [lia|].
    rewrite (last_with_status_last _ _ _ _ Hq' Hst). cbn. by rewrite HVq.
Qed.

End MockRun.

(** ** Fragments and their merge *)

(** What [processMigrationFile] builds has no status and no time yet. *)
Lemma fragment_fresh (filePath : string) (file : app.DirEntry) (a : Migration) :
  fragment filePath file = inl a -> Status a = "" /\ StatusChangeTime a = 0.
Proof.
  unfold fragment, app.processMigrationFile.
  destruct (app.parseFileName _) as [[version name]|]; [|done].
  repeat match goal with
         | |- context [if ?b then _ else _] => destruct b
         | |- context [app.ReadFile ?f] => destruct (app.ReadFile f)
         end; by intros [= <-].
Qed.

(** [mergeMigrations], field by field. *)
Lemma merge_fields (a b : Migration) :
  storage.Up (app.mergeMigrations a b)
  = (if String.eqb (storage.Up b) "" then storage.Up a else storage.Up b) /\
  storage.Down (app.mergeMigrations a b)
  = (if String.eqb (storage.Down b) "" then storage.Down a else storage.Down b) /\
  UpGo (app.mergeMigrations a b)
  = match UpGo b with Some f => Some f | None => UpGo a end /\
  DownGo (app.mergeMigrations a b)
  = match DownGo b with Some f => Some f | None => DownGo a end /\
  Version (app.mergeMigrations a b) = Version a /\
  Name (app.mergeMigrations a b) = Name a /\
  Status (app.mergeMigrations a b) = Status a /\
  StatusChangeTime (app.mergeMigrations a b) = StatusChangeTime a.
Proof.
  unfold app.mergeMigrations.
  destruct (String.eqb (storage.Up b) ""), (String.eqb (storage.Down b) ""),
    (UpGo b), (DownGo b); cbn; by repeat split.
Qed.

Lemma Migration_ext (a b : Migration) :
  Version a = Version b -> Name a = Name b ->
  storage.Up a = storage.Up b -> storage.Down a = storage.Down b ->
  UpGo a = UpGo b -> DownGo a = DownGo b ->
  Status a = Status b -> StatusChangeTime a = StatusChangeTime b ->
  a = b.
Proof. destruct a, b; cbn; congruence. Qed.

(** The two fragments of the counterexample come from directory entries. *)
Lemma up_x_down_y_fragments :
  fragment "migrations" {| app.FileName := "1_x_up.sql"; app.ReadFile := inl "A" |}
  = inl up_x /\
  fragment "migrations" {| app.FileName := "1_y_down.sql"; app.ReadFile := inl "B" |}
  = inl down_y.
Proof. by vm_compute. Qed.

(** ** The repository's test *)

(** After [TestUpDownMigration] the store holds one record, rolled back:
    what the test asserts. *)
Example TestUpDownMigration_passes :
  map (fun r => (Version r, Name r, Status r)) TestUpDownMigration
  = [(1, "create_users", StatusCancel)].
Proof. by vm_compute. Qed.

(** * Files, the mock store and the lock *)

(** ** File names: printing a version and reading it back *)

Section FileNames.

#[local] Arguments String.append !s1 s2 / : simpl nomatch.

Lemma str_app_assoc (a b c : string) : (a +:+ b) +:+ c = a +:+ b +:+ c.
Proof. induction a as [|x a IH]; simpl; [done|by rewrite IH]. Qed.

Lemma str_app_nil_r (a : string) : a +:+ "" = a.
Proof. induction a as [|x a IH]; simpl; [done|by rewrite IH]. Qed.

Lemma str_length_app (a b : string) :
  String.length (a +:+ b) = (String.length a + String.length b)%nat.
Proof. induction a as [|x a IH]; simpl; [done|by rewrite IH]. Qed.

Lemma digit_char_spec (d : Z) :
  0 <= d <= 9 ->
  app.is_digit (app.digit_char d) = true /\
  Z.of_nat (nat_of_ascii (app.digit_char d)) - 48 = d /\
  Ascii.eqb (app.digit_char d) "_"%char = false /\
  Ascii.eqb (app.digit_char d) "010"%char = false.
Proof.
  intros Hd.
  assert (d = 0 \/ d = 1 \/ d = 2 \/ d = 3 \/ d = 4 \/ d = 5 \/ d = 6 \/ d = 7
          \/ d = 8 \/ d = 9) as Hcases by lia.
  repeat destruct Hcases as [->|Hcases]; try subst d; by vm_compute.
Qed.

Lemma digits_value_app (s1 s2 : string) : forall acc,
  app.digits_value acc (s1 +:+ s2) = app.digits_value (app.digits_value acc s1) s2.
Proof. induction s1 as [|c s1 IH]; intros acc; simpl; [done|apply IH]. Qed.

Lemma digits_of_acc (fuel : nat) : forall n acc,
  app.digits_of fuel n acc = app.digits_of fuel n "" +:+ acc.
Proof.
  induction fuel as [|fuel IH]; intros n acc; simpl; [done|].
  destruct (n <? 10); [done|].
  rewrite (IH _ (String _ acc)), (IH _ (String _ "")).
  by rewrite str_app_assoc.
Qed.

Lemma digits_of_value (fuel : nat) : forall n,
  0 <= n < 10 ^ Z.of_nat fuel ->
  app.digits_value 0 (app.digits_of fuel n "") = n.
Proof.
  induction fuel as [|fuel IH]; intros n Hn.
  { cbn in *. lia. }
  cbn [app.digits_of].
  pose proof (Z.mod_pos_bound n 10 eq_refl) as Hmod.
  destruct (digit_char_spec (n mod 10)) as (_ & Hval & _); [lia|].
  destruct (Z.ltb_spec n 10) as [Hlt|Hge].
  - cbn. rewrite Hval. rewrite Z.mod_small; lia.
  - rewrite digits_of_acc, digits_value_app, IH.
    + cbn. rewrite Hval. pose proof (Z.div_mod n 10). lia.
    + split; [apply Z.div_pos; lia|].
      apply Z.div_lt_upper_bound; [lia|].
      rewrite Nat2Z.inj_succ, Z.pow_succ_r in Hn; lia.
Qed.

(** A string of digits only: [FindVersion] takes all of it. *)
Lemma FindVersion_app (a b : string) :
  app.FindVersion a = a -> app.FindVersion b = b ->
  app.FindVersion (a +:+ b) = a +:+ b.
Proof.
  intros Ha Hb. induction a as [|x a IH]; simpl; [done|].
  simpl in Ha. destruct (app.is_digit x); [|done].
  injection Ha as Ha. by rewrite (IH Ha).
Qed.

Lemma FindVersion_stop (a : string) (c : ascii) (rest : string) :
  app.FindVersion a = a -> app.is_digit c = false ->
  app.FindVersion (a +:+ String c rest) = a.
Proof.
  intros Ha Hc. induction a as [|x a IH]; simpl.
  - by rewrite Hc.
  - simpl in Ha. destruct (app.is_digit x); [|done].
    injection Ha as Ha. by rewrite (IH Ha).
Qed.

Lemma FindVersion_digits_of (fuel : nat) : forall n acc,
  0 <= n -> app.FindVersion acc = acc ->
  app.FindVersion (app.digits_of fuel n acc) = app.digits_of fuel n acc.
Proof.
  induction fuel as [|fuel IH]; intros n acc Hn Hacc; simpl; [done|].
  pose proof (Z.mod_pos_bound n 10 eq_refl) as Hmod.
  destruct (digit_char_spec (n mod 10)) as (Hd & _); [lia|].
  assert (app.FindVersion (String (app.digit_char (n mod 10)) acc)
          = String (app.digit_char (n mod 10)) acc) as Hacc'.
  { simpl. by rewrite Hd, Hacc. }
  destruct (n <? 10); [done|].
  apply IH; [apply Z.div_pos; lia|done].
Qed.

Lemma FindVersion_zeros (k : nat) : app.FindVersion (app.zeros k) = app.zeros k.
Proof. induction k as [|k IH]; simpl; [done|by rewrite IH]. Qed.

Lemma digits_value_zeros (k : nat) : app.digits_value 0 (app.zeros k) = 0.
Proof. induction k as [|k IH]; simpl; [done|exact IH]. Qed.

Lemma digits_of_nonempty (fuel : nat) (n : Z) :
  app.digits_of (Datatypes.S fuel) n "" <> "".
Proof.
  simpl. destruct (n <? 10); [done|].
  rewrite digits_of_acc. by destruct (app.digits_of fuel (n / 10) "").
Qed.

(** What [%05d] prints for a version that is not negative: digits only,
    at least one, and [Atoi] reads the version back. *)
Lemma Sprintf_05d_digits (v : Z) :
  0 <= v <= int_max ->
  app.FindVersion (app.Sprintf_05d v) = app.Sprintf_05d v /\
  app.Sprintf_05d v <> "" /\
  app.Atoi (app.Sprintf_05d v) = inl v.
Proof.
  intros Hv. unfold app.Sprintf_05d, app.Itoa.
  destruct (Z.ltb_spec v 0); [lia|].
  split; [|split].
  - apply FindVersion_app; [apply FindVersion_zeros|].
    by apply FindVersion_digits_of.
  - pose proof (digits_of_nonempty 18 v) as Hne.
    destruct (app.zeros _); [done|done].
  - unfold app.Atoi. rewrite digits_value_app, digits_value_zeros, digits_of_value.
    + destruct (Z.ltb_spec int_max v); [lia|done].
    + unfold int_max in Hv. lia.
Qed.

(** [strings.Split] and [strings.Join] on the separator. *)
Lemma Split_nonempty (s : string) : app.Split s <> [].
Proof.
  destruct s as [|c s]; simpl; [done|].
  destruct (Ascii.eqb c "_"); [done|]. by destruct (app.Split s).
Qed.

Lemma Split_app_sep (a b : string) :
  app.Split (a +:+ String "_" b) = app.Split a ++ app.Split b.
Proof.
  induction a as [|c a IH]; simpl; [done|].
  destruct (Ascii.eqb c "_"); [by rewrite IH|].
  rewrite IH. pose proof (Split_nonempty a). by destruct (app.Split a).
Qed.

Lemma Join_Split (s : string) : app.Join (app.Split s) = s.
Proof.
  unfold app.Join. induction s as [|c s IH]; simpl; [done|].
  destruct (Ascii.eqb_spec c "_") as [->|Hc].
  - pose proof (Split_nonempty s).
    destruct (app.Split s) as [|p ps] eqn:Hs; [done|].
    simpl. simpl in IH. by rewrite IH.
  - pose proof (Split_nonempty s).
    destruct (app.Split s) as [|p ps] eqn:Hs; [done|].
    simpl. simpl in IH. destruct ps; simpl in *; by rewrite <- IH.
Qed.

Lemma is_digit_plain (x : ascii) :
  app.is_digit x = true ->
  Ascii.eqb x "_" = false /\ Ascii.eqb x "010" = false.
Proof.
  intros Hx. split.
  - destruct (Ascii.eqb_spec x "_") as [->|]; [done|done].
  - destruct (Ascii.eqb_spec x "010") as [->|]; [done|done].
Qed.

Lemma digits_plain (a : string) :
  app.FindVersion a = a -> app.Split a = [a] /\ app.no_newline a = true.
Proof.
  induction a as [|x a IH]; simpl; [done|].
  destruct (app.is_digit x) eqn:Hx; [|done].
  intros [= Ha]. destruct (is_digit_plain x Hx) as [-> ->].
  destruct (IH Ha) as [-> ->]. done.
Qed.

Lemma no_newline_app (a b : string) :
  app.no_newline (a +:+ b) = app.no_newline a && app.no_newline b.
Proof.
  induction a as [|x a IH]; simpl; [done|].
  rewrite IH. by destruct (Ascii.eqb x "010").
Qed.

(** Substrings of a concatenation. *)
Lemma substring_app_l (a b : string) :
  String.substring 0 (String.length a) (a +:+ b) = a.
Proof. induction a as [|x a IH]; simpl; [by destruct b|by rewrite IH]. Qed.

Lemma substring_app_r (a b : string) (m : nat) :
  String.substring (String.length a) m (a +:+ b) = String.substring 0 m b.
Proof. induction a as [|x a IH]; simpl; [done|exact IH]. Qed.

Lemma substring_all (s : string) : String.substring 0 (String.length s) s = s.
Proof. induction s as [|x s IH]; simpl; [done|by rewrite IH]. Qed.

Lemma substring_split (s : string) : forall n,
  (n <= String.length s)%nat ->
  s = String.substring 0 n s +:+ String.substring n (String.length s - n) s.
Proof.
  induction s as [|x s IH]; intros n Hn; simpl in *.
  - by destruct n.
  - destruct n as [|n]; simpl.
    + by rewrite substring_all.
    + rewrite <- IH; [done|lia].
Qed.

Lemma trimmed_app (suffix pre : string) :
  app.trimmed suffix (pre +:+ suffix) = Some pre.
Proof.
  unfold app.trimmed. rewrite str_length_app.
  replace (String.length pre + String.length suffix - String.length suffix)%nat
    with (String.length pre) by lia.
  rewrite substring_app_r, substring_all, substring_app_l, String.eqb_refl.
  destruct (Nat.leb_spec (String.length suffix)
              (String.length pre + String.length suffix)); [done|lia].
Qed.

Lemma trimmed_Some (suffix s pre : string) :
  app.trimmed suffix s = Some pre -> s = pre +:+ suffix.
Proof.
  unfold app.trimmed.
  destruct (Nat.leb_spec (String.length suffix) (String.length s)) as [Hle|]; [|done].
  simpl. destruct (String.eqb_spec
    (String.substring (String.length s - String.length suffix) (String.length suffix) s)
    suffix) as [Heq|]; [|done].
  intros [= <-].
  etransitivity; [apply (substring_split s (String.length s - String.length suffix)); lia|].
  f_equal. rewrite <- Heq at 3. f_equal. lia.
Qed.

Lemma app_tail_eq (a : string) : forall b t r,
  a +:+ t = b +:+ r -> String.length t = String.length r -> t = r.
Proof.
  induction a as [|x a IH]; intros b t r Heq Hlen.
  - destruct b as [|y b]; [done|].
    apply (f_equal String.length) in Heq. simpl in Heq.
    rewrite str_length_app in Heq. lia.
  - destruct b as [|y b].
    + apply (f_equal String.length) in Heq. simpl in Heq.
      rewrite str_length_app in Heq. lia.
    + simpl in Heq. injection Heq as _ Heq. by eapply IH.
Qed.

(** A name that ends in one tail does not end in another one. *)
Lemma trimmed_other (suffix pre t1 t2 r1 r2 : string) :
  suffix = r1 +:+ r2 -> String.length t2 = String.length r2 -> t2 <> r2 ->
  app.trimmed suffix (pre +:+ t1 +:+ t2) = None.
Proof.
  intros -> Hlen Hne.
  destruct (app.trimmed _ _) as [p|] eqn:Htr; [|done].
  apply trimmed_Some in Htr.
  rewrite <- !str_app_assoc in Htr. by apply app_tail_eq in Htr.
Qed.

Lemma Sprintf_05d_s_eq (tail name : string) (v : Z) :
  app.Sprintf_05d_s tail v name
  = app.Sprintf_05d v +:+ String "_" (name +:+ tail).
Proof. done. Qed.

(** The version and the name are read back from a name made of them. *)
Lemma parseFileName_Sprintf (ext name : string) (v : Z) :
  0 <= v <= int_max -> app.Split ext = [ext] ->
  app.parseFileName (app.Sprintf_05d_s (String "_" ext) v name) = inl (v, name).
Proof.
  intros Hv Hext. destruct (Sprintf_05d_digits v Hv) as (Hdig & Hne & Hatoi).
  unfold app.parseFileName. rewrite Sprintf_05d_s_eq.
  rewrite FindVersion_stop by done.
  destruct (String.eqb_spec (app.Sprintf_05d v) ""); [done|].
  rewrite Hatoi, !Split_app_sep, Hext.
  destruct (digits_plain _ Hdig) as [-> _].
  pose proof (Split_nonempty name) as Hname.
  rewrite !length_app. simpl.
  destruct (Nat.ltb_spec (Datatypes.S (List.length (app.Split name) + 1)) 3).
  { destruct (app.Split name); [done|simpl in *; lia]. }
  replace (List.length (app.Split name) + 1 - 0 - 1)%nat
    with (List.length (app.Split name)) by lia.
  by rewrite drop_0, take_app_length, Join_Split.
Qed.

Lemma matches_created (ext name : string) (v : Z) :
  0 <= v <= int_max ->
  app.matches (String "_" ext) (app.Sprintf_05d_s (String "_" ext) v name)
  = app.no_newline name.
Proof.
  intros Hv. destruct (Sprintf_05d_digits v Hv) as (Hdig & Hne & _).
  unfold app.matches. rewrite Sprintf_05d_s_eq.
  replace (app.Sprintf_05d v +:+ String "_" (name +:+ String "_" ext))
    with ((app.Sprintf_05d v +:+ String "_" name) +:+ String "_" ext)
    by (by rewrite !str_app_assoc).
  rewrite trimmed_app, no_newline_app.
  destruct (digits_plain _ Hdig) as [_ ->]. simpl.
  destruct (app.Sprintf_05d v); [done|done].
Qed.

Lemma matches_other (suffix tail t1 t2 r1 r2 name : string) (v : Z) :
  tail = t1 +:+ t2 -> suffix = r1 +:+ r2 ->
  String.length t2 = String.length r2 -> t2 <> r2 ->
  app.matches suffix (app.Sprintf_05d_s tail v name) = false.
Proof.
  intros -> Hs Hlen Hne. unfold app.matches. rewrite Sprintf_05d_s_eq.
  replace (app.Sprintf_05d v +:+ String "_" (name +:+ t1 +:+ t2))
    with ((app.Sprintf_05d v +:+ String "_" name) +:+ t1 +:+ t2)
    by (by rewrite !str_app_assoc).
  by rewrite (trimmed_other suffix _ t1 t2 r1 r2).
Qed.

End FileNames.

(** [processMigrationFile] on the four kinds of file [createMigrationFiles]
    names. *)
Lemma processMigrationFile_created (filePath name : string) (v : Z)
      (read : string + error) (version : Z) (migrationName : string) :
  0 <= v <= int_max ->
  let entry tail := {| app.FileName := app.Sprintf_05d_s tail v name;
                       app.ReadFile := read |} in
  let rejected := if app.no_newline name then None else Some ErrInvalidMigrationName in
  app.processMigrationFile filePath (entry "_up.sql") version migrationName
  = match rejected, read with
    | Some e, _ => inr e
    | None, inr e => inr e
    | None, inl sql => inl (mkMigration version migrationName sql "" None None "" 0)
    end /\
  app.processMigrationFile filePath (entry "_down.sql") version migrationName
  = match rejected, read with
    | Some e, _ => inr e
    | None, inr e => inr e
    | None, inl sql => inl (mkMigration version migrationName "" sql None None "" 0)
    end /\
  app.processMigrationFile filePath (entry "_up.go") version migrationName
  = match rejected with
    | Some e => inr e
    | None =>
        inl (mkMigration version migrationName "" ""
               (Some (app.runGoMigration filePath (app.Sprintf_05d_s "_up.go" v name)))
               None "" 0)
    end /\
  app.processMigrationFile filePath (entry "_down.go") version migrationName
  = match rejected with
    | Some e => inr e
    | None =>
        inl (mkMigration version migrationName "" "" None
               (Some (app.runGoMigration filePath (app.Sprintf_05d_s "_down.go" v name)))
               "" 0)
    end.
Proof.
  intros Hv entry rejected. subst entry rejected.
  unfold app.processMigrationFile, app.regGetUpMigration, app.regGetDownMigration,
    app.regGetUpGoMigration, app.regGetDownGoMigration.
  cbn [app.FileName app.ReadFile].
  rewrite !(matches_created _ name v Hv).
  rewrite (matches_other "_up.sql" "_down.sql" "_d" "own.sql" "" "_up.sql") by done.
  rewrite (matches_other "_up.sql" "_up.go" "" "_up.go" "_" "up.sql") by done.
  rewrite (matches_other "_down.sql" "_up.go" "" "_up.go" "_do" "wn.sql") by done.
  rewrite (matches_other "_up.sql" "_down.go" "_" "down.go" "" "_up.sql") by done.
  rewrite (matches_other "_down.sql" "_down.go" "" "_down.go" "_" "down.sql") by done.
  rewrite (matches_other "_up.go" "_down.go" "_d" "own.go" "" "_up.go") by done.
  rewrite (matches_other "_down.sql" "_up.sql" "" "_up.sql" "_d" "own.sql") by done.
  rewrite (matches_other "_up.go" "_up.sql" "_" "up.sql" "" "_up.go") by done.
  rewrite (matches_other "_down.go" "_up.sql" "" "_up.sql" "_" "down.go") by done.
  rewrite (matches_other "_up.go" "_down.sql" "_do" "wn.sql" "" "_up.go") by done.
  rewrite (matches_other "_down.go" "_down.sql" "_" "down.sql" "" "_down.go") by done.
  rewrite (matches_other "_down.go" "_up.go" "" "_up.go" "_d" "own.go") by done.
  destruct (app.no_newline name), read; done.
Qed.

(** ** What [parseFileName] takes apart *)

Section ParseNames.

#[local] Arguments String.append !s1 s2 / : simpl nomatch.

Lemma Split_parts_plain (s : string) :
  Forall (fun x => app.Split x = [x]) (app.Split s).
Proof.
  induction s as [|c s IH]; simpl.
  { by repeat constructor. }
  destruct (Ascii.eqb c "_") eqn:Hc.
  { constructor; [done|exact IH]. }
  pose proof (Split_nonempty s).
  destruct (app.Split s) as [|p ps]; [done|].
  apply Forall_cons in IH as [Hp Hps]. constructor; [|done].
  simpl. by rewrite Hc, Hp.
Qed.

Lemma FindVersion_prefix (a : string) (c : ascii) (rest : string) :
  app.is_digit c = false ->
  app.FindVersion (a +:+ String c rest) = app.FindVersion a.
Proof.
  intros Hc. induction a as [|x a IH]; simpl; [by rewrite Hc|].
  destruct (app.is_digit x); [by rewrite IH|done].
Qed.

Lemma Join_cons (x : string) (l : list string) :
  l <> [] -> app.Join (x :: l) = x +:+ String "_" (app.Join l).
Proof. unfold app.Join. by destruct l. Qed.

Lemma Join_snoc (l : list string) (y : string) :
  l <> [] -> app.Join (l ++ [y]) = app.Join l +:+ String "_" y.
Proof.
  induction l as [|x l IH]; [done|]. intros _.
  destruct l as [|x' l].
  - done.
  - rewrite <- app_comm_cons, Join_cons by done.
    rewrite IH by done. rewrite (Join_cons x (x' :: l)) by done.
    by rewrite str_app_assoc.
Qed.

End ParseNames.

(** ** [getLastVersion] and [Create] *)

Lemma FindVersion_idem (s : string) :
  app.FindVersion (app.FindVersion s) = app.FindVersion s.
Proof.
  induction s as [|x s IH]; cbn; [done|].
  destruct (app.is_digit x) eqn:Hx; cbn; [|done]. by rewrite Hx, IH.
Qed.

Lemma digits_value_nonneg (s : string) : forall acc,
  app.FindVersion s = s -> 0 <= acc -> 0 <= app.digits_value acc s.
Proof.
  induction s as [|x s IH]; intros acc Hs Hacc; cbn in *; [done|].
  destruct (app.is_digit x) eqn:Hx; [|done].
  injection Hs as Hs. apply IH; [done|].
  unfold app.is_digit in Hx. apply andb_prop in Hx as [Hlo _].
  apply Nat.leb_le in Hlo. lia.
Qed.

Lemma Atoi_nonneg (s : string) (v : Z) :
  app.Atoi (app.FindVersion s) = inl v -> 0 <= v.
Proof.
  unfold app.Atoi. destruct (int_max <? _); [done|]. intros [= <-].
  apply digits_value_nonneg; [apply FindVersion_idem|done].
Qed.

(** The loop of [getLastVersion] from [acc]: it either meets a version
    that does not parse, or returns the largest of [acc] and the versions. *)
Lemma getLastVersion_loop_spec (files : list app.DirEntry) : forall acc,
  0 <= acc ->
  let r := app.getLastVersion_loop files acc in
  (r = -1 /\
   exists f e, f ∈ files /\ app.FindVersion (app.FileName f) <> "" /\
               app.Atoi (app.FindVersion (app.FileName f)) = inr e) \/
  (acc <= r /\
   (forall f, f ∈ files -> app.FindVersion (app.FileName f) <> "" ->
              exists v, app.Atoi (app.FindVersion (app.FileName f)) = inl v /\ v <= r) /\
   (r = acc \/
    exists f, f ∈ files /\ app.FindVersion (app.FileName f) <> "" /\
              app.Atoi (app.FindVersion (app.FileName f)) = inl r)).
Proof.
  induction files as [|file files IH]; intros acc Hacc; cbn.
  { right. split; [lia|]. split; [|by left]. intros f Hf. by apply elem_of_nil in Hf. }
  destruct (String.eqb_spec (app.FindVersion (app.FileName file)) "") as [Hempty|Hne]; cbn.
  - destruct (IH acc Hacc) as [(Hr & f & e & Hf & Hfne & Hfe)|(Hle & Hall & Hmax)].
    + left. split; [done|]. exists f, e. split; [by apply list_elem_of_further|done].
    + right. split; [done|]. split.
      * intros f [->|Hf]%elem_of_cons Hfne; [done|by apply Hall].
      * destruct Hmax as [?|(f & Hf & ? & ?)]; [by left|].
        right. exists f. split; [by apply list_elem_of_further|done].
  - destruct (app.Atoi (app.FindVersion (app.FileName file))) as [version|e] eqn:Hatoi.
    2:{ left. split; [done|]. exists file, e. split; [apply list_elem_of_here|done]. }
    pose proof (Atoi_nonneg _ _ Hatoi) as Hversion.
    set (acc' := if acc <? version then version else acc).
    assert (0 <= acc' /\ acc <= acc' /\ version <= acc' /\
            (acc' = acc \/ acc' = version)) as (Hacc' & Hle1 & Hle2 & Hcase).
    { subst acc'. destruct (Z.ltb_spec acc version); lia. }
    destruct (IH acc' Hacc') as [(Hr & f & e & Hf & Hfne & Hfe)|(Hle & Hall & Hmax)].
    + left. split; [done|]. exists f, e. split; [by apply list_elem_of_further|done].
    + right. split; [lia|]. split.
      * intros f [->|Hf]%elem_of_cons Hfne; [|by apply Hall].
        exists version. split; [done|lia].
      * destruct Hmax as [Hr|(f & Hf & ? & ?)].
        -- destruct Hcase as [Hc|Hc]; [left; lia|].
           right. exists file. split; [apply list_elem_of_here|].
           split; [done|]. rewrite Hatoi. f_equal. lia.
        -- right. exists f. split; [by apply list_elem_of_further|done].
Qed.

(** A file named by [createMigrationFiles] for version [v] carries it. *)
Lemma created_name_version (tail name : string) (v : Z) :
  0 <= v <= int_max ->
  app.FindVersion (app.Sprintf_05d_s tail v name) <> "" /\
  app.Atoi (app.FindVersion (app.Sprintf_05d_s tail v name)) = inl v.
Proof.
  intros Hv. destruct (Sprintf_05d_digits v Hv) as (Hdig & Hne & Hatoi).
  rewrite Sprintf_05d_s_eq, FindVersion_stop by done. done.
Qed.

(** The files [Create] writes, when it gets as far as writing. *)
Lemma Create_written (F : app.FileSystem) (upContent downContent : string)
      (name filePath migrationType : string) (fs : app.Fs F)
      (files : list app.DirEntry) :
  app.ReadDir F filePath fs = inl files ->
  app.getLastVersion files < int_max ->
  let written := (app.Create F upContent downContent name filePath migrationType fs).1.2 in
  (List.length written <= 2)%nat /\
  (written <> [] -> 0 <= app.getLastVersion files) /\
  forall w, w ∈ written ->
    exists tail, app.wFile w = app.Sprintf_05d_s tail (app.getLastVersion files + 1) name.
Proof.
  intros Hread Hmax. unfold app.Create. rewrite Hread.
  destruct (Z.ltb_spec (app.getLastVersion files) 0) as [Hneg|Hpos]; cbn.
  { split; [lia|]. split; [done|]. intros w Hw. by apply elem_of_nil in Hw. }
  rewrite wrap_int_small by (unfold int_min, int_max in *; lia).
  unfold app.createMigrationFiles.
  destruct (String.eqb migrationType "sql"); [|destruct (String.eqb migrationType "go")].
  3:{ cbn. split; [lia|]. split; [done|]. intros w Hw. by apply elem_of_nil in Hw. }
  all: destruct (app.WriteFile F filePath _ _ fs) as [fs1 [e|]]; cbn;
    [|destruct (app.WriteFile F filePath _ _ fs1) as [fs2 err2]; cbn];
    (split; [lia|]); (split; [done|]); intros w Hw;
    repeat (apply elem_of_cons in Hw as [->|Hw]; [by eexists|]);
    by apply elem_of_nil in Hw.
Qed.

(** The two write calls of a [Create] that went through. *)
Lemma Create_wrote_both (F : app.FileSystem) (upContent downContent : string)
      (name filePath migrationType : string) (fs fs' : app.Fs F)
      (files : list app.DirEntry) (up down : app.WriteCall) :
  app.ReadDir F filePath fs = inl files ->
  app.getLastVersion files < int_max ->
  app.Create F upContent downContent name filePath migrationType fs
  = (fs', [up; down], None) ->
  let v := app.getLastVersion files + 1 in
  0 <= app.getLastVersion files /\
  ((migrationType = "sql" /\
    up = app.mkWrite (app.Sprintf_05d_s "_up.sql" v name) "" None /\
    down = app.mkWrite (app.Sprintf_05d_s "_down.sql" v name) "" None) \/
   (migrationType = "go" /\
    up = app.mkWrite (app.Sprintf_05d_s "_up.go" v name) upContent None /\
    down = app.mkWrite (app.Sprintf_05d_s "_down.go" v name) downContent None)).
Proof.
  intros Hread Hmax. unfold app.Create. rewrite Hread.
  destruct (Z.ltb_spec (app.getLastVersion files) 0) as [Hneg|Hpos]; [done|].
  rewrite wrap_int_small by (unfold int_min, int_max in *; lia).
  unfold app.createMigrationFiles.
  destruct (String.eqb_spec migrationType "sql") as [->|_];
    [|destruct (String.eqb_spec migrationType "go") as [->|_]; [|done]].
  - destruct (app.WriteFile F filePath _ _ fs) as [fs1 [e|]]; [done|].
    destruct (app.WriteFile F filePath _ _ fs1) as [fs2 err2].
    intros [= <- <- <- <-]. cbn. split; [done|]. by left.
  - destruct (app.WriteFile F filePath _ _ fs) as [fs1 [e|]]; [done|].
    destruct (app.WriteFile F filePath _ _ fs1) as [fs2 err2].
    intros [= <- <- <- <-]. cbn. split; [done|]. by right.
Qed.

(** ** Paths: where [Create] writes *)

Section Paths.

#[local] Arguments String.append !s1 s2 / : simpl nomatch.

Lemma no_slash_app (a b : string) :
  app.no_slash (a +:+ b) = app.no_slash a && app.no_slash b.
Proof.
  induction a as [|c a IH]; [done|]. cbn. rewrite IH. by rewrite andb_assoc.
Qed.

Lemma digits_no_slash (s : string) : app.FindVersion s = s -> app.no_slash s = true.
Proof.
  induction s as [|c s IH]; [done|]. cbn.
  destruct (app.is_digit c) eqn:Hc; [|done]. intros [= Hs].
  rewrite (IH Hs), andb_true_r.
  destruct (Ascii.eqb_spec c "/"%char) as [->|]; [|done]. by vm_compute in Hc.
Qed.

Lemma path_elems_nonempty (s : string) : app.path_elems s <> [].
Proof.
  destruct s as [|c s]; [done|]. cbn.
  destruct (Ascii.eqb c "/"); [done|]. by destruct (app.path_elems s).
Qed.

Lemma path_elems_no_slash (s : string) :
  app.no_slash s = true -> app.path_elems s = [s].
Proof.
  induction s as [|c s IH]; [done|]. cbn.
  destruct (Ascii.eqb c "/"); [done|]. cbn. intros Hs. by rewrite (IH Hs).
Qed.

Lemma path_elems_app (a b : string) :
  app.path_elems (a +:+ String "/" b) = app.path_elems a ++ app.path_elems b.
Proof.
  induction a as [|c a IH]; [done|]. cbn.
  destruct (Ascii.eqb c "/"); [by rewrite IH|].
  rewrite IH. pose proof (path_elems_nonempty a).
  by destruct (app.path_elems a).
Qed.

Lemma rooted_app (a b : string) : a <> "" -> app.rooted (a +:+ b) = app.rooted a.
Proof. by destruct a. Qed.

Lemma str_app_inv_head (pre a b : string) : pre +:+ a = pre +:+ b -> a = b.
Proof.
  induction pre as [|c pre IH]; [done|]. cbn. intros [= H]. by apply IH.
Qed.

Lemma str_app_nonempty (a b : string) : b <> "" -> a +:+ b <> "".
Proof. by destruct a. Qed.

Lemma concat_snoc (sep : string) (l : list string) (x : string) :
  String.concat sep (l ++ [x])
  = match l with
    | [] => ""
    | _ => String.concat sep l +:+ sep
    end +:+ x.
Proof.
  induction l as [|y l IH]; [done|].
  cbn [app]. destruct l as [|z l].
  - cbn. by rewrite str_app_assoc.
  - change (String.concat sep (y :: (z :: l) ++ [x]))
      with (y +:+ sep +:+ String.concat sep ((z :: l) ++ [x])).
    rewrite IH.
    change (String.concat sep (y :: z :: l))
      with (y +:+ sep +:+ String.concat sep (z :: l)).
    by rewrite !str_app_assoc.
Qed.

(** A plain name is one element, and [path.Clean] keeps it. *)
Lemma plain_name_spec (x : string) :
  app.plain_name x = true ->
  x <> "" /\ app.rooted x = false /\ app.path_elems x = [x] /\
  forall r kept, app.clean_elem r kept x = x :: kept.
Proof.
  unfold app.plain_name. intros H.
  apply andb_prop in H as [H Hslash]. apply andb_prop in H as [H Hdd].
  apply andb_prop in H as [Hne Hd].
  apply negb_true_iff in Hne, Hd, Hdd.
  split; [by intros ->|]. split.
  { destruct x as [|c x]; [done|]. cbn in Hslash |- *.
    by destruct (Ascii.eqb c "/"). }
  split; [by apply path_elems_no_slash|].
  intros r kept. unfold app.clean_elem. by rewrite Hne, Hd, Hdd.
Qed.

(** [path.Join] of a directory and a non-empty file name that does not
    begin with a slash depends on the name only through what the loop
    of [path.Clean] makes of its elements. *)
Lemma path_Join_elems (dir f1 f2 : string) :
  f1 <> "" -> f2 <> "" -> app.rooted f1 = false -> app.rooted f2 = false ->
  (forall r kept,
     fold_left (app.clean_elem r) (app.path_elems f1) kept
     = fold_left (app.clean_elem r) (app.path_elems f2) kept) ->
  app.path_Join dir f1 = app.path_Join dir f2.
Proof.
  intros H1 H2 Hr1 Hr2 Hfold. unfold app.path_Join.
  destruct (String.eqb_spec f1 "") as [|_]; [done|].
  destruct (String.eqb_spec f2 "") as [|_]; [done|].
  destruct (String.eqb_spec dir "") as [->|Hdir].
  - unfold app.path_Clean. by rewrite Hr1, Hr2, Hfold.
  - unfold app.path_Clean.
    change (dir +:+ "/" +:+ f1) with (dir +:+ String "/" f1).
    change (dir +:+ "/" +:+ f2) with (dir +:+ String "/" f2).
    rewrite !rooted_app, !path_elems_app, !fold_left_app by done.
    by rewrite Hfold.
Qed.

(** The path of a file of a directory is a text that depends on the
    directory, followed by the name of the file. *)
Lemma path_Join_plain (dir : string) :
  exists pre, forall x, app.plain_name x = true -> app.path_Join dir x = pre +:+ x.
Proof.
  destruct (String.eqb_spec dir "") as [->|Hdir].
  - exists "". intros x Hx.
    destruct (plain_name_spec x Hx) as (Hne & Hroot & Helems & Hkeep).
    unfold app.path_Join. cbn [String.eqb].
    destruct (String.eqb_spec x "") as [|_]; [done|].
    unfold app.path_Clean. rewrite Hroot, Helems. cbn [fold_left].
    rewrite Hkeep. cbn.
    by destruct (String.eqb_spec x "").
  - set (r := app.rooted dir).
    set (kept := rev (fold_left (app.clean_elem r) (app.path_elems dir) [])).
    exists ((if r then "/" else "")
            +:+ match kept with
                | [] => ""
                | _ => String.concat "/" kept +:+ "/"
                end).
    intros x Hx.
    destruct (plain_name_spec x Hx) as (Hne & Hroot & Helems & Hkeep).
    unfold app.path_Join.
    destruct (String.eqb_spec dir "") as [|_]; [done|].
    destruct (String.eqb_spec x "") as [|_]; [done|].
    unfold app.path_Clean.
    change (dir +:+ "/" +:+ x) with (dir +:+ String "/" x).
    rewrite rooted_app, path_elems_app, fold_left_app, Helems by done.
    cbn [fold_left]. rewrite Hkeep. cbn [rev]. fold r. fold kept.
    rewrite concat_snoc, <- str_app_assoc.
    destruct (String.eqb_spec (((if r then "/" else "")
                               +:+ match kept with
                                   | [] => ""
                                   | _ :: _ => String.concat "/" kept +:+ "/"
                                   end) +:+ x) "") as [Heq|]; [|done].
    by apply str_app_nonempty in Heq.
Qed.

(** Two files of a directory with different names have different paths. *)
Lemma path_Join_inj (dir x y : string) :
  app.plain_name x = true -> app.plain_name y = true ->
  app.path_Join dir x = app.path_Join dir y -> x = y.
Proof.
  intros Hx Hy. destruct (path_Join_plain dir) as (pre & Hpre).
  rewrite (Hpre x Hx), (Hpre y Hy). apply str_app_inv_head.
Qed.

(** An element, [..] and a name: the path of the name. *)
Lemma path_Join_back (dir a y : string) :
  app.plain_name a = true -> app.plain_name y = true ->
  app.path_Join dir (a +:+ String "/" (".." +:+ String "/" y)) = app.path_Join dir y.
Proof.
  intros Ha Hy.
  destruct (plain_name_spec a Ha) as (Hane & Haroot & Haelems & Hakeep).
  destruct (plain_name_spec y Hy) as (Hyne & Hyroot & Hyelems & Hykeep).
  apply path_Join_elems; [by destruct a|done|by destruct a|done|].
  intros r kept.
  rewrite !path_elems_app, Haelems, Hyelems, (path_elems_no_slash ".." eq_refl).
  cbn [fold_left app]. rewrite Hakeep.
  assert (app.clean_elem r (a :: kept) ".." = kept) as ->.
  { unfold app.clean_elem. cbn [String.eqb orb].
    unfold app.plain_name in Ha.
    apply andb_prop in Ha as [Ha _]. apply andb_prop in Ha as [_ Hdd].
    apply negb_true_iff in Hdd. cbn in Hdd |- *. by rewrite Hdd. }
  done.
Qed.

(** The files [createMigrationFiles] names for a name without a slash
    are plain names. *)
Lemma created_name_plain (tail name : string) (v : Z) :
  0 <= v <= int_max -> app.no_slash name = true -> app.no_slash tail = true ->
  app.plain_name (app.Sprintf_05d_s tail v name) = true.
Proof.
  intros Hv Hname Htail.
  destruct (Sprintf_05d_digits v Hv) as (Hdig & Hne & _).
  rewrite Sprintf_05d_s_eq.
  pose proof (digits_no_slash _ Hdig) as Hslash.
  destruct (app.Sprintf_05d v) as [|c s] eqn:Hs; [done|].
  cbn in Hdig. destruct (app.is_digit c) eqn:Hc; [|done].
  unfold app.plain_name.
  assert (app.no_slash (String c s +:+ String "_" (name +:+ tail)) = true) as ->.
  { rewrite no_slash_app, Hslash. cbn. by rewrite no_slash_app, Hname, Htail. }
  rewrite andb_true_r. cbn.
  destruct (Ascii.eqb_spec c ".") as [->|]; [by vm_compute in Hc|]. done.
Qed.

(** The number and the underscore that begin such a name are a plain
    name too. *)
Lemma created_prefix_plain (v : Z) :
  0 <= v <= int_max -> app.plain_name (app.Sprintf_05d v +:+ "_") = true.
Proof.
  intros Hv.
  destruct (Sprintf_05d_digits v Hv) as (Hdig & Hne & _).
  pose proof (digits_no_slash _ Hdig) as Hslash.
  destruct (app.Sprintf_05d v) as [|c s] eqn:Hs; [done|].
  cbn in Hdig. destruct (app.is_digit c) eqn:Hc; [|done].
  unfold app.plain_name.
  assert (app.no_slash (String c s +:+ "_") = true) as ->.
  { rewrite no_slash_app, Hslash. done. }
  rewrite andb_true_r. cbn.
  destruct (Ascii.eqb_spec c ".") as [->|]; [by vm_compute in Hc|]. done.
Qed.

End Paths.

(** The files [Create] writes end as migration files do. *)
Lemma Create_written_tails (F : app.FileSystem) (upContent downContent : string)
      (name filePath migrationType : string) (fs : app.Fs F)
      (files : list app.DirEntry) :
  app.ReadDir F filePath fs = inl files ->
  app.getLastVersion files < int_max ->
  forall w,
    w ∈ (app.Create F upContent downContent name filePath migrationType fs).1.2 ->
    exists tail,
      tail ∈ ["_up.sql"; "_down.sql"; "_up.go"; "_down.go"] /\
      app.wFile w = app.Sprintf_05d_s tail (app.getLastVersion files + 1) name.
Proof.
  intros Hread Hmax. unfold app.Create. rewrite Hread.
  destruct (Z.ltb_spec (app.getLastVersion files) 0) as [Hneg|Hpos]; cbn.
  { intros w Hw. by apply elem_of_nil in Hw. }
  rewrite wrap_int_small by (unfold int_min, int_max in *; lia).
  unfold app.createMigrationFiles.
  destruct (String.eqb migrationType "sql"); [|destruct (String.eqb migrationType "go")].
  3:{ cbn. intros w Hw. by apply elem_of_nil in Hw. }
  all: destruct (app.WriteFile F filePath _ _ fs) as [fs1 [e|]]; cbn;
    [|destruct (app.WriteFile F filePath _ _ fs1) as [fs2 err2]; cbn];
    intros w Hw;
    repeat (apply elem_of_cons in Hw as [->|Hw];
            [eexists; split; [|reflexivity];
             repeat first [apply list_elem_of_here|apply list_elem_of_further]|]);
    by apply elem_of_nil in Hw.
Qed.

(** ** [getMigrations], file by file *)

(** What [processMigrationFile] builds carries the version and the name
    [parseFileName] read. *)
Lemma fragment_version (filePath : string) (file : app.DirEntry) (a : Migration) :
  fragment filePath file = inl a ->
  app.parseFileName (app.FileName file) = inl (Version a, Name a).
Proof.
  unfold fragment, app.processMigrationFile.
  destruct (app.parseFileName _) as [[version name]|]; [|done].
  repeat match goal with
         | |- context [if ?b then _ else _] => destruct b
         | |- context [app.ReadFile ?f] => destruct (app.ReadFile f)
         end; by intros [= <-].
Qed.

(** The version [parseFileName] reads is the one [getLastVersion] reads. *)
Lemma parseFileName_version (fileName name : string) (v : Z) :
  app.parseFileName fileName = inl (v, name) ->
  app.FindVersion fileName <> "" /\ app.Atoi (app.FindVersion fileName) = inl v.
Proof.
  unfold app.parseFileName.
  destruct (String.eqb_spec (app.FindVersion fileName) ""); [done|].
  destruct (app.Atoi _) as [version|]; [|done].
  destruct (_ <? _)%nat; [done|]. by intros [= <- _].
Qed.

Lemma collect_cons (filePath : string) (file : app.DirEntry) (rest : list app.DirEntry)
      (migrations : gmap Z Migration) :
  app.collect filePath (file :: rest) migrations
  = match fragment filePath file with
    | inr err => inr err
    | inl a => app.collect filePath rest (placed migrations a)
    end.
Proof.
  cbn. unfold fragment, placed.
  destruct (app.parseFileName _) as [[version name]|] eqn:Hparse; [|done].
  destruct (app.processMigrationFile _ _ _ _) as [a|] eqn:Hproc; [|done].
  assert (Version a = version) as <-.
  { pose proof (fragment_version filePath file a) as Hv.
    unfold fragment in Hv. rewrite Hparse, Hproc in Hv.
    specialize (Hv eq_refl). congruence. }
  by destruct (migrations !! Version a).
Qed.

Lemma collect_app (filePath : string) (l1 l2 : list app.DirEntry) : forall migrations,
  app.collect filePath (l1 ++ l2) migrations
  = match app.collect filePath l1 migrations with
    | inl migrations1 => app.collect filePath l2 migrations1
    | inr err => inr err
    end.
Proof.
  induction l1 as [|file l1 IH]; intros migrations; [done|].
  rewrite <- app_comm_cons, !collect_cons.
  destruct (fragment filePath file); [apply IH|done].
Qed.

(** One file that is not a migration file makes the whole reading fail. *)
Lemma collect_fails (filePath : string) (files : list app.DirEntry) : forall migrations f e,
  f ∈ files -> fragment filePath f = inr e ->
  exists e', app.collect filePath files migrations = inr e'.
Proof.
  induction files as [|file files IH]; intros migrations f e Hf He.
  { by apply elem_of_nil in Hf. }
  rewrite collect_cons. apply elem_of_cons in Hf as [->|Hf].
  - rewrite He. by eexists.
  - destruct (fragment filePath file); [by eapply IH|by eexists].
Qed.

Lemma collect_succeeds (filePath : string) (files : list app.DirEntry) : forall migrations,
  Forall (fun f => exists a, fragment filePath f = inl a) files ->
  exists migrations', app.collect filePath files migrations = inl migrations'.
Proof.
  induction files as [|file files IH]; intros migrations Hall.
  { by eexists. }
  apply Forall_cons in Hall as [(a & Ha) Hall].
  rewrite collect_cons, Ha. by apply IH.
Qed.

(** The versions of the result are those that were there and those of the
    files. *)
Lemma collect_dom (filePath : string) (files : list app.DirEntry) :
  forall migrations migrations',
  app.collect filePath files migrations = inl migrations' ->
  forall v, is_Some (migrations' !! v) <->
            is_Some (migrations !! v) \/
            exists f a, f ∈ files /\ fragment filePath f = inl a /\ Version a = v.
Proof.
  induction files as [|file files IH]; intros migrations migrations' Hrun v.
  { injection Hrun as <-. split; [by left|].
    intros [?|(f & a & Hf & _)]; [done|by apply elem_of_nil in Hf]. }
  rewrite collect_cons in Hrun.
  destruct (fragment filePath file) as [a|] eqn:Ha; [|done].
  rewrite (IH _ _ Hrun v). unfold placed. split.
  - intros [Hv|(f & b & Hf & Hb & Hbv)].
    + destruct (decide (Version a = v)) as [<-|Hne].
      * right. exists file, a. split; [apply list_elem_of_here|done].
      * left. by rewrite lookup_insert_ne in Hv.
    + right. exists f, b. split; [by apply list_elem_of_further|done].
  - intros [Hv|(f & b & Hf & Hb & Hbv)].
    + left. destruct (decide (Version a = v)) as [<-|Hne].
      * by rewrite lookup_insert_eq.
      * by rewrite lookup_insert_ne.
    + apply elem_of_cons in Hf as [->|Hf].
      * left. rewrite Ha in Hb. injection Hb as <-. subst v.
        by rewrite lookup_insert_eq.
      * right. by exists f, b.
Qed.

(** Fragments of different versions can be placed in either order. *)
Lemma placed_comm (migrations : gmap Z Migration) (a b : Migration) :
  Version a <> Version b ->
  placed (placed migrations a) b = placed (placed migrations b) a.
Proof.
  intros Hne. unfold placed.
  rewrite !lookup_insert_ne by done. by rewrite insert_insert_ne.
Qed.

(** A file can be moved to the end of the listing past files of other
    versions. *)
Lemma collect_move_end (filePath : string) (x : app.DirEntry) (a : Migration)
      (l : list app.DirEntry) : forall migrations,
  fragment filePath x = inl a ->
  Forall (fun f => exists b, fragment filePath f = inl b /\ Version b <> Version a) l ->
  app.collect filePath (x :: l) migrations = app.collect filePath (l ++ [x]) migrations.
Proof.
  intros migrations Hx Hl. revert migrations.
  induction Hl as [|f l (b & Hb & Hne) _ IH]; intros migrations; [done|].
  rewrite <- app_comm_cons, !collect_cons, Hx, Hb.
  rewrite collect_cons, Hb, <- IH, collect_cons, Hx. by rewrite placed_comm.
Qed.

Lemma collect_move_within (filePath : string) (x : app.DirEntry) (a : Migration)
      (pre l post : list app.DirEntry) (migrations : gmap Z Migration) :
  fragment filePath x = inl a ->
  Forall (fun f => exists b, fragment filePath f = inl b /\ Version b <> Version a) l ->
  app.collect filePath (pre ++ x :: l ++ post) migrations
  = app.collect filePath (pre ++ l ++ x :: post) migrations.
Proof.
  intros Hx Hl. rewrite !(collect_app _ pre).
  destruct (app.collect filePath pre migrations) as [migrations1|]; [|done].
  rewrite app_comm_cons, collect_app, (collect_move_end _ x a) by done.
  rewrite <- collect_app, <- app_assoc. done.
Qed.

(** Every file of a listing that was read has a fragment. *)
Lemma collect_fragments (filePath : string) (files : list app.DirEntry)
      (migrations migrations' : gmap Z Migration) :
  app.collect filePath files migrations = inl migrations' ->
  Forall (fun f => exists a, fragment filePath f = inl a) files.
Proof.
  intros Hrun. apply Forall_forall. intros f Hf.
  destruct (fragment filePath f) as [a|e] eqn:Hfrag; [by exists a|].
  destruct (collect_fails filePath files migrations f e Hf Hfrag) as (e' & He').
  congruence.
Qed.

(** Two files of a version the listing does not have yet, put anywhere
    into it: the result gets their merge under that version. *)
Lemma collect_two_new (filePath : string) (x y : app.DirEntry) (a b : Migration)
      (l1 l2 l3 : list app.DirEntry) (migrations : gmap Z Migration) :
  fragment filePath x = inl a -> fragment filePath y = inl b ->
  Version b = Version a ->
  app.collect filePath (l1 ++ l2 ++ l3) ∅ = inl migrations ->
  (forall f c, f ∈ l1 ++ l2 ++ l3 -> fragment filePath f = inl c -> Version c <> Version a) ->
  migrations !! Version a = None /\
  app.collect filePath (l1 ++ x :: l2 ++ y :: l3) ∅
  = inl (<[Version a := app.mergeMigrations a b]> migrations).
Proof.
  intros Hx Hy Hv Hrun Hother.
  pose proof (collect_fragments _ _ _ _ Hrun) as Hfrag.
  assert (forall l, l ⊆ l1 ++ l2 ++ l3 ->
            Forall (fun f => exists c, fragment filePath f = inl c /\ Version c <> Version a) l)
    as Hsub.
  { intros l Hl. apply Forall_forall. intros f Hf.
    rewrite Forall_forall in Hfrag. destruct (Hfrag f (Hl f Hf)) as (c & Hc).
    exists c. split; [done|]. by eapply Hother; [apply Hl|]. }
  assert (migrations !! Version a = None) as Hnone.
  { apply eq_None_not_Some. rewrite (collect_dom _ _ _ _ Hrun).
    intros [Hm|(f & c & Hf & Hc & Hvc)]; [by rewrite lookup_empty in Hm; destruct Hm|].
    by eapply Hother. }
  split; [done|].
  replace (l1 ++ x :: l2 ++ y :: l3) with ((l1 ++ x :: l2) ++ y :: l3 ++ [])
    by (by rewrite app_nil_r, <- app_assoc).
  rewrite (collect_move_within _ y b).
  2: done.
  2:{ rewrite Hv. apply Hsub. intros f Hf. rewrite !elem_of_app. tauto. }
  rewrite <- app_assoc, <- app_comm_cons.
  replace (l2 ++ l3 ++ [y]) with ((l2 ++ l3) ++ [y]) by (by rewrite <- app_assoc).
  rewrite (collect_move_within _ x a).
  2: done.
  2:{ apply Hsub. intros f Hf. rewrite !elem_of_app in *. tauto. }
  replace (l1 ++ (l2 ++ l3) ++ [x; y]) with ((l1 ++ l2 ++ l3) ++ [x; y])
    by (by rewrite <- !app_assoc).
  rewrite collect_app, Hrun, collect_cons, Hx, collect_cons, Hy. cbn. f_equal.
  unfold placed. rewrite Hnone, Hv, lookup_insert_eq, insert_insert_eq. done.
Qed.

(** ** [getMigrations], version by version *)

(** The fragments of the files of a listing, in its order. *)
Lemma collect_lookup (filePath : string) (files : list app.DirEntry) :
  forall (migrations migrations' : gmap Z Migration) (v : Z),
  app.collect filePath files migrations = inl migrations' ->
  let fragments :=
    omap (fun f => match fragment filePath f with
                   | inl a => if bool_decide (Version a = v) then Some a else None
                   | inr _ => None
                   end) files in
  migrations' !! v
  = match migrations !! v, fragments with
    | Some existing, _ => Some (foldl app.mergeMigrations existing fragments)
    | None, [] => None
    | None, a :: rest => Some (foldl app.mergeMigrations a rest)
    end.
Proof.
  induction files as [|file files IH]; intros migrations migrations' v Hrun fragments.
  { injection Hrun as <-. subst fragments. cbn. by destruct (migrations !! v). }
  rewrite collect_cons in Hrun.
  destruct (fragment filePath file) as [a|] eqn:Ha; [|done].
  rewrite (IH _ _ v Hrun). subst fragments. cbn [omap list_omap]. rewrite Ha.
  unfold placed. destruct (decide (Version a = v)) as [<-|Hne].
  - rewrite bool_decide_eq_true_2 by done. rewrite lookup_insert_eq.
    by destruct (migrations !! Version a).
  - rewrite bool_decide_eq_false_2 by done. by rewrite lookup_insert_ne.
Qed.

(** Merging a list of fragments into one leaves in a field the value of
    the last fragment that supplies it. *)
Lemma foldl_merge_text (proj : Migration -> string) :
  (forall x y, proj (app.mergeMigrations x y)
               = if String.eqb (proj y) "" then proj x else proj y) ->
  forall l x,
    proj (foldl app.mergeMigrations x l)
    = default (proj x) (last (filter (fun s => s <> "") (proj <$> l))).
Proof.
  intros Hproj. induction l as [|y l IH]; intros x; [done|].
  cbn [foldl fmap list_fmap]. rewrite IH, Hproj, filter_cons.
  destruct (String.eqb_spec (proj y) "") as [Hy|Hy].
  - by rewrite decide_False by (by intros ?).
  - rewrite decide_True by done. rewrite last_cons.
    by destruct (last (filter _ _)).
Qed.

Lemma foldl_merge_closure (proj : Migration -> option GoFunc) :
  (forall x y, proj (app.mergeMigrations x y)
               = match proj y with Some f => Some f | None => proj x end) ->
  forall l x,
    proj (foldl app.mergeMigrations x l)
    = match last (omap proj l) with Some f => Some f | None => proj x end.
Proof.
  intros Hproj. induction l as [|y l IH]; intros x; [done|].
  cbn [foldl omap list_omap]. rewrite IH, Hproj.
  destruct (proj y) as [f|]; [|done].
  rewrite last_cons. by destruct (last (omap proj l)).
Qed.

Lemma foldl_merge_keeps (l : list Migration) : forall x,
  Version (foldl app.mergeMigrations x l) = Version x /\
  Name (foldl app.mergeMigrations x l) = Name x.
Proof.
  induction l as [|y l IH]; intros x; [done|]. cbn.
  destruct (IH (app.mergeMigrations x y)) as [-> ->].
  destruct (merge_fields x y) as (_ & _ & _ & _ & HV & HN & _). by rewrite HV, HN.
Qed.

Lemma last_text_cons (x : string) (l : list string) :
  default x (last (filter (fun s => s <> "") l))
  = default "" (last (filter (fun s => s <> "") (x :: l))).
Proof.
  rewrite filter_cons. destruct (decide (x <> "")) as [Hx|Hx].
  - rewrite last_cons. by destruct (last (filter _ l)).
  - destruct (decide (x = "")) as [->|]; [done|]. by destruct Hx.
Qed.

Lemma last_closure_cons (proj : Migration -> option GoFunc) (x : Migration)
      (l : list Migration) :
  match last (omap proj l) with Some f => Some f | None => proj x end
  = last (omap proj (x :: l)).
Proof.
  cbn [omap list_omap]. destruct (proj x) as [f|].
  - rewrite last_cons. by destruct (last (omap proj l)).
  - by destruct (last (omap proj l)).
Qed.

(** ** The registry [runMigrations] builds *)

(** Registering the migrations of [order] after those of [m0]: the new
    ones get new addresses and the next versions, nothing else changes. *)
Lemma registerAll_from (S : SQLStorage) (migs : gmap Z Migration) (order : list Z) :
  forall (m0 : Migrator) (w : World (St S)),
  Forall (fun v => is_Some (migs !! v)) order ->
  exists m w' ps,
    app.registerAll S migs order m0 w = (w', Ret m) /\
    store w' = store w /\ trace w' = trace w /\ clock w' = clock w /\
    migrations m = migrations m0 ++ ps /\
    List.length ps = List.length order /\
    NoDup ps /\
    (forall p, p ∈ ps -> p ∉ dom (heap w)) /\
    (forall p, p ∈ dom (heap w) -> heap w' !! p = heap w !! p) /\
    (forall i v, order !! i = Some v ->
       exists p a, ps !! i = Some p /\ migs !! v = Some a /\
         heap w' !! p
         = Some (mkMigration (len m0 + Z.of_nat i + 1) (Name a) (storage.Up a)
                   (storage.Down a) (UpGo a) (DownGo a) "success" 0)).
Proof.
  induction order as [|v order IH]; intros m0 w Hall.
  { exists m0, w, []. cbn. rewrite app_nil_r.
    repeat split; try done; [constructor|by intros p ?%elem_of_nil]. }
  apply Forall_cons in Hall as [[a Ha] Hall].
  cbn [app.registerAll]. rewrite Ha.
  unfold bind at 1, Create, alloc. cbn.
  set (p := fresh (dom (heap w))).
  set (r := mkMigration (len m0 + 1) (Name a) (storage.Up a) (storage.Down a)
              (UpGo a) (DownGo a) "success" 0).
  assert (p ∉ dom (heap w)) as Hfresh by apply is_fresh.
  destruct (IH {| migrations := migrations m0 ++ [p] |}
               (mkWorld (<[p:=r]> (heap w)) (store w) (clock w) (trace w)) Hall)
    as (m & w' & ps & Hrun & Hst & Htr & Hcl & Hm & Hlen & Hnd & Hnew & Hold & Hent).
  cbn in Hst, Htr, Hcl, Hm, Hnew, Hold, Hent.
  exists m, w', (p :: ps). split; [exact Hrun|].
  split; [done|]. split; [done|]. split; [done|].
  split; [by rewrite Hm, <- app_assoc|]. split; [cbn; lia|].
  assert (heap w' !! p = Some r) as Hp.
  { rewrite Hold; [by rewrite lookup_insert_eq|]. rewrite dom_insert. set_solver. }
  split; [|split; [|split]].
  - constructor; [|done]. intros Hin. apply (Hnew p Hin).
    rewrite dom_insert. set_solver.
  - intros q [->|Hq]%elem_of_cons; [done|].
    intros Hdom. apply (Hnew q Hq). rewrite dom_insert. set_solver.
  - intros q Hq. rewrite Hold by (rewrite dom_insert; set_solver).
    apply lookup_insert_ne. intros <-. done.
  - intros [|i] u Hu; cbn in Hu.
    + injection Hu as <-. exists p, a. split; [done|]. split; [done|].
      rewrite Hp. unfold r. do 2 f_equal. lia.
    + destruct (Hent i u Hu) as (q & b & Hq & Hb & Hload).
      exists q, b. split; [done|]. split; [done|].
      rewrite Hload. do 2 f_equal. unfold len. cbn. rewrite length_app. cbn. lia.
Qed.

(** ** The mock store *)

Lemma key_eq (h : Heap) (q p : ptr) :
  (Version (load h q) =? Version (load h p)) && String.eqb (Name (load h q)) (Name (load h p))
  = bool_decide (key h q = key h p).
Proof.
  unfold key.
  destruct (Z.eqb_spec (Version (load h q)) (Version (load h p))) as [HV|HV],
    (String.eqb_spec (Name (load h q)) (Name (load h p))) as [HN|HN]; cbn;
    symmetry; [apply bool_decide_eq_true|apply bool_decide_eq_false..]; congruence.
Qed.

(** What the loop of [InsertMigration] finds. *)
Lemma insert_scan_cases (h : Heap) (recs : list ptr) (p : ptr) :
  (insert_scan h recs p = None /\ Forall (fun x => key h x <> key h p) recs) \/
  (exists pre q post,
     recs = pre ++ q :: post /\ Forall (fun x => key h x <> key h p) pre /\
     key h q = key h p /\ insert_scan h recs p = Some (overwritten h q p)).
Proof.
  induction recs as [|x recs IH]; [by left|].
  cbn [insert_scan]. rewrite key_eq.
  destruct (decide (key h x = key h p)) as [Hx|Hx].
  - rewrite bool_decide_eq_true_2 by done.
    right. exists [], x, recs. by repeat split.
  - rewrite bool_decide_eq_false_2 by done.
    destruct IH as [(Hnone & Hall)|(pre & q & post & -> & Hpre & Hq & Hscan)].
    + left. split; [done|]. by constructor.
    + right. exists (x :: pre), q, post. split; [done|]. split; [by constructor|done].
Qed.

Lemma update_scan_cases (h : Heap) (recs : list ptr) (p : ptr) :
  (update_scan h recs p = None /\ Forall (fun x => key h x <> key h p) recs) \/
  (exists pre q post,
     recs = pre ++ q :: post /\ Forall (fun x => key h x <> key h p) pre /\
     key h q = key h p /\
     update_scan h recs p
     = Some (let h1 := poke h q (SetStatus (Status (load h p))) in
             poke h1 q (SetStatusChangeTime (StatusChangeTime (load h1 p))))).
Proof.
  induction recs as [|x recs IH]; [by left|].
  cbn [update_scan]. rewrite key_eq.
  destruct (decide (key h x = key h p)) as [Hx|Hx].
  - rewrite bool_decide_eq_true_2 by done.
    right. exists [], x, recs. by repeat split.
  - rewrite bool_decide_eq_false_2 by done.
    destruct IH as [(Hnone & Hall)|(pre & q & post & -> & Hpre & Hq & Hscan)].
    + left. split; [done|]. by constructor.
    + right. exists (x :: pre), q, post. split; [done|]. split; [by constructor|done].
Qed.

(** The record the mock store overwrites keeps its bodies and gets the
    status and the time of the migration handed in. *)
Lemma overwritten_load (h : Heap) (q p : ptr) :
  key h q = key h p ->
  load (overwritten h q p) q
  = SetStatusChangeTime (StatusChangeTime (load h p)) (SetStatus (Status (load h p)) (load h q)).
Proof.
  unfold key. intros [= HV HN]. unfold overwritten. rewrite !load_poke.
  destruct (decide (p = q)) as [->|Hpq].
  - rewrite ?load_poke. cbn. rewrite ?load_poke. cbn. by destruct (load h q).
  - rewrite !(load_poke_ne _ q p) by done. rewrite <- HV, <- HN.
    by destruct (load h q).
Qed.

(** Writing the version and the name the record already has changes
    nothing: the mock's [InsertMigration] stops where [UpdateMigration]
    does. *)
Lemma overwritten_update (h : Heap) (q p : ptr) :
  key h q = key h p ->
  overwritten h q p
  = (let h1 := poke h q (SetStatus (Status (load h p))) in
     poke h1 q (SetStatusChangeTime (StatusChangeTime (load h1 p)))).
Proof.
  unfold key. intros [= HV HN]. unfold overwritten. cbn zeta.
  set (h1 := poke h q (SetStatus (Status (load h p)))).
  set (h2 := poke h1 q (SetStatusChangeTime (StatusChangeTime (load h1 p)))).
  assert (Version (load h2 q) = Version (load h q) /\ Name (load h2 q) = Name (load h q))
    as [HV2 HN2].
  { unfold h2, h1. rewrite !load_poke. by cbn. }
  assert (Version (load h2 p) = Version (load h q) /\ Name (load h2 p) = Name (load h q))
    as [HVp HNp].
  { destruct (decide (p = q)) as [->|Hpq]; [done|].
    unfold h2, h1. rewrite !(load_poke_ne _ q p) by done. by rewrite HV, HN. }
  assert (forall g, g (load h2 q) = load h2 q -> poke h2 q g = h2) as Hid.
  { intros g Hg. unfold poke at 1. rewrite Hg. unfold h2 at 2 3, poke at 1 2.
    unfold load at 1. unfold h2 at 1, poke at 1. rewrite lookup_insert_eq. cbn.
    by rewrite insert_insert_eq. }
  rewrite (Hid (SetVersion _)).
  2:{ rewrite HVp, <- HV2. by destruct (load h2 q). }
  rewrite (Hid (SetName _)).
  2:{ rewrite HNp, <- HN2. by destruct (load h2 q). }
  done.
Qed.

Lemma last_with_status_status (h : Heap) (recs : list ptr) (st : string) (r : Migration) :
  last_with_status h recs st = Some r -> Status r = st.
Proof.
  induction recs as [|x recs IH]; [done|]. cbn.
  destruct (last_with_status h recs st) as [r'|]; [by intros [= <-]; apply IH|].
  destruct (String.eqb_spec (Status (load h x)) st); [|done]. by intros [= <-].
Qed.

Lemma last_with_status_None (h : Heap) (recs : list ptr) (st : string) :
  last_with_status h recs st = None <->
  Forall (fun q => Status (load h q) <> st) recs.
Proof.
  induction recs as [|x recs IH]; [done|]. cbn. rewrite Forall_cons, <- IH.
  destruct (last_with_status h recs st) as [r'|].
  - split; [done|]. by intros [_ ?].
  - destruct (String.eqb_spec (Status (load h x)) st); split; try done.
    by intros [? _].
Qed.

Lemma last_with_status_found (h : Heap) (recs : list ptr) (st : string) (q : ptr) :
  q ∈ recs -> Status (load h q) = st ->
  exists r, last_with_status h recs st = Some r /\ Status r = st.
Proof.
  intros Hq Hst.
  destruct (last_with_status h recs st) as [r|] eqn:Hlast.
  - exists r. split; [done|]. by eapply last_with_status_status.
  - apply last_with_status_None in Hlast. rewrite Forall_forall in Hlast.
    by destruct (Hlast q Hq).
Qed.


(** ** The mock store: which record a query returns *)

Lemma last_with_status_latest (h : Heap) (recs : list ptr) (st : string) (r : Migration) :
  last_with_status h recs st = Some r <->
  exists j q, recs !! j = Some q /\ r = load h q /\ Status r = st /\
    forall j' q', (j < j')%nat -> recs !! j' = Some q' -> Status (load h q') <> st.
Proof.
  revert r. induction recs as [|x recs IH]; intros r.
  { split; [done|]. by intros (j & q & Hq & _). }
  cbn [last_with_status].
  destruct (last_with_status h recs st) as [r'|] eqn:Hrest.
  - split.
    + intros [= <-]. destruct (proj1 (IH r') eq_refl) as (j & q & Hq & -> & Hst & Hlater).
      exists (Datatypes.S j), q. split; [done|]. split; [done|]. split; [done|].
      intros [|j'] q' Hj Hq'; [lia|]. apply (Hlater j' q'); [lia|done].
    + intros (j & q & Hq & -> & Hst & Hlater). destruct j as [|j].
      * destruct (proj1 (IH r') eq_refl) as (j & q0 & Hq0 & -> & Hst0 & _).
        destruct (Hlater (Datatypes.S j) q0); [lia|done|done].
      * apply IH. exists j, q. split; [done|]. split; [done|].
        split; [done|]. intros j' q' Hj Hq'. apply (Hlater (Datatypes.S j') q'); [lia|done].
  - apply last_with_status_None in Hrest. rewrite Forall_forall in Hrest.
    destruct (String.eqb_spec (Status (load h x)) st) as [Hx|Hx]; split.
    + intros [= <-]. exists 0%nat, x. split; [done|]. split; [done|]. split; [done|].
      intros [|j'] q' Hj Hq'; [lia|]. apply Hrest. by eapply list_elem_of_lookup_2.
    + intros (j & q & Hq & -> & Hst & Hlater). destruct j as [|j].
      * by injection Hq as <-.
      * destruct (Hrest q); [by eapply list_elem_of_lookup_2|done].
    + done.
    + intros (j & q & Hq & -> & Hst & Hlater). destruct j as [|j].
      * by injection Hq as <-.
      * destruct (Hrest q); [by eapply list_elem_of_lookup_2|done].
Qed.

(** ** The engine on the mock store, first [k] versions applied *)

Lemma last_with_status_app (h : Heap) (l1 l2 : list ptr) (st : string) :
  Forall (fun q => Status (load h q) <> st) l2 ->
  last_with_status h (l1 ++ l2) st = last_with_status h l1 st.
Proof.
  intros Hl2. apply last_with_status_None in Hl2.
  induction l1 as [|x l1 IH]; cbn; [done|]. by rewrite IH.
Qed.

(** [InsertMigration] of the migration at index [i] of the registry, on a
    history in registry order that has the records before it: the record
    [q] at index [i] is the one written, and no other object changes. *)
Lemma mock_insert_at (m : Migrator) (h : Heap) (s : MockSQLStorage) (i : nat) (p : ptr) :
  aligned m h (storage.migrations s) ->
  migrations m !! i = Some p ->
  (i <= List.length (storage.migrations s))%nat ->
  exists h' s' q,
    Mock_InsertMigration p h s = (h', s', None) /\
    aligned m h' (storage.migrations s') /\
    storage.migrations s'
    = (if decide (i < List.length (storage.migrations s))%nat
       then storage.migrations s else storage.migrations s ++ [p]) /\
    storage.migrations s' !! i = Some q /\
    Version (load h q) = Z.of_nat i + 1 /\
    Status (load h' q) = Status (load h p) /\
    (forall x, x <> q -> load h' x = load h x).
Proof.
  intros Hal Hp Hi. unfold Mock_InsertMigration.
  pose proof (aligned_before m h _ i p Hal Hp) as Hbefore.
  destruct (storage.migrations s !! i) as [q|] eqn:Hq.
  - destruct (al_rec _ _ _ Hal i q p Hq Hp) as [HV HN].
    replace (insert_scan h (storage.migrations s) p)
      with (insert_scan h (take i (storage.migrations s)
                             ++ q :: drop (Datatypes.S i) (storage.migrations s)) p)
      by (by rewrite take_drop_middle).
    rewrite (insert_scan_hit _ _ _ _ _ Hbefore HV HN).
    apply lookup_lt_Some in Hq as Hlt.
    exists (overwritten h q p), s, q. split; [done|].
    pose proof (overwritten_keys h q p HV HN) as Hk.
    split; [by eapply aligned_same_keys|].
    destruct (decide (i < List.length (storage.migrations s))%nat); [|lia].
    split; [done|]. split; [done|].
    split; [rewrite HV; by apply (al_reg _ _ _ Hal)|].
    split; [apply overwritten_status|].
    intros x Hx. by apply overwritten_other.
  - apply lookup_ge_None in Hq.
    rewrite take_ge in Hbefore by lia.
    rewrite (insert_scan_miss _ _ _ Hbefore).
    exists h, {| storage.migrations := storage.migrations s ++ [p] |}, p.
    split; [done|]. cbn.
    destruct (decide (i < List.length (storage.migrations s))%nat); [lia|].
    split; [|split; [done|split; [|split; [by apply (al_reg _ _ _ Hal)|done]]]].
    + destruct Hal as [Hlen Hreg Hrec]. split.
      * rewrite length_app. cbn. apply lookup_lt_Some in Hp. lia.
      * done.
      * intros j q' p' Hq' Hp'.
        destruct (decide (j < List.length (storage.migrations s))%nat).
        -- rewrite lookup_app_l in Hq' by done. by eapply Hrec.
        -- assert (j = i) as -> .
           { apply lookup_lt_Some in Hq'. rewrite length_app in Hq'. cbn in Hq'. lia. }
           rewrite lookup_app_r in Hq' by lia.
           replace (i - List.length (storage.migrations s))%nat with 0%nat in Hq' by lia.
           cbn in Hq'. by simplify_eq.
    + rewrite lookup_app_r by lia.
      by replace (i - List.length (storage.migrations s))%nat with 0%nat by lia.
Qed.

(** The same after the migration has been given a status and a time, as
    [executeMigration] does before each write. *)
Lemma mock_write_status (m : Migrator) (h : Heap) (s : MockSQLStorage) (i : nat) (p : ptr)
      (st : string) (t : Z) :
  aligned m h (storage.migrations s) ->
  migrations m !! i = Some p ->
  (i <= List.length (storage.migrations s))%nat ->
  exists h' s',
    Mock_InsertMigration p (poke (poke h p (SetStatus st)) p (SetStatusChangeTime t)) s
    = (h', s', None) /\
    aligned m h' (storage.migrations s') /\
    storage.migrations s'
    = (if decide (i < List.length (storage.migrations s))%nat
       then storage.migrations s else storage.migrations s ++ [p]) /\
    (exists q, storage.migrations s' !! i = Some q /\ Status (load h' q) = st) /\
    (forall j x, j <> i -> storage.migrations s !! j = Some x -> load h' x = load h x).
Proof.
  intros Hal Hp Hi.
  set (h0 := poke (poke h p (SetStatus st)) p (SetStatusChangeTime t)).
  assert (aligned m h0 (storage.migrations s)) as Hal0 by apply aligned_enter, Hal.
  destruct (mock_insert_at m h0 s i p Hal0 Hp Hi)
    as (h' & s' & q & Hins & Hal' & Hrecs & Hq & HVq & Hst & Hother).
  exists h', s'. split; [done|]. split; [done|]. split; [done|]. split.
  { exists q. split; [done|]. rewrite Hst. unfold h0. rewrite !load_poke. done. }
  intros j x Hj Hx.
  assert (is_Some (migrations m !! j)) as [pj Hpj].
  { apply lookup_lt_is_Some. apply lookup_lt_Some in Hx.
    pose proof (al_len _ _ _ Hal0). lia. }
  assert (Version (load h0 x) = Z.of_nat j + 1) as HVx.
  { destruct (al_rec _ _ _ Hal0 j x pj Hx Hpj) as [-> _]. by apply (al_reg _ _ _ Hal0). }
  assert (x <> q) as Hxq by (intros ->; lia).
  assert (x <> p) as Hxp.
  { intros ->. rewrite (al_reg _ _ _ Hal0 i p Hp) in HVx. lia. }
  rewrite (Hother x Hxq). unfold h0. by rewrite !load_poke_ne.
Qed.

Section MockHistory.

Variable goFuncs : GoFunc -> Call MockSQLStorage (option error).
Hypothesis closures_return_nil : forall f h s, goFuncs f h s = (h, s, None).

Arguments Mock_InsertMigration : simpl never.

(** On the mock store, with closures that return nil, a transition of
    the migration at index [i] returns nil, leaves the record at index [i]
    in the final status and changes no other record. *)
Lemma executeMigration_mock (m : Migrator) (w : World MockSQLStorage) (i : nat) (p : ptr)
      (sql : string) (goFunc : option GoFunc) (ps ss es : string) :
  aligned m (heap w) (storage.migrations (store w)) ->
  migrations m !! i = Some p ->
  (i <= List.length (storage.migrations (store w)))%nat ->
  exists w',
    executeMigration Mock goFuncs p sql goFunc ps ss es w = (w', Ret None) /\
    aligned m (heap w') (storage.migrations (store w')) /\
    storage.migrations (store w')
    = (if decide (i < List.length (storage.migrations (store w)))%nat
       then storage.migrations (store w) else storage.migrations (store w) ++ [p]) /\
    (exists q, storage.migrations (store w') !! i = Some q /\
               Status (load (heap w') q) = ss) /\
    (forall j x, j <> i -> storage.migrations (store w) !! j = Some x ->
                 load (heap w') x = load (heap w) x) /\
    exists evs, trace w' = trace w ++ evs /\
                transition p sql goFunc ps ss es evs None.
Proof.
  intros Hal Hp Hi.
  destruct (executeMigration_log Mock goFuncs p sql goFunc ps ss es w)
    as (evs & e & Hres & Htrace & Htrans).
  revert Hres Htrace.
  unfold executeMigration, bind, update, time_Now,
    storage_InsertMigration, storage_Migrate, callGo, invoke, ret.
  cbn.
  destruct (mock_write_status m (heap w) (store w) i p ps (clock w) Hal Hp Hi)
    as (h2 & s2 & Hins2 & Hal2 & Hrecs2 & (q2 & Hq2 & _) & Hoth2).
  rewrite Hins2. cbn.
  assert (i < List.length (storage.migrations s2))%nat as Hi2
    by (by apply lookup_lt_Some in Hq2).
  assert (forall t,
    exists h4 s4,
      Mock_InsertMigration p (poke (poke h2 p (SetStatus ss)) p (SetStatusChangeTime t)) s2
      = (h4, s4, None) /\
      aligned m h4 (storage.migrations s4) /\
      storage.migrations s4 = storage.migrations s2 /\
      (exists q, storage.migrations s4 !! i = Some q /\ Status (load h4 q) = ss) /\
      (forall j x, j <> i -> storage.migrations (store w) !! j = Some x ->
                   load h4 x = load (heap w) x)) as Hsecond.
  { intros t.
    destruct (mock_write_status m h2 s2 i p ss t Hal2 Hp) as
      (h4 & s4 & Hins4 & Hal4 & Hrecs4 & Hq4 & Hoth4); [lia|].
    destruct (decide (i < List.length (storage.migrations s2))%nat); [|lia].
    exists h4, s4. split; [done|]. split; [done|]. split; [done|]. split; [done|].
    intros j x Hj Hx. rewrite (Hoth4 j x Hj); [by apply (Hoth2 j)|].
    rewrite Hrecs2. destruct (decide _); [done|].
    by apply lookup_app_l_Some. }
  destruct goFunc as [f|]; [rewrite closures_return_nil|destruct (String.eqb sql "")]; cbn;
    match goal with
    | |- context [Mock_InsertMigration _ (poke (poke _ _ _) _ (SetStatusChangeTime ?t)) _] =>
        destruct (Hsecond t) as (h4 & s4 & Hins4 & Hal4 & Hrecs4 & Hq4 & Hoth4)
    end; rewrite Hins4; cbn; intros [= <-] Htrace;
    eexists; (split; [reflexivity|]); cbn;
    (split; [done|]); (split; [by rewrite Hrecs4|]); (split; [done|]);
    (split; [done|]); by exists evs.
Qed.

Arguments executeMigration : simpl never.

(** With the first [k] versions applied, [k >= 1], the last successful
    record is that of version [k]. *)
Lemma applied_last (m : Migrator) (h : Heap) (recs : list ptr) (k : nat) :
  applied m h recs (Datatypes.S k) ->
  exists q p,
    recs !! k = Some q /\ migrations m !! k = Some p /\
    last_with_status h recs StatusSuccess = Some (load h q) /\
    Version (load h q) = Z.of_nat k + 1.
Proof.
  intros [Hal Hlen Hdone Hrest].
  assert (is_Some (recs !! k)) as [q Hq] by (apply lookup_lt_is_Some; lia).
  assert (is_Some (migrations m !! k)) as [p Hp].
  { apply lookup_lt_is_Some. pose proof (al_len _ _ _ Hal). lia. }
  exists q, p. split; [done|]. split; [done|]. split.
  - rewrite <- (take_drop (Datatypes.S k) recs).
    rewrite last_with_status_app.
    2:{ apply Forall_forall. intros x Hx.
        apply list_elem_of_lookup in Hx as [j Hj]. rewrite lookup_drop in Hj.
        apply (Hrest _ _ Hj). lia. }
    apply last_with_status_last; [|apply (Hdone k); [done|lia]].
    rewrite last_lookup, length_take.
    replace (Init.Nat.pred (Datatypes.S k `min` List.length recs)) with k by lia.
    rewrite lookup_take_lt by lia. done.
  - destruct (al_rec _ _ _ Hal k q p Hq Hp) as [-> _]. by apply (al_reg _ _ _ Hal).
Qed.

Lemma DBVersion_mock_applied (m : Migrator) (w : World MockSQLStorage) (k : nat) :
  applied m (heap w) (storage.migrations (store w)) (Datatypes.S k) ->
  snd (DBVersion Mock w) = Ret (Some (Z.of_nat k + 1), None).
Proof.
  intros Hap. destruct (applied_last _ _ _ _ Hap) as (q & p & _ & _ & Hlast & HV).
  unfold DBVersion, bind, storage_SelectLastMigrationByStatus, invoke, ret.
  cbn. unfold Mock_SelectLastMigrationByStatus. rewrite Hlast. cbn. by rewrite HV.
Qed.

(** The same, read off the history afterwards: it has a record at index
    [i], in the final status; the others are those it had, in the status
    they had. *)
Lemma executeMigration_mock_at (m : Migrator) (w : World MockSQLStorage)
      (i : nat) (p : ptr) (sql : string) (goFunc : option GoFunc) (ps ss es : string) :
  aligned m (heap w) (storage.migrations (store w)) ->
  migrations m !! i = Some p ->
  (i <= List.length (storage.migrations (store w)))%nat ->
  exists w',
    executeMigration Mock goFuncs p sql goFunc ps ss es w = (w', Ret None) /\
    aligned m (heap w') (storage.migrations (store w')) /\
    (i < List.length (storage.migrations (store w')))%nat /\
    (List.length (storage.migrations (store w)) <= List.length (storage.migrations (store w')))%nat /\
    (exists q, storage.migrations (store w') !! i = Some q /\
               Status (load (heap w') q) = ss) /\
    (forall j q, j <> i -> storage.migrations (store w') !! j = Some q ->
       storage.migrations (store w) !! j = Some q /\
       Status (load (heap w') q) = Status (load (heap w) q)) /\
    exists evs, trace w' = trace w ++ evs /\
                transition p sql goFunc ps ss es evs None.
Proof.
  intros Hal Hp Hi.
  destruct (executeMigration_mock m w i p sql goFunc ps ss es Hal Hp Hi)
    as (w' & Hrun & Hal' & Hrecs & (q & Hq & Hst) & Hoth & Hevs).
  exists w'. split; [done|]. split; [done|].
  split; [by apply lookup_lt_Some in Hq|].
  split; [rewrite Hrecs; destruct (decide _); [done|rewrite length_app; lia]|].
  split; [by exists q|]. split; [|done].
  intros j x Hj Hx.
  assert (storage.migrations (store w) !! j = Some x) as Hx0.
  { rewrite Hrecs in Hx. destruct (decide _); [done|].
    apply lookup_app_Some in Hx as [Hx|[Hge Hx]]; [done|].
    apply list_lookup_singleton_Some in Hx as [Hz _]. lia. }
  split; [done|]. by rewrite (Hoth j x Hj Hx0).
Qed.

Lemma elem_at (m : Migrator) (i : nat) (p : ptr) :
  migrations m !! i = Some p -> elem m (Z.of_nat i) = Some p.
Proof.
  intros Hp. unfold elem, len. apply lookup_lt_Some in Hp as Hlt.
  destruct (Z.ltb_spec (Z.of_nat i) 0); [lia|].
  destruct (Z.leb_spec (Z.of_nat (List.length (migrations m))) (Z.of_nat i)); [lia|].
  by rewrite Nat2Z.id.
Qed.

(** [Down] with the first [k + 1] versions applied rolls back version
    [k + 1] and nothing else. *)
Lemma Down_mock_applied (m : Migrator) (w : World MockSQLStorage) (k : nat) :
  applied m (heap w) (storage.migrations (store w)) (Datatypes.S k) ->
  len m <= int_max ->
  exists w1 p evs last,
    Down Mock goFuncs m w = (w1, Ret None) /\
    applied m (heap w1) (storage.migrations (store w1)) k /\
    migrations m !! k = Some p /\
    Version last = Z.of_nat k + 1 /\
    trace w1 = trace w ++ [ELock None; ESelectLast StatusSuccess (Some last, None)]
                 ++ evs ++ [EUnlock None] /\
    transition p (storage.Down (load (heap w) p)) (DownGo (load (heap w) p))
               StatusCancellation StatusCancel StatusError evs None.
Proof.
  intros Hap Hmax.
  destruct (applied_last _ _ _ _ Hap) as (q & p & Hq & Hp & Hlast & HV).
  pose proof (ap_aligned _ _ _ _ Hap) as Hal.
  apply lookup_lt_Some in Hp as Hklen.
  destruct (executeMigration_mock_at m
              (mkWorld (heap w) (store w) (clock w)
                 (trace w ++ [ELock None]
                    ++ [ESelectLast StatusSuccess (Some (load (heap w) q), None)]))
              k p (storage.Down (load (heap w) p)) (DownGo (load (heap w) p))
              StatusCancellation StatusCancel StatusError Hal Hp)
    as (w' & Hrun & Hal' & Hlt' & Hlen' & (q' & Hq' & Hst') & Hoth & evs & Htrace & Htrans).
  { cbn. apply lookup_lt_Some in Hq. lia. }
  cbn in Hlen', Hoth, Htrace. change (St Mock) with MockSQLStorage in *.
  exists (mkWorld (heap w') (store w') (clock w') (trace w' ++ [EUnlock None])),
    p, evs, (load (heap w) q).
  split.
  { unfold Down, bind, defer, storage_Lock, storage_Unlock,
      storage_SelectLastMigrationByStatus, invoke, ret, panic, index, deref, downMigration.
    cbn. unfold Mock_SelectLastMigrationByStatus. rewrite Hlast. cbn.
    rewrite HV. destruct (Z.ltb_spec (len m) (Z.of_nat k + 1)) as [Hlt|_].
    { unfold len in Hlt. lia. }
    unfold int_sub. rewrite wrap_int_small by (unfold int_min, len in *; lia).
    replace (Z.of_nat k + 1 - 1) with (Z.of_nat k) by lia.
    rewrite (elem_at m k p Hp). cbn.
    rewrite <- app_assoc. change (St Mock) with MockSQLStorage in *.
    rewrite Hrun. done. }
  split; [|split; [done|split; [done|split; [|done]]]].
  - cbn. destruct Hap as [_ Hlen Hdone Hrest]. split; [done|lia| |].
    + intros j x Hx Hj.
      destruct (Hoth j x) as [Hx0 ->]; [lia|done|]. apply (Hdone j x Hx0). lia.
    + intros j x Hx Hj. destruct (decide (j = k)) as [->|Hne].
      * rewrite Hq' in Hx. injection Hx as <-. by rewrite Hst'.
      * destruct (Hoth j x) as [Hx0 ->]; [done|done|]. apply (Hrest j x Hx0). lia.
  - cbn. rewrite Htrace. cbn. by rewrite <- !app_assoc.
Qed.

(** The loop of [Up] from index [i], the records before [i] being
    successful: it returns nil, has entered every migration from [i] on,
    and then all records are there and successful. *)
Lemma up_loop_mock_applied (m : Migrator) (n : nat) : forall (i : nat) (w : World MockSQLStorage),
  aligned m (heap w) (storage.migrations (store w)) ->
  (i <= List.length (storage.migrations (store w)))%nat ->
  (forall j q, storage.migrations (store w) !! j = Some q -> (j < i)%nat ->
               Status (load (heap w) q) = StatusSuccess) ->
  (i + n)%nat = List.length (migrations m) ->
  exists w',
    up_loop Mock goFuncs m (Z.of_nat i) n w = (w', Ret None) /\
    aligned m (heap w') (storage.migrations (store w')) /\
    (i + n <= List.length (storage.migrations (store w')))%nat /\
    (forall j q, storage.migrations (store w') !! j = Some q -> (j < i + n)%nat ->
                 Status (load (heap w') q) = StatusSuccess) /\
    exists evs, trace w' = trace w ++ evs /\
                entered StatusProcess evs = drop i (migrations m).
Proof.
  induction n as [|n IH]; intros i w Hal Hi Hdone Hn;
    change (St Mock) with MockSQLStorage in *.
  { exists w. split; [done|]. split; [done|]. split; [lia|].
    split; [intros j q Hq Hj; apply (Hdone j q Hq); lia|].
    exists []. rewrite app_nil_r. split; [done|]. by rewrite drop_ge by lia. }
  assert (is_Some (migrations m !! i)) as [p Hp]
    by (apply lookup_lt_is_Some; lia).
  rewrite up_loop_step, (elem_at m i p Hp). unfold upMigration.
  destruct (executeMigration_mock_at m w i p (storage.Up (load (heap w) p))
              (UpGo (load (heap w) p)) StatusProcess StatusSuccess StatusError Hal Hp Hi)
    as (w1 & Hrun & Hal1 & Hlt1 & Hlen1 & (q1 & Hq1 & Hst1) & Hoth & evs1 & Htrace1 & Htrans).
  change (St Mock) with MockSQLStorage in *. rewrite Hrun.
  replace (Z.of_nat i + 1) with (Z.of_nat (Datatypes.S i)) by lia.
  destruct (IH (Datatypes.S i) w1 Hal1) as (w' & Hloop & Hal' & Hlen' & Hdone' & evs' & Htrace' & Hent');
    [lia| |lia|].
  { intros j q Hq Hj. destruct (decide (j = i)) as [->|Hne].
    - rewrite Hq1 in Hq. injection Hq as <-. done.
    - destruct (Hoth j q Hne Hq) as [Hq0 ->]. apply (Hdone j q Hq0). lia. }
  exists w'. split; [done|]. split; [done|]. split; [lia|]. split.
  { intros j q Hq Hj. apply (Hdone' j q Hq). lia. }
  exists (evs1 ++ evs'). split; [by rewrite Htrace', Htrace1, <- app_assoc|].
  destruct (transition_up_entered _ _ _ _ _ Htrans) as [Hent1 _].
  by rewrite entered_app, Hent1, Hent', (drop_S _ _ _ Hp).
Qed.

(** [Up] with the first [k + 1] versions applied applies all the others. *)
Lemma Up_mock_applied (m : Migrator) (w : World MockSQLStorage) (k : nat) :
  applied m (heap w) (storage.migrations (store w)) (Datatypes.S k) ->
  exists w1 evs last,
    Up Mock goFuncs m w = (w1, Ret None) /\
    applied m (heap w1) (storage.migrations (store w1)) (List.length (migrations m)) /\
    Version last = Z.of_nat k + 1 /\
    trace w1 = trace w ++ [ELock None; ESelectLast StatusSuccess (Some last, None)]
                 ++ evs ++ [EUnlock None] /\
    entered StatusProcess evs = drop (Datatypes.S k) (migrations m).
Proof.
  intros Hap.
  destruct (applied_last _ _ _ _ Hap) as (q & p & Hq & Hp & Hlast & HV).
  destruct Hap as [Hal Hlen Hdone Hrest].
  apply lookup_lt_Some in Hp as Hklen.
  destruct (up_loop_mock_applied m (List.length (migrations m) - Datatypes.S k) (Datatypes.S k)
              (mkWorld (heap w) (store w) (clock w)
                 (trace w ++ [ELock None]
                    ++ [ESelectLast StatusSuccess (Some (load (heap w) q), None)])))
    as (w' & Hloop & Hal' & Hlen' & Hdone' & evs & Htrace & Hent); [done|done|done|lia|].
  cbn in Htrace. change (St Mock) with MockSQLStorage in *.
  replace (Datatypes.S k + (List.length (migrations m) - Datatypes.S k))%nat
    with (List.length (migrations m)) in * by lia.
  exists (mkWorld (heap w') (store w') (clock w') (trace w' ++ [EUnlock None])),
    evs, (load (heap w) q).
  split.
  { unfold Up, bind, defer, storage_Lock, storage_Unlock,
      storage_SelectLastMigrationByStatus, invoke, lift, ret.
    cbn. unfold Mock_SelectLastMigrationByStatus. rewrite Hlast. cbn.
    rewrite HV. destruct (Z.ltb_spec (len m) (int_sub (Z.of_nat k + 1) 1)) as [Hb|_].
    { pose proof (int_sub_one_lt (Z.of_nat k + 1)). unfold len in *. lia. }
    replace (Z.to_nat (len m - (Z.of_nat k + 1)))
      with (List.length (migrations m) - Datatypes.S k)%nat by (unfold len; lia).
    replace (Z.of_nat k + 1) with (Z.of_nat (Datatypes.S k)) by lia.
    rewrite <- app_assoc. change (St Mock) with MockSQLStorage in *.
    rewrite Hloop. done. }
  split; [|split; [done|split; [|done]]].
  - cbn. split; [done|done|done|].
    intros j x Hx Hj. apply lookup_lt_Some in Hx.
    pose proof (al_len _ _ _ Hal'). lia.
  - cbn. rewrite Htrace. by rewrite <- !app_assoc.
Qed.

(** [Redo] with the first [k + 2] versions applied rolls back version
    [k + 2] and applies it again. *)
Lemma Redo_mock_applied (m : Migrator) (w : World MockSQLStorage) (k : nat) :
  applied m (heap w) (storage.migrations (store w)) (Datatypes.S (Datatypes.S k)) ->
  len m <= int_max ->
  exists w3 p evs,
    Redo Mock goFuncs m w = (w3, Ret None) /\
    applied m (heap w3) (storage.migrations (store w3)) (Datatypes.S (Datatypes.S k)) /\
    migrations m !! Datatypes.S k = Some p /\
    trace w3 = trace w ++ evs /\
    entered StatusCancellation evs = [p] /\ entered StatusProcess evs = [p].
Proof.
  intros Hap Hmax.
  destruct (Down_mock_applied m w (Datatypes.S k) Hap Hmax)
    as (w1 & p & evs1 & last & HDown & Hap1 & Hp & _ & Htrace1 & Htrans1).
  destruct (applied_last _ _ _ _ Hap1) as (q & pk & Hq & Hpk & Hlast & HV).
  pose proof (ap_aligned _ _ _ _ Hap1) as Hal1.
  change (St Mock) with MockSQLStorage in *.
  pose proof (Redo_after_Down Mock goFuncs m w w1 (heap w1) (store w1)
                (Some (load (heap w1) q), None) (Z.of_nat k + 1) HDown) as HRedo.
  rewrite HRedo; clear HRedo.
  2:{ cbn. unfold Mock_SelectLastMigrationByStatus. by rewrite Hlast. }
  2:{ cbn. by rewrite HV. }
  2:{ cbn. rewrite HV. apply Z.ltb_ge.
      pose proof (int_sub_one_lt (Z.of_nat k + 1)).
      apply lookup_lt_Some in Hpk. unfold len. lia. }
  cbn zeta. replace (Z.of_nat k + 1) with (Z.of_nat (Datatypes.S k)) by lia.
  rewrite (elem_at m _ p Hp). unfold upMigration.
  destruct (executeMigration_mock_at m
              (mkWorld (heap w1) (store w1) (clock w1)
                 (trace w1 ++ [ESelectLast StatusSuccess (Some (load (heap w1) q), None)]))
              (Datatypes.S k) p (storage.Up (load (heap w1) p)) (UpGo (load (heap w1) p))
              StatusProcess StatusSuccess StatusError Hal1 Hp)
    as (w3 & Hrun & Hal3 & Hlt3 & Hlen3 & (q3 & Hq3 & Hst3) & Hoth & evs3 & Htrace3 & Htrans3).
  { cbn. pose proof (ap_len _ _ _ _ Hap1). lia. }
  cbn in Hlen3, Hoth, Htrace3. change (St Mock) with MockSQLStorage in *.
  rewrite Hrun.
  exists w3, p, ([ELock None; ESelectLast StatusSuccess (Some last, None)] ++ evs1
                 ++ [EUnlock None]
                 ++ [ESelectLast StatusSuccess (Some (load (heap w1) q), None)] ++ evs3).
  split; [done|]. split; [|split; [done|split; [|split]]].
  - destruct Hap1 as [_ Hlen1 Hdone1 Hrest1]. split; [done|lia| |].
    + intros j x Hx Hj. destruct (decide (j = Datatypes.S k)) as [->|Hne].
      * rewrite Hq3 in Hx. injection Hx as <-. done.
      * destruct (Hoth j x Hne Hx) as [Hx0 ->]. apply (Hdone1 j x Hx0). lia.
    + intros j x Hx Hj.
      destruct (Hoth j x) as [Hx0 ->]; [lia|done|]. apply (Hrest1 j x Hx0). lia.
  - rewrite Htrace3, Htrace1. by repeat (rewrite <- app_assoc; cbn).
  - destruct (transition_down_entered _ _ _ _ _ Htrans1) as [Hc _].
    destruct (transition_up_entered _ _ _ _ _ Htrans3) as [_ Hc3].
    cbn. rewrite !entered_app, Hc. cbn. by rewrite Hc3.
  - destruct (transition_down_entered _ _ _ _ _ Htrans1) as [_ Hc].
    destruct (transition_up_entered _ _ _ _ _ Htrans3) as [Hc3 _].
    cbn. rewrite !entered_app, Hc. cbn. by rewrite Hc3.
Qed.

(** [Redo] with only version 1 applied: the mock store has no successful
    record left after the rollback, and its answer ends the call. *)
Lemma Redo_mock_single (m : Migrator) (w : World MockSQLStorage) :
  applied m (heap w) (storage.migrations (store w)) 1 ->
  len m <= int_max ->
  exists w2 p evs,
    Redo Mock goFuncs m w
    = (w2, Ret (Some (errorString "no migrations found with status success"))) /\
    applied m (heap w2) (storage.migrations (store w2)) 0 /\
    migrations m !! 0%nat = Some p /\
    trace w2 = trace w ++ evs /\
    entered StatusCancellation evs = [p] /\ entered StatusProcess evs = [].
Proof.
  intros Hap Hmax.
  destruct (Down_mock_applied m w 0 Hap Hmax)
    as (w1 & p & evs1 & last & HDown & Hap1 & Hp & _ & Htrace1 & Htrans1).
  change (St Mock) with MockSQLStorage in *.
  assert (last_with_status (heap w1) (storage.migrations (store w1)) StatusSuccess = None)
    as Hnone.
  { apply last_with_status_None, Forall_forall. intros x Hx.
    apply list_elem_of_lookup in Hx as [j Hj]. apply (ap_rest _ _ _ _ Hap1 j x Hj). lia. }
  exists (mkWorld (heap w1) (store w1) (clock w1)
            (trace w1 ++ [ESelectLast StatusSuccess
               (None, Some (errorString "no migrations found with status success"))])),
    p, ([ELock None; ESelectLast StatusSuccess (Some last, None)] ++ evs1 ++ [EUnlock None]
        ++ [ESelectLast StatusSuccess
              (None, Some (errorString "no migrations found with status success"))]).
  split.
  { unfold Redo, bind at 1. change (St Mock) with MockSQLStorage in *. rewrite HDown.
    unfold bind, storage_SelectLastMigrationByStatus, invoke, lift, ret.
    cbn. unfold Mock_SelectLastMigrationByStatus. rewrite Hnone. done. }
  split; [done|]. split; [done|]. split; [|split].
  - cbn. rewrite Htrace1. by repeat (rewrite <- app_assoc; cbn).
  - destruct (transition_down_entered _ _ _ _ _ Htrans1) as [Hc _].
    cbn. rewrite !entered_app, Hc. done.
  - destruct (transition_down_entered _ _ _ _ _ Htrans1) as [_ Hc].
    cbn. rewrite !entered_app, Hc. done.
Qed.

(** The mock store refuses no write and fails no statement: a transition
    on it writes the transient and then the completed status, and returns
    nil. *)
Lemma performed_mock p sql goFunc ps ss es (w w' : World MockSQLStorage) e :
  performed Mock goFuncs p sql goFunc ps ss es w w' e ->
  e = None /\
  exists evs, trace w' = trace w ++ evs /\ writes evs = [(p, ps); (p, ss)].
Proof.
  assert (forall q h s h' s' x, InsertMigration Mock q h s = (h', s', x) -> x = None)
    as Hins.
  { intros q h s h' s' x. cbn. unfold Mock_InsertMigration.
    destruct (insert_scan h (storage.migrations s) q); by intros [= _ _ <-]. }
  destruct 1 as [h1 s1 e H1|h1 s1 acts a h2 s2 h3 s3 e H1 Hact H3].
  { by apply Hins in H1. }
  apply Hins in H3 as ->. split; [done|].
  eexists. split; [reflexivity|].
  destruct Hact as [f h' s' a Hg Hf|h' s' a Hg Hsql Hm|Hg Hsql].
  - rewrite closures_return_nil in Hf. by injection Hf as <- <- <-.
  - cbn in Hm. by injection Hm as <- <- <-.
  - done.
Qed.

(** [Redo] with the first [k + 2] versions applied, call by call: the
    down transition of the migration of version [k + 2] under the lock,
    then the query again, which names version [k + 1], and the up
    transition of that same migration. *)
Lemma Redo_mock_performs (m : Migrator) (w : World MockSQLStorage) (k : nat) :
  applied m (heap w) (storage.migrations (store w)) (Datatypes.S (Datatypes.S k)) ->
  len m <= int_max ->
  exists p last prev w2 w3,
    migrations m !! Datatypes.S k = Some p /\
    Version (load (heap w) p) = Z.of_nat k + 2 /\
    Version last = Z.of_nat k + 2 /\
    Version prev = Z.of_nat k + 1 /\
    performed Mock goFuncs p (storage.Down (load (heap w) p)) (DownGo (load (heap w) p))
      StatusCancellation StatusCancel StatusError
      (mkWorld (heap w) (store w) (clock w)
         (trace w ++ [ELock None; ESelectLast StatusSuccess (Some last, None)]))
      w2 None /\
    performed Mock goFuncs p (storage.Up (load (heap w2) p)) (UpGo (load (heap w2) p))
      StatusProcess StatusSuccess StatusError
      (mkWorld (heap w2) (store w2) (clock w2)
         (trace w2 ++ [EUnlock None; ESelectLast StatusSuccess (Some prev, None)]))
      w3 None /\
    Redo Mock goFuncs m w = (w3, Ret None) /\
    applied m (heap w3) (storage.migrations (store w3)) (Datatypes.S (Datatypes.S k)).
Proof.
  intros Hap Hmax.
  destruct (applied_last _ _ _ _ Hap) as (q & p & Hq & Hp & Hlast & HV).
  pose proof (ap_aligned _ _ _ _ Hap) as Hal.
  apply lookup_lt_Some in Hp as Hklen.
  assert (SelectLastMigrationByStatus Mock StatusSuccess (heap w) (store w)
          = (heap w, store w, (Some (load (heap w) q), None))) as HS.
  { cbn. unfold Mock_SelectLastMigrationByStatus. by rewrite Hlast. }
  assert (1 <= Version (load (heap w) q) <= len m) as HVr by (unfold len; lia).
  destruct (elem_version m _ HVr Hmax) as [Hel _].
  rewrite HV in Hel at 2.
  replace (Z.to_nat (Z.of_nat (Datatypes.S k) + 1 - 1)) with (Datatypes.S k) in Hel by lia.
  rewrite Hp in Hel.
  destruct (Down_performs Mock goFuncs m w (heap w) (store w) (heap w) (store w)
              (load (heap w) q) p eq_refl HS) as (w2 & e & h4 & s4 & u & Hperf & HU & HDown);
    [apply Z.ltb_ge; lia|exact Hel|].
  cbn in HU. injection HU as <- <- <-.
  destruct (performed_mock _ _ _ _ _ _ _ _ _ Hperf) as [-> _].
  destruct (Down_mock_applied m w (Datatypes.S k) Hap Hmax)
    as (w1 & p' & evs1 & last & HDown' & Hap1 & Hp' & _).
  change (St Mock) with MockSQLStorage in *.
  rewrite HDown in HDown'. injection HDown' as <-. cbn in Hap1.
  destruct (applied_last _ _ _ _ Hap1) as (q1 & pk & Hq1 & Hpk & Hlast1 & HV1).
  pose proof (ap_aligned _ _ _ _ Hap1) as Hal1.
  pose proof (Redo_after_Down Mock goFuncs m w _ (heap w2) (store w2)
                (Some (load (heap w2) q1), None) (Z.of_nat k + 1) HDown) as HRedo.
  rewrite HRedo; clear HRedo.
  2:{ cbn. unfold Mock_SelectLastMigrationByStatus. by rewrite Hlast1. }
  2:{ cbn. by rewrite HV1. }
  2:{ cbn. rewrite HV1. apply Z.ltb_ge.
      pose proof (int_sub_one_lt (Z.of_nat k + 1)).
      apply lookup_lt_Some in Hpk. unfold len. lia. }
  cbn zeta. replace (Z.of_nat k + 1) with (Z.of_nat (Datatypes.S k)) by lia.
  rewrite (elem_at m _ p Hp). unfold upMigration. cbn [heap store clock trace].
  rewrite <- app_assoc. cbn [app].
  match goal with
  | |- context [executeMigration Mock goFuncs p ?sql ?g ?a ?b ?c ?w0] =>
      destruct (executeMigration_performed Mock goFuncs p sql g a b c w0)
        as (w3 & e3 & Hrun & Hperf3);
      destruct (executeMigration_mock_at m w0
                  (Datatypes.S k) p sql g a b c Hal1 Hp)
        as (w3' & Hrun' & Hal3 & Hlt3 & Hlen3 & (q3 & Hq3 & Hst3) & Hoth & _)
  end.
  { cbn. pose proof (ap_len _ _ _ _ Hap1). lia. }
  change (St Mock) with MockSQLStorage in *.
  rewrite Hrun in Hrun'. injection Hrun' as <- ->. rewrite Hrun.
  exists p, (load (heap w) q), (load (heap w2) q1), w2, w3.
  split; [done|]. split; [rewrite (al_reg _ _ _ Hal _ _ Hp); lia|].
  split; [lia|]. split; [lia|]. split; [done|]. split; [done|]. split; [done|].
  cbn in Hlen3, Hoth.
  destruct Hap1 as [_ Hlen1 Hdone1 Hrest1]. split; [done|lia| |].
  - intros j x Hx Hj. destruct (decide (j = Datatypes.S k)) as [->|Hne].
    + rewrite Hq3 in Hx. injection Hx as <-. done.
    + destruct (Hoth j x Hne Hx) as [Hx0 ->]. apply (Hdone1 j x Hx0). lia.
  - intros j x Hx Hj.
    destruct (Hoth j x) as [Hx0 ->]; [lia|done|]. apply (Hrest1 j x Hx0). lia.
Qed.

End MockHistory.

Lemma DBVersion_mock_none (w : World MockSQLStorage) :
  Forall (fun q => Status (load (heap w) q) <> StatusSuccess)
         (storage.migrations (store w)) ->
  snd (DBVersion Mock w) = Ret (None, Some ErrGetVersion).
Proof.
  intros Hall. apply last_with_status_None in Hall.
  unfold DBVersion, bind, storage_SelectLastMigrationByStatus, invoke, ret.
  cbn. unfold Mock_SelectLastMigrationByStatus. by rewrite Hall.
Qed.

Lemma applied_none (m : Migrator) (h : Heap) (recs : list ptr) :
  applied m h recs 0 -> Forall (fun q => Status (load h q) <> StatusSuccess) recs.
Proof.
  intros Hap. apply Forall_forall. intros x Hx.
  apply list_elem_of_lookup in Hx as [j Hj]. apply (ap_rest _ _ _ _ Hap j x Hj). lia.
Qed.

(** ** [Up] over an arbitrary store: when it stops *)

(** A transition that returns an error ends with the write the store
    refused. *)
Lemma transition_refused_last p sql g ps ss es evs e :
  transition p sql g ps ss es evs (Some e) ->
  exists evs' r, evs = evs' ++ [EInsert p r (Some e)].
Proof.
  inversion 1; subst.
  - by exists [], r1.
  - by exists [EInsert p r1 None; EGoFunc f None], r2.
  - by exists [EInsert p r1 None; EGoFunc f (Some e0)], r2.
  - by exists [EInsert p r1 None; EMigrate sql None], r2.
  - by exists [EInsert p r1 None; EMigrate sql (Some e0)], r2.
  - by exists [EInsert p r1 None], r2.
Qed.

(** The loop of [Up] from index [i]: it enters the migrations in the
    order of the registry and either enters them all and returns nil, or
    stops after one whose status the store refused to write. *)
Lemma up_loop_outcome (S : SQLStorage) (goFuncs : GoFunc -> Call (St S) (option error))
      (m : Migrator) (n : nat) : forall (i : Z) (w : World (St S)),
  0 <= i ->
  (Z.to_nat i + n)%nat = List.length (migrations m) ->
  exists evs k,
    trace (fst (up_loop S goFuncs m i n w)) = trace w ++ evs /\
    entered StatusProcess evs = take k (drop (Z.to_nat i) (migrations m)) /\
    forallb is_work evs = true /\
    ((snd (up_loop S goFuncs m i n w) = Ret None /\ k = n) \/
     (snd (up_loop S goFuncs m i n w) = Ret (Some ErrMigrationUp) /\
      (1 <= k <= n)%nat /\
      exists evs' p r e,
        evs = evs' ++ [EInsert p r (Some e)] /\
        migrations m !! (Z.to_nat i + k - 1)%nat = Some p)).
Proof.
  induction n as [|n IH]; intros i w Hi Hn.
  { exists [], 0%nat. rewrite app_nil_r. split; [done|]. split; [done|].
    split; [done|]. by left. }
  assert (is_Some (migrations m !! Z.to_nat i)) as [p Hp]
    by (apply lookup_lt_is_Some; lia).
  assert (elem m i = Some p) as Hel.
  { unfold elem, len.
    destruct (Z.ltb_spec i 0); [lia|].
    destruct (Z.leb_spec (Z.of_nat (List.length (migrations m))) i); [lia|done]. }
  rewrite up_loop_step, Hel. unfold upMigration.
  match goal with
  | |- context [executeMigration S goFuncs ?p ?q ?g ?a ?b ?c ?w0] =>
      destruct (executeMigration_log S goFuncs p q g a b c w0) as (evs & e & Hr & Ht & Htr);
      destruct (executeMigration S goFuncs p q g a b c w0) as [w3 res]
  end.
  cbn in Hr, Ht. subst res.
  destruct (transition_up_entered _ _ _ _ _ Htr) as [Hent _].
  pose proof (transition_work _ _ _ _ _ _ _ _ Htr) as Hwork.
  rewrite (drop_S _ _ _ Hp).
  destruct e as [e|]; cbn.
  - exists evs, 1%nat. split; [done|]. split; [by rewrite Hent|]. split; [done|].
    right. split; [done|]. split; [lia|].
    destruct (transition_refused_last _ _ _ _ _ _ _ _ Htr) as (evs' & r & ->).
    exists evs', p, r, e. split; [done|].
    by replace (Z.to_nat i + 1 - 1)%nat with (Z.to_nat i) by lia.
  - destruct (IH (i + 1) w3) as (evs' & k & Ht' & Hent' & Hwork' & Hout); [lia|lia|].
    exists (evs ++ evs'), (Datatypes.S k). split.
    { by rewrite Ht', Ht, <- app_assoc. }
    split.
    { rewrite entered_app, Hent, Hent'. cbn.
      by replace (Z.to_nat (i + 1)) with (Datatypes.S (Z.to_nat i)) by lia. }
    split; [by rewrite forallb_app, Hwork, Hwork'|].
    destruct Hout as [[Hres ->]|(Hres & Hk & evs'' & p' & r & e & -> & Hp')].
    + by left.
    + right. split; [done|]. split; [lia|].
      exists (evs ++ evs''), p', r, e. split; [by rewrite app_assoc|].
      replace (Z.to_nat i + Datatypes.S k - 1)%nat
        with (Z.to_nat (i + 1) + k - 1)%nat by lia. done.
Qed.

(** The log of an [Up] that got the lock. *)
Lemma Up_trace_shape (S : SQLStorage) (goFuncs : GoFunc -> Call (St S) (option error))
      (m : Migrator) (w : World (St S)) h1 s1 :
  Lock S (heap w) (store w) = (h1, s1, None) ->
  exists rest u,
    trace (fst (Up S goFuncs m w)) = trace w ++ ELock None :: rest ++ [EUnlock u] /\
    forallb is_work rest = true.
Proof.
  intros HL.
  unfold Up, bind, defer, storage_Lock, storage_Unlock,
    storage_SelectLastMigrationByStatus, invoke, lift, ret.
  rewrite HL. cbn.
  destruct (SelectLastMigrationByStatus S StatusSuccess h1 s1) as [[h2 s2] r]; cbn.
  destruct (lastVersionOf r) as [[lv|e]|msg]; cbn.
  - destruct (versionBeyond m r.1); cbn.
    + destruct (Unlock S h2 s2) as [[? ?] u]; cbn.
      exists [ESelectLast StatusSuccess r], u. by rewrite <- !app_assoc.
    + match goal with
      | |- context [up_loop S goFuncs m ?i ?n ?w0] =>
          destruct (up_loop_log S goFuncs m n i w0) as (evs & Ht & Hw);
          destruct (up_loop S goFuncs m i n w0) as [w3 res]
      end.
      cbn in Ht.
      destruct (Unlock S (heap w3) (store w3)) as [[? ?] u]; cbn.
      exists (ESelectLast StatusSuccess r :: evs), u. split; [|done].
      rewrite Ht. by repeat (rewrite <- app_assoc; cbn).
  - destruct (Unlock S h2 s2) as [[? ?] u]; cbn.
    exists [ESelectLast StatusSuccess r], u. by rewrite <- !app_assoc.
  - destruct (Unlock S h2 s2) as [[? ?] u]; cbn.
    exists [ESelectLast StatusSuccess r], u. by rewrite <- !app_assoc.
Qed.

(** The log of a [Down] that got the lock. *)
Lemma Down_trace_shape (S : SQLStorage) (goFuncs : GoFunc -> Call (St S) (option error))
      (m : Migrator) (w : World (St S)) h1 s1 :
  Lock S (heap w) (store w) = (h1, s1, None) ->
  exists rest u,
    trace (fst (Down S goFuncs m w)) = trace w ++ ELock None :: rest ++ [EUnlock u] /\
    forallb is_work rest = true.
Proof.
  intros HL.
  destruct (SelectLastMigrationByStatus S StatusSuccess h1 s1) as [[h2 s2] r] eqn:HS.
  destruct (Down_cases S goFuncs m w h1 s1 h2 s2 r HL HS) as (evs & u & Ht & Hc).
  exists (ESelectLast StatusSuccess r :: evs), u. split; [done|]. cbn.
  destruct r as [[last|] [e|]]; cbn in Hc.
  - by destruct Hc as [-> _].
  - destruct (len m <? Version last); [by destruct Hc as [-> _]|].
    destruct (elem m (int_sub (Version last) 1)).
    + destruct Hc as (e & Htr & _). by eapply transition_work.
    + by destruct Hc as [-> _].
  - by destruct Hc as [-> _].
  - by destruct Hc as [-> _].
Qed.

(** ** The runs used below *)

(** After [TestCreateMigrationFiles] the directory lists the two files
    the test looks for. *)
Example TestCreateMigrationFiles_passes :
  TestCreateMigrationFiles
  = ["00001_create_users_up.sql"; "00001_create_users_down.sql"].
Proof. by vm_compute. Qed.

(** The histories of two of the runs above have the first versions
    applied. *)
Lemma one_applied_applied :
  applied (fst one_applied) (heap (snd one_applied))
          (storage.migrations (store (snd one_applied))) 1.
Proof.
  split; [split|..].
  - vm_compute. lia.
  - intros [|[|i]] p Hp; try discriminate Hp;
      injection Hp as <-; vm_compute; reflexivity.
  - intros [|j] q p Hq Hp; try discriminate Hq.
    injection Hq as <-. injection Hp as <-. by vm_compute.
  - vm_compute. lia.
  - intros [|j] q Hq Hj; [|lia]. injection Hq as <-. by vm_compute.
  - intros [|j] q Hq Hj; [lia|]. discriminate Hq.
Qed.

Lemma both_applied_applied :
  applied (fst both_applied) (heap (snd both_applied))
          (storage.migrations (store (snd both_applied))) 2.
Proof.
  split; [split|..].
  - vm_compute. lia.
  - intros [|[|i]] p Hp; try discriminate Hp;
      injection Hp as <-; vm_compute; reflexivity.
  - intros [|[|j]] q p Hq Hp; try discriminate Hq;
      injection Hq as <-; injection Hp as <-; by vm_compute.
  - vm_compute. lia.
  - intros [|[|j]] q Hq Hj; [| |lia]; injection Hq as <-; by vm_compute.
  - intros [|[|j]] q Hq Hj; [lia|lia|]. discriminate Hq.
Qed.

(** * The claims *)

(** C1 fails in the code. Versions 1 and 2, no history, the up-script of
    version 1 fails: [Up] records version 1 as failed, then runs version 2
    all the same and returns nil; [DBVersion] reports 2. Likewise on the
    mock store with version 1 applied and the Go script of version 2
    failing: version 3 is run and [DBVersion] reports 3. *)
Theorem Up_runs_on_after_failed_script :
  (let m := fst failed_script in
   let w := snd failed_script in
   let w1 := fst (Up Contract noGo m w) in
   snd (Up Contract noGo m w) = Ret None /\
   writes (trace w1)
   = [(0%nat, StatusProcess); (0%nat, StatusError);
      (1%nat, StatusProcess); (1%nat, StatusSuccess)] /\
   actions (trace w1)
   = [EMigrate "BAD" (Some (errorString "statement failed")); EMigrate "UB" None] /\
   snd (DBVersion Contract w1) = Ret (Some 2, None)) /\
  (let m := fst failed_closure in
   let w := snd failed_closure in
   let w1 := fst (Up Mock (failing ["b_up.go"]) m w) in
   snd (Up Mock (failing ["b_up.go"]) m w) = Ret None /\
   writes (trace w1)
   = [(2%nat, StatusProcess); (2%nat, StatusError);
      (3%nat, StatusProcess); (3%nat, StatusSuccess)] /\
   actions (trace w1)
   = [EGoFunc "b_up.go" (Some (errorString "exit status 1")); EMigrate "UC" None] /\
   snd (DBVersion Mock w1) = Ret (Some 3, None)).
Proof. split; vm_compute; by repeat split. Qed.

(** C2 fails in the code for [Up]. One migration in the registry and
    version 2 recorded as successful: [Down] reports the mismatch, [Up]
    returns nil (neither runs anything). *)
Theorem Up_accepts_one_past_registry :
  let m := fst one_past in
  let w := snd one_past in
  len m = 1 /\
  (Version <$> fst (snd (SelectLastMigrationByStatus Mock StatusSuccess (heap w) (store w))))
  = Some 2 /\
  snd (Up Mock noGo m w) = Ret None /\
  actions (trace (fst (Up Mock noGo m w))) = [] /\
  snd (Down Mock noGo m w) = Ret (Some ErrUnexpectedMigrationVersion) /\
  actions (trace (fst (Down Mock noGo m w))) = [].
Proof. vm_compute. by repeat split. Qed.




(** C4 as stated fails on the mock store when version 2 is recorded as
    failed and versions 1 and 3 as successful: [Redo] rolls back version 3
    (the migration at address 5), finds version 1 to be the last
    successful one and applies version 2 (address 4). *)
Lemma Redo_reapplies_another :
  ~ Redo_reapplies_rolled_back Mock noGo (fst second_failed) (snd second_failed).
Proof.
  intros H.
  destruct (H (heap (snd second_failed)) (store (snd second_failed))
              (heap (snd second_failed)) (store (snd second_failed))
              (CreateMigration "c" StatusSuccess 3 0) 5%nat)
    as (evs & Ht & Hc & Hp); [reflexivity|by vm_compute|by vm_compute|].
  change (trace (snd second_failed)) with (@nil Event) in Ht. cbn [app] in Ht.
  subst evs. vm_compute in Hp. discriminate Hp.
Qed.

(** C4, as the code has it, on the mock store. When the records of the
    history were inserted in registry order, the applied versions are the
    first [V], with [V >= 2], and no body fails, [Redo] rolls back
    version [V] and applies that same version again. Holding the lock it
    performs the down transition of the migration of version [V] and
    gives the lock back; it asks the store again, is told version
    [V - 1], and performs the up transition of the migration at index
    [V - 1], which is the one it rolled back. Four status writes are
    made, all about that migration; [Redo] returns nil and the first [V]
    versions are applied as before. *)
Theorem Redo_reapplies_in_registry_order
        (goFuncs : GoFunc -> Call MockSQLStorage (option error))
        (m : Migrator) (w : World MockSQLStorage) (k : nat) :
  (forall f h s, goFuncs f h s = (h, s, None)) ->
  applied m (heap w) (storage.migrations (store w)) (Datatypes.S (Datatypes.S k)) ->
  len m <= int_max ->
  exists p last prev w2 w3 evs,
    migrations m !! Datatypes.S k = Some p /\
    Version (load (heap w) p) = Z.of_nat k + 2 /\
    Version last = Z.of_nat k + 2 /\
    Version prev = Z.of_nat k + 1 /\
    performed Mock goFuncs p (storage.Down (load (heap w) p)) (DownGo (load (heap w) p))
      StatusCancellation StatusCancel StatusError
      (mkWorld (heap w) (store w) (clock w)
         (trace w ++ [ELock None; ESelectLast StatusSuccess (Some last, None)]))
      w2 None /\
    performed Mock goFuncs p (storage.Up (load (heap w2) p)) (UpGo (load (heap w2) p))
      StatusProcess StatusSuccess StatusError
      (mkWorld (heap w2) (store w2) (clock w2)
         (trace w2 ++ [EUnlock None; ESelectLast StatusSuccess (Some prev, None)]))
      w3 None /\
    Redo Mock goFuncs m w = (w3, Ret None) /\
    trace w3 = trace w ++ evs /\
    writes evs = [(p, StatusCancellation); (p, StatusCancel);
                  (p, StatusProcess); (p, StatusSuccess)] /\
    applied m (heap w3) (storage.migrations (store w3)) (Datatypes.S (Datatypes.S k)) /\
    Redo_reapplies_rolled_back Mock goFuncs m w.
Proof.
  intros Hgo Hap Hmax.
  destruct (Redo_mock_performs goFuncs Hgo m w k Hap Hmax)
    as (p & last & prev & w2 & w3 & Hp & HVp & HVl & HVprev & HD & HU & HRedo & Hap3).
  destruct (performed_mock goFuncs Hgo _ _ _ _ _ _ _ _ _ HD) as (_ & evsD & HtD & HwD).
  destruct (performed_mock goFuncs Hgo _ _ _ _ _ _ _ _ _ HU) as (_ & evsU & HtU & HwU).
  destruct (performed_transition Mock goFuncs _ _ _ _ _ _ _ _ _ HD) as (evsD' & HtD' & HtrD).
  destruct (performed_transition Mock goFuncs _ _ _ _ _ _ _ _ _ HU) as (evsU' & HtU' & HtrU).
  pose proof (eq_trans (eq_sym HtD) HtD') as HeD. apply app_inv_head in HeD. subst evsD'.
  pose proof (eq_trans (eq_sym HtU) HtU') as HeU. apply app_inv_head in HeU. subst evsU'.
  cbn in HtD, HtU. change (St Mock) with MockSQLStorage in *.
  set (evs := [ELock None; ESelectLast StatusSuccess (Some last, None)] ++ evsD
              ++ [EUnlock None; ESelectLast StatusSuccess (Some prev, None)] ++ evsU).
  assert (trace w3 = trace w ++ evs) as Ht.
  { rewrite HtU, HtD. unfold evs. by repeat (rewrite <- app_assoc; cbn). }
  exists p, last, prev, w2, w3, evs.
  split; [done|]. split; [done|]. split; [done|]. split; [done|].
  split; [done|]. split; [done|]. split; [done|]. split; [done|].
  split; [|split; [done|]].
  { unfold evs. cbn. rewrite writes_app. cbn. by rewrite HwD, HwU. }
  intros h1 s1 h2 s2 last' p' HL HS Hp'.
  destruct (applied_last _ _ _ _ Hap) as (q & p0 & Hq & Hp0 & Hlast & HV).
  cbn in HL. injection HL as <- <-.
  cbn in HS. unfold Mock_SelectLastMigrationByStatus in HS. rewrite Hlast in HS.
  injection HS as <- <- <-.
  rewrite HV in Hp'.
  replace (Z.to_nat (Z.of_nat (Datatypes.S k) + 1 - 1)) with (Datatypes.S k) in Hp' by lia.
  rewrite Hp in Hp'. injection Hp' as <-.
  exists evs. change (St Mock) with MockSQLStorage in *. rewrite HRedo. cbn.
  split; [done|].
  destruct (transition_down_entered _ _ _ _ _ HtrD) as [HcD HpD].
  destruct (transition_up_entered _ _ _ _ _ HtrU) as [HpU HcU].
  unfold evs. cbn. rewrite !entered_app. cbn.
  by rewrite HcD, HpD, HpU, HcU.
Qed.

(** C4 on the mock store with versions 1 and 2 applied in order: [Redo]
    runs the down-script and then the up-script of version 2, the
    migration at address 3, and both versions are applied afterwards. *)
Lemma Redo_reapplies_in_registry_order_witness :
  let m := fst both_applied in
  let w := snd both_applied in
  let w' := fst (Redo Mock noGo m w) in
  applied m (heap w) (storage.migrations (store w)) 2 /\
  len m <= int_max /\
  Redo Mock noGo m w = (w', Ret None) /\
  Version (load (heap w) 3%nat) = 2 /\
  writes (trace w')
  = [(3%nat, StatusCancellation); (3%nat, StatusCancel);
     (3%nat, StatusProcess); (3%nat, StatusSuccess)] /\
  actions (trace w') = [EMigrate "DB" None; EMigrate "UB" None] /\
  map (fun q => (Version (load (heap w') q), Status (load (heap w') q)))
      (storage.migrations (store w'))
  = [(1, StatusSuccess); (2, StatusSuccess)] /\
  applied m (heap w') (storage.migrations (store w')) 2.
Proof.
  intros m w w'.
  assert (len m <= int_max) as Hlen by (vm_compute; discriminate).
  split; [exact both_applied_applied|]. split; [exact Hlen|].
  destruct (Redo_reapplies_in_registry_order noGo m w 0 (fun f h s => eq_refl)
              both_applied_applied Hlen)
    as (p & last & prev & w2 & w3 & evs & Hp & HVp & _ & _ & _ & _ & HRedo & Ht & Hw
        & Hap & _).
  change (Some 3%nat = Some p) in Hp. injection Hp as <-.
  assert (w' = w3) as Hw' by exact (f_equal fst HRedo).
  split; [rewrite Hw'; exact HRedo|]. split; [exact HVp|].
  split; [vm_compute; reflexivity|]. split; [vm_compute; reflexivity|].
  split; [vm_compute; reflexivity|]. rewrite Hw'. exact Hap.
Defined.

(** C5 fails in the code for [Redo]. Versions 1 and 2 applied: the lock
    taken by the [Down] inside [Redo] is given back when that [Down]
    returns, and the up-script of version 2 runs, and its status is
    written, after that. *)
Theorem Redo_applies_without_lock :
  let m := fst both_applied in
  let w := snd both_applied in
  let evs := trace (fst (Redo Mock noGo m w)) in
  snd (Redo Mock noGo m w) = Ret None /\
  guarded false evs = false /\
  exists before after,
    evs = before ++ after /\
    holding false before = false /\
    forallb is_work after = true /\
    actions after = [EMigrate "UB" None] /\
    writes after = [(3%nat, StatusProcess); (3%nat, StatusSuccess)].
Proof.
  intros m w evs. split; [by vm_compute|]. split; [by vm_compute|].
  exists (take 6 evs), (drop 6 evs).
  split; [by rewrite take_drop|]. vm_compute. by repeat split.
Qed.

(** C6. A migration, up or down, performs one transition whatever the
    store answers. It first writes its transient status ([Process] for
    up, [Cancellation] for down). When the store accepts that write the
    action of the migration runs, once, and a second write follows,
    entering [Success] (up) or [Cancel] (down) when the action returned
    nil and [Error] when it failed: two writes, one before and one after
    the action. When the store refuses the first write nothing is run.
    Every write is the store's [InsertMigration] on the migration as it
    then is, and the log is that of a transition. *)
Theorem migration_two_writes (S : SQLStorage)
        (goFuncs : GoFunc -> Call (St S) (option error)) p sql goFunc (w : World (St S)) :
  (exists w' e evs,
      upMigration S goFuncs p sql goFunc w = (w', Ret e) /\
      performed S goFuncs p sql goFunc StatusProcess StatusSuccess StatusError w w' e /\
      trace w' = trace w ++ evs /\
      transition p sql goFunc StatusProcess StatusSuccess StatusError evs e) /\
  (exists w' e evs,
      downMigration S goFuncs p sql goFunc w = (w', Ret e) /\
      performed S goFuncs p sql goFunc StatusCancellation StatusCancel StatusError w w' e /\
      trace w' = trace w ++ evs /\
      transition p sql goFunc StatusCancellation StatusCancel StatusError evs e).
Proof.
  unfold upMigration, downMigration. split.
  - destruct (executeMigration_performed S goFuncs p sql goFunc
                StatusProcess StatusSuccess StatusError w)
      as (w' & e & Hrun & Hperf).
    destruct (performed_transition S goFuncs _ _ _ _ _ _ _ _ _ Hperf) as (evs & Ht & Htr).
    by exists w', e, evs.
  - destruct (executeMigration_performed S goFuncs p sql goFunc
                StatusCancellation StatusCancel StatusError w)
      as (w' & e & Hrun & Hperf).
    destruct (performed_transition S goFuncs _ _ _ _ _ _ _ _ _ Hperf) as (evs & Ht & Htr).
    by exists w', e, evs.
Qed.

(** C7 fails in the code. A directory with the up-scripts of versions 1
    and 2: the map read from it has the keys 1 and 2, the loop over it may
    visit them in either order, and the migrator then holds script A as
    version 1 in one run and script B as version 1 in the other. *)
Theorem registry_follows_map_order :
  exists migrations,
    app.getMigrations "migrations" (inl two_files) = inl migrations /\
    app.range_order migrations [1; 2] /\
    app.range_order migrations [2; 1] /\
    registered_in [1; 2] = [(1, "a", "A"); (2, "b", "B")] /\
    registered_in [2; 1] = [(1, "b", "B"); (2, "a", "A")].
Proof.
  eexists. split; [reflexivity|].
  split; [unfold app.range_order; by apply (bool_decide_unpack _); vm_compute|].
  split; [unfold app.range_order; by apply (bool_decide_unpack _); vm_compute|].
  by vm_compute.
Qed.

(** C8 as stated fails on the mock store when the record of version 2
    was inserted before the record of version 1: [Up] applies version 2
    and returns nil, the last successful record in insertion order is
    still that of version 1, and a second [Up] applies version 2 again. *)
Lemma Up_twice_applies_twice :
  ~ Up_idempotent Mock noGo (fst out_of_order) (snd out_of_order).
Proof.
  intros H.
  set (w1 := fst (Up Mock noGo (fst out_of_order) (snd out_of_order))).
  assert (Up Mock noGo (fst out_of_order) (snd out_of_order) = (w1, Ret None))
    as HU by (vm_compute; reflexivity).
  destruct (H w1 HU) as (evs & Ht & Ha & _).
  assert (evs = drop (List.length (trace w1))
                     (trace (fst (Up Mock noGo (fst out_of_order) w1))))
    as -> by (by rewrite Ht, drop_app_length).
  vm_compute in Ha. discriminate Ha.
Qed.

(** C8, as the code has it, on the mock store. When the records of the
    history were inserted in registry order (the [j]-th is that of the
    migration at index [j], under its version and name) and the closures
    return nil, an [Up] that has returned nil leaves nothing to do: a
    second [Up] returns nil and changes nothing but the log, where it
    leaves no action and no status write. *)
Theorem Up_idempotent_in_registry_order
        (goFuncs : GoFunc -> Call MockSQLStorage (option error))
        (m : Migrator) (w w1 : World MockSQLStorage) :
  (forall f h s, goFuncs f h s = (h, s, None)) ->
  aligned m (heap w) (storage.migrations (store w)) ->
  Up Mock goFuncs m w = (w1, Ret None) ->
  exists evs,
    Up Mock goFuncs m w1
    = (mkWorld (heap w1) (store w1) (clock w1) (trace w1 ++ evs), Ret None) /\
    actions evs = [] /\ writes evs = [].
Proof.
  intros Hgo Hal HU. apply Up_at_registry_size.
  by apply (Up_mock_reaches_end goFuncs Hgo m w w1).
Qed.

(** C8 on the mock store with version 1 applied and version 2 pending:
    the first [Up] applies version 2, the second nothing. *)
Lemma Up_idempotent_in_registry_order_witness :
  let m := fst one_applied in
  let w := snd one_applied in
  let w1 := fst (Up Mock noGo m w) in
  aligned m (heap w) (storage.migrations (store w)) /\
  Up Mock noGo m w = (w1, Ret None) /\
  actions (trace w1) = [EMigrate "UB" None] /\
  exists evs,
    Up Mock noGo m w1
    = (mkWorld (heap w1) (store w1) (clock w1) (trace w1 ++ evs), Ret None) /\
    actions evs = [] /\ writes evs = [].
Proof.
  intros m w w1.
  assert (aligned m (heap w) (storage.migrations (store w))) as Hal.
  { split.
    - vm_compute. lia.
    - intros [|[|i]] p Hp; try discriminate Hp;
        injection Hp as <-; vm_compute; reflexivity.
    - intros [|j] q p Hq Hp; try discriminate Hq.
      injection Hq as <-. injection Hp as <-. by vm_compute. }
  assert (Up Mock noGo m w = (w1, Ret None)) as HU by (vm_compute; reflexivity).
  split; [exact Hal|]. split; [exact HU|]. split; [vm_compute; reflexivity|].
  exact (Up_idempotent_in_registry_order noGo m w w1
           (fun f h s => eq_refl) Hal HU).
Defined.

(** C9 as stated fails for two fragments of one version with different
    names: they supply different fields, and the merged migration has the
    name of whichever is found first. *)
Lemma merge_keeps_first_name :
  ~ merge_commutes up_x down_y.
Proof.
  intros H. specialize (H eq_refl eq_refl). vm_compute in H. discriminate H.
Qed.

(** C9, as the code has it. For two fragments of one version and one name,
    merging gives the same migration in either order when they supply
    different fields. In every case each field of the result is that of
    the fragment merged in if it supplies it and is left as it was if not,
    and version and name stay those of the fragment found first. *)
Theorem mergeMigrations_laws (filePath : string) (fa fb : app.DirEntry)
        (a b : Migration) :
  fragment filePath fa = inl a ->
  fragment filePath fb = inl b ->
  Version a = Version b ->
  Name a = Name b ->
  (disjoint a b = true -> app.mergeMigrations a b = app.mergeMigrations b a) /\
  storage.Up (app.mergeMigrations a b)
  = (if String.eqb (storage.Up b) "" then storage.Up a else storage.Up b) /\
  storage.Down (app.mergeMigrations a b)
  = (if String.eqb (storage.Down b) "" then storage.Down a else storage.Down b) /\
  UpGo (app.mergeMigrations a b)
  = match UpGo b with Some f => Some f | None => UpGo a end /\
  DownGo (app.mergeMigrations a b)
  = match DownGo b with Some f => Some f | None => DownGo a end /\
  Version (app.mergeMigrations a b) = Version a /\
  Name (app.mergeMigrations a b) = Name a.
Proof.
  intros Ha Hb HV HN.
  destruct (fragment_fresh _ _ _ Ha) as [HSa HTa].
  destruct (fragment_fresh _ _ _ Hb) as [HSb HTb].
  destruct (merge_fields a b) as (Hu & Hd & Hug & Hdg & Hv & Hn & Hs & Ht).
  destruct (merge_fields b a) as (Hu' & Hd' & Hug' & Hdg' & Hv' & Hn' & Hs' & Ht').
  split; [|by repeat split].
  unfold disjoint. intros Hdis.
  apply andb_prop in Hdis as [Hdis H4]. apply andb_prop in Hdis as [Hdis H3].
  apply andb_prop in Hdis as [H1 H2].
  apply Migration_ext.
  - by rewrite Hv, Hv'.
  - by rewrite Hn, Hn'.
  - rewrite Hu, Hu'.
    destruct (String.eqb_spec (storage.Up a) "") as [Ea|],
      (String.eqb_spec (storage.Up b) "") as [Eb|]; try done. by rewrite Ea, Eb.
  - rewrite Hd, Hd'.
    destruct (String.eqb_spec (storage.Down a) "") as [Ea|],
      (String.eqb_spec (storage.Down b) "") as [Eb|]; try done. by rewrite Ea, Eb.
  - rewrite Hug, Hug'. by destruct (UpGo a), (UpGo b).
  - rewrite Hdg, Hdg'. by destruct (DownGo a), (DownGo b).
  - by rewrite Hs, Hs', HSa, HSb.
  - by rewrite Ht, Ht', HTa, HTb.
Qed.

(** C9 on the up and the down script of one migration. *)
Lemma mergeMigrations_laws_witness :
  let fa := {| app.FileName := "1_x_up.sql"; app.ReadFile := inl "A" |} in
  let fb := {| app.FileName := "1_x_down.sql"; app.ReadFile := inl "B" |} in
  let a := mkMigration 1 "x" "A" "" None None "" 0 in
  let b := mkMigration 1 "x" "" "B" None None "" 0 in
  fragment "migrations" fa = inl a /\
  fragment "migrations" fb = inl b /\
  disjoint a b = true /\
  app.mergeMigrations a b = app.mergeMigrations b a /\
  app.mergeMigrations a b = mkMigration 1 "x" "A" "B" None None "" 0.
Proof.
  intros fa fb a b.
  assert (fragment "migrations" fa = inl a) as Ha by (vm_compute; reflexivity).
  assert (fragment "migrations" fb = inl b) as Hb by (vm_compute; reflexivity).
  split; [exact Ha|]. split; [exact Hb|]. split; [reflexivity|].
  split; [|reflexivity].
  exact (proj1 (mergeMigrations_laws "migrations" fa fb a b Ha Hb eq_refl eq_refl)
               eq_refl).
Defined.

(** C10. With an empty registry and a store that knows of no successful
    migration, the [Down] inside [Redo] returns nil and [Redo] then reads
    [m.migrations[0]]: it panics, index out of range. *)
Theorem Redo_empty_registry_panics (S : SQLStorage)
        (goFuncs : GoFunc -> Call (St S) (option error)) (m : Migrator) (w : World (St S))
        h1 s1 h2 s2 r1 e1 h3 s3 u h4 s4 e2 :
  migrations m = [] ->
  Lock S (heap w) (store w) = (h1, s1, None) ->
  SelectLastMigrationByStatus S StatusSuccess h1 s1 = (h2, s2, (r1, Some e1)) ->
  Is_ErrMigrationNotFound e1 = true ->
  Unlock S h2 s2 = (h3, s3, u) ->
  SelectLastMigrationByStatus S StatusSuccess h3 s3 = (h4, s4, (None, Some e2)) ->
  Is_ErrMigrationNotFound e2 = true ->
  snd (Down S goFuncs m w) = Ret None /\
  snd (Redo S goFuncs m w) = Panic "index out of range".
Proof.
  intros Hm HL HS1 He1 HU HS2 He2.
  pose proof (Down_noop S goFuncs m w _ _ _ _ _ _ _ _ _ HL HS1 He1 HU) as HD.
  split; [by rewrite HD|].
  rewrite (Redo_after_Down S goFuncs m w _ h4 s4 (None, Some e2) 0 HD).
  - unfold elem, len. rewrite Hm. done.
  - done.
  - unfold lastVersionOf. cbn. by rewrite He2.
  - done.
Qed.

(** C10 on a database without history and an empty registry. *)
Lemma Redo_empty_registry_panics_witness :
  let m := fst nothing in
  let w := snd nothing in
  migrations m = [] /\
  snd (Down Contract noGo m w) = Ret None /\
  snd (Redo Contract noGo m w) = Panic "index out of range".
Proof.
  intros m w. split; [reflexivity|].
  exact (Redo_empty_registry_panics Contract noGo m w
           ∅ (mkContract [] false true []) ∅ (mkContract [] false true [])
           None ErrMigrationNotFound
           ∅ (mkContract [] false false []) None
           ∅ (mkContract [] false false []) ErrMigrationNotFound
           eq_refl eq_refl eq_refl eq_refl eq_refl eq_refl eq_refl).
Defined.

(** * Further properties of the code *)

(** X1. [getLastVersion] returns -1 exactly when the digits some file name
    starts with do not fit an [int]. Otherwise it returns the largest
    version a file name starts with, and 0 when no name starts with a
    digit. *)
Theorem getLastVersion_largest (files : list app.DirEntry) :
  let numbered f := app.FindVersion (app.FileName f) <> "" in
  let version f := app.Atoi (app.FindVersion (app.FileName f)) in
  (app.getLastVersion files = -1 <->
   exists f e, f ∈ files /\ numbered f /\ version f = inr e) /\
  (app.getLastVersion files <> -1 ->
   0 <= app.getLastVersion files /\
   (forall f, f ∈ files -> numbered f ->
      exists v, version f = inl v /\ v <= app.getLastVersion files) /\
   (app.getLastVersion files = 0 \/
    exists f, f ∈ files /\ numbered f /\ version f = inl (app.getLastVersion files))).
Proof.
  intros numbered version. subst numbered version. cbn beta.
  unfold app.getLastVersion.
  destruct (getLastVersion_loop_spec files 0) as [(Hr & Hbad)|(Hle & Hall & Hmax)]; [lia|..].
  - split; [done|]. by intros [].
  - split.
    + split; [lia|]. intros (f & e & Hf & Hne & He).
      destruct (Hall f Hf Hne) as (v & Hv & _). congruence.
    + intros _. split; [done|]. split; [done|]. done.
Qed.

(** X2. [Application.Create] asks for at most two files to be written, at
    [path.Join] of the directory and a name made of the last version of
    the directory plus one, the name given and the ending of a migration
    file. For a name without a slash none of these paths is the path of
    an entry the directory lists: [Create] overwrites nothing. A name
    with a slash can lead back to a listed file: for the name [/../g] the
    file written with an ending is at the path of the listed entry named
    [g] with that ending, which [Create] then overwrites. (The last
    version is below the largest [int].) *)
Theorem Create_writes_new_files (F : app.FileSystem) (upContent downContent : string)
        (name filePath migrationType : string) (fs : app.Fs F)
        (files : list app.DirEntry) :
  app.ReadDir F filePath fs = inl files ->
  app.getLastVersion files < int_max ->
  let written := (app.Create F upContent downContent name filePath migrationType fs).1.2 in
  let path file := app.path_Join filePath file in
  (List.length written <= 2)%nat /\
  (forall w, w ∈ written ->
     exists tail,
       tail ∈ ["_up.sql"; "_down.sql"; "_up.go"; "_down.go"] /\
       app.wFile w = app.Sprintf_05d_s tail (app.getLastVersion files + 1) name) /\
  (app.no_slash name = true ->
   forall w f, w ∈ written -> f ∈ files -> app.plain_name (app.FileName f) = true ->
     path (app.wFile w) <> path (app.FileName f)) /\
  (forall g tail w f,
     name = "/../" +:+ g -> w ∈ written -> f ∈ files ->
     app.wFile w = app.Sprintf_05d_s tail (app.getLastVersion files + 1) name ->
     app.FileName f = g +:+ tail -> app.plain_name (app.FileName f) = true ->
     path (app.wFile w) = path (app.FileName f)).
Proof.
  intros Hread Hmax written path.
  destruct (Create_written F upContent downContent name filePath migrationType fs files
              Hread Hmax) as (Hlen & Hpos & _).
  pose proof (Create_written_tails F upContent downContent name filePath migrationType
                fs files Hread Hmax) as Hnames.
  fold written in Hlen, Hpos, Hnames.
  assert (forall w, w ∈ written -> 0 <= app.getLastVersion files) as Hv.
  { intros w Hw. apply Hpos. intros Heq. rewrite Heq in Hw. by apply elem_of_nil in Hw. }
  split; [done|]. split; [done|]. split.
  - intros Hslash w f Hw Hf Hplain Heq.
    destruct (Hnames w Hw) as (tail & Htail & Hname).
    specialize (Hv w Hw).
    assert (app.plain_name (app.wFile w) = true) as Hnew.
    { rewrite Hname. apply created_name_plain; [lia|done|].
      repeat (apply elem_of_cons in Htail as [->|Htail]; [done|]).
      by apply elem_of_nil in Htail. }
    apply (path_Join_inj filePath _ _ Hnew Hplain) in Heq.
    destruct (created_name_version tail name (app.getLastVersion files + 1))
      as (Hnum & Hver); [lia|].
    rewrite <- Hname, Heq in Hnum, Hver.
    destruct (getLastVersion_loop_spec files 0) as [(Hr & _)|(_ & Hall & _)]; [lia|..].
    { unfold app.getLastVersion in Hv. lia. }
    destruct (Hall f Hf Hnum) as (v & Hv' & Hle).
    unfold app.getLastVersion in *. rewrite Hver in Hv'. injection Hv' as <-. lia.
  - intros g tail w f -> Hw Hf Hname Hfile Hplain. unfold path.
    specialize (Hv w Hw). rewrite Hname, Hfile in *.
    rewrite <- (path_Join_back filePath (app.Sprintf_05d (app.getLastVersion files + 1) +:+ "_")
                  (g +:+ tail)) by (done || (apply created_prefix_plain; lia)).
    f_equal. rewrite Sprintf_05d_s_eq, !str_app_assoc. reflexivity.
Qed.

(** X2 at an instance.
    [Create] of [b] in a directory with the scripts of version 1 writes
    [00002_b_up.sql] and [00002_b_down.sql], at the path of neither
    script; [Create] of [/../00001_a] writes at the paths of both scripts
    and leaves them empty. *)
Lemma Create_writes_new_files_witness :
  let written := (app.Create disk "" "" "b" "migrations" "sql" first_migration).1.2 in
  let over := app.Create disk "" "" "/../00001_a" "migrations" "sql" first_migration in
  let path file := app.path_Join "migrations" file in
  app.ReadDir disk "migrations" first_migration = inl first_migration /\
  app.getLastVersion first_migration < int_max /\
  app.no_slash "b" = true /\
  map app.wFile written = ["00002_b_up.sql"; "00002_b_down.sql"] /\
  (forall w f, w ∈ written -> f ∈ first_migration ->
     path (app.wFile w) <> path (app.FileName f)) /\
  map app.wFile over.1.2 = ["00002_/../00001_a_up.sql"; "00002_/../00001_a_down.sql"] /\
  path "00002_/../00001_a_up.sql" = path "00001_a_up.sql" /\
  over.1.1 = [ {| app.FileName := "00001_a_down.sql"; app.ReadFile := inl "" |};
               {| app.FileName := "00001_a_up.sql"; app.ReadFile := inl "" |} ].
Proof.
  intros written over path.
  assert (app.getLastVersion first_migration < int_max) as Hmax by (vm_compute; reflexivity).
  split; [reflexivity|]. split; [exact Hmax|]. split; [reflexivity|].
  split; [vm_compute; reflexivity|]. split.
  - intros w f Hw Hf.
    apply (proj1 (proj2 (proj2 (Create_writes_new_files disk "" "" "b" "migrations" "sql"
                                  first_migration first_migration eq_refl Hmax)))
             eq_refl w f Hw Hf).
    apply elem_of_cons in Hf as [->|Hf]; [reflexivity|].
    apply elem_of_cons in Hf as [->|Hf]; [reflexivity|].
    by apply elem_of_nil in Hf.
  - split; [vm_compute; reflexivity|]. split; [|vm_compute; reflexivity].
    apply (proj2 (proj2 (proj2 (Create_writes_new_files disk "" "" "/../00001_a"
                                  "migrations" "sql" first_migration first_migration
                                  eq_refl Hmax)))
             "00001_a" "_up.sql"
             (app.mkWrite "00002_/../00001_a_up.sql" "" None)
             {| app.FileName := "00001_a_up.sql"; app.ReadFile := inl "UA" |}).
    + reflexivity.
    + vm_compute. apply list_elem_of_here.
    + apply list_elem_of_further, list_elem_of_here.
    + vm_compute. reflexivity.
    + reflexivity.
    + reflexivity.
Defined.



(** X4. The names [createMigrationFiles] gives its files are read back. For
    a version that fits an [int] and a name without a line feed,
    [parseFileName] and [processMigrationFile] turn each of the four kinds
    of file into the fragment of that version and that name, with the text
    of the file, or the closure that runs the file, in the field of its
    kind. *)
Theorem created_files_read_back (filePath name sql : string) (version : Z)
        (read : string + error) :
  0 <= version <= int_max -> app.no_newline name = true ->
  let file tail data :=
    {| app.FileName := app.Sprintf_05d_s tail version name; app.ReadFile := data |} in
  fragment filePath (file "_up.sql" (inl sql))
  = inl (mkMigration version name sql "" None None "" 0) /\
  fragment filePath (file "_down.sql" (inl sql))
  = inl (mkMigration version name "" sql None None "" 0) /\
  fragment filePath (file "_up.go" read)
  = inl (mkMigration version name "" ""
           (Some (app.runGoMigration filePath (app.Sprintf_05d_s "_up.go" version name)))
           None "" 0) /\
  fragment filePath (file "_down.go" read)
  = inl (mkMigration version name "" "" None
           (Some (app.runGoMigration filePath (app.Sprintf_05d_s "_down.go" version name)))
           "" 0).
Proof.
  intros Hv Hname file. subst file. unfold fragment. cbn [app.FileName].
  rewrite !parseFileName_Sprintf by done.
  destruct (processMigrationFile_created filePath name version (inl sql) version name Hv)
    as (Hup & Hdown & _).
  destruct (processMigrationFile_created filePath name version read version name Hv)
    as (_ & _ & Hupgo & Hdowngo).
  rewrite Hname in *. cbn in *. done.
Qed.

(** X4 at an instance.
    The up-script of version 7, [add_users]. *)
Lemma created_files_read_back_witness :
  0 <= 7 <= int_max /\ app.no_newline "add_users" = true /\
  fragment "migrations" {| app.FileName := "00007_add_users_up.sql";
                           app.ReadFile := inl "CREATE" |}
  = inl (mkMigration 7 "add_users" "CREATE" "" None None "" 0).
Proof.
  assert (0 <= 7 <= int_max) as Hv by (unfold int_max; lia).
  split; [exact Hv|]. split; [reflexivity|].
  exact (proj1 (created_files_read_back "migrations" "add_users" "CREATE" 7
                  (inl "") Hv eq_refl)).
Defined.

(** X5. [Create] takes any name, but the files named after a name with a
    line feed in it are no migration files for [processMigrationFile]
    (its patterns do not let [.] match a line feed), and a directory that
    lists one of them cannot be read by [getMigrations] any more. *)
Theorem line_feed_in_name_rejected (filePath name tail : string) (version : Z)
        (read : string + error) (files : list app.DirEntry) :
  0 <= version <= int_max -> app.no_newline name = false ->
  tail ∈ ["_up.sql"; "_down.sql"; "_up.go"; "_down.go"] ->
  let file := {| app.FileName := app.Sprintf_05d_s tail version name;
                 app.ReadFile := read |} in
  fragment filePath file = inr ErrInvalidMigrationName /\
  (file ∈ files -> exists e, app.getMigrations filePath (inl files) = inr e).
Proof.
  intros Hv Hname Htail file.
  assert (fragment filePath file = inr ErrInvalidMigrationName) as Hfrag.
  { subst file. unfold fragment. cbn [app.FileName].
    destruct (processMigrationFile_created filePath name version read version name Hv)
      as (Hup & Hdown & Hupgo & Hdowngo).
    rewrite Hname in *.
    repeat (apply elem_of_cons in Htail as [->|Htail];
            [by rewrite parseFileName_Sprintf by done|]).
    by apply elem_of_nil in Htail. }
  split; [done|]. intros Hin. by eapply collect_fails.
Qed.

(** X5 at an instance.
    The up-script of version 2 of a name of two lines, next to the
    scripts of version 1. *)
Lemma line_feed_in_name_rejected_witness :
  let name := String "a" (String "010" "b") in
  let file := {| app.FileName := app.Sprintf_05d_s "_up.sql" 2 name;
                 app.ReadFile := inl "" |} in
  0 <= 2 <= int_max /\ app.no_newline name = false /\
  fragment "migrations" file = inr ErrInvalidMigrationName /\
  exists e, app.getMigrations "migrations" (inl (first_migration ++ [file])) = inr e.
Proof.
  intros name file.
  assert (0 <= 2 <= int_max) as Hv by (unfold int_max; lia).
  split; [exact Hv|]. split; [reflexivity|].
  destruct (line_feed_in_name_rejected "migrations" name "_up.sql" 2 (inl "")
              (first_migration ++ [file]) Hv eq_refl) as [Hfrag Hdir].
  { apply list_elem_of_here. }
  split; [exact Hfrag|]. apply Hdir.
  apply elem_of_app. right. apply list_elem_of_here.
Defined.

(** X6. [parseFileName] accepts exactly the names [first_name_last] in which
    [first] and [last] hold no underscore and [first] begins with digits
    that fit an [int]. It returns the value of those digits as the version
    and [name], with the underscores it has, as the name of the migration.
    It fails with the range error of [strconv.Atoi], which names the
    digits, when they do not fit, and with [ErrInvalidMigrationName] when
    the name does not begin with a digit or has fewer than three parts. *)
Theorem parseFileName_accepts (fileName name : string) (v : Z) :
  (app.parseFileName fileName = inl (v, name) <->
   exists first last,
     fileName = first +:+ "_" +:+ name +:+ "_" +:+ last /\
     app.Split first = [first] /\ app.Split last = [last] /\
     app.FindVersion first <> "" /\ app.Atoi (app.FindVersion first) = inl v) /\
  (forall e, app.parseFileName fileName = inr e ->
     (e = app.rangeError (app.FindVersion fileName) /\
      app.FindVersion fileName <> "" /\
      int_max < app.digits_value 0 (app.FindVersion fileName)) \/
     (e = ErrInvalidMigrationName /\
      (app.FindVersion fileName = "" \/
       (app.digits_value 0 (app.FindVersion fileName) <= int_max /\
        (List.length (app.Split fileName) < 3)%nat)))).
Proof.
  split; [split|].
  - unfold app.parseFileName. intros Hparse.
    destruct (String.eqb_spec (app.FindVersion fileName) "") as [|Hne]; [done|].
    destruct (app.Atoi (app.FindVersion fileName)) as [version|] eqn:Hatoi; [|done].
    destruct (Nat.ltb_spec (List.length (app.Split fileName)) 3) as [|Hlen]; [done|].
    injection Hparse as -> <-.
    pose proof (Split_parts_plain fileName) as Hplain.
    pose proof (Join_Split fileName) as Hjoin.
    destruct (app.Split fileName) as [|first rest] eqn:Hsplit; [cbn in Hlen; lia|].
    cbn in Hlen. cbn [List.length drop].
    replace (Datatypes.S (List.length rest) - 1 - 1)%nat
      with (List.length rest - 1)%nat by lia.
    destruct (last rest) as [lst|] eqn:Hlast.
    2:{ apply last_None in Hlast. subst rest. cbn in Hlen. lia. }
    apply last_Some in Hlast as [middle ->].
    rewrite length_app in Hlen |- *. cbn in Hlen |- *.
    replace (List.length middle + 1 - 1)%nat with (List.length middle) by lia.
    rewrite drop_0, take_app_length.
    assert (middle <> []) as Hmid by (intros ->; cbn in Hlen; lia).
    apply Forall_cons in Hplain as [Hfirst Hrest].
    apply Forall_app in Hrest as [_ Hlst]. apply Forall_cons in Hlst as [Hlst _].
    assert (fileName
            = first +:+ String "_" (app.Join middle +:+ String "_" lst)) as Hname.
    { rewrite <- Hjoin, Join_cons by (by destruct middle). by rewrite Join_snoc. }
    exists first, lst. split; [exact Hname|]. split; [done|]. split; [done|].
    rewrite Hname, FindVersion_prefix in Hne, Hatoi by done. done.
  - intros (first & lst & -> & Hfirst & Hlst & Hne & Hatoi).
    unfold app.parseFileName.
    change (first +:+ "_" +:+ name +:+ "_" +:+ lst)
      with (first +:+ String "_" (name +:+ String "_" lst)).
    rewrite FindVersion_prefix by done.
    destruct (String.eqb_spec (app.FindVersion first) ""); [done|].
    rewrite Hatoi, !Split_app_sep, Hfirst, Hlst.
    pose proof (Split_nonempty name) as Hname.
    rewrite !length_app. cbn [List.length].
    destruct (Nat.ltb_spec (1 + (List.length (app.Split name) + 1)) 3).
    { destruct (app.Split name); [done|cbn in *; lia]. }
    cbn [app drop].
    replace (1 + (List.length (app.Split name) + 1) - 1 - 1)%nat
      with (List.length (app.Split name)) by lia.
    by rewrite drop_0, take_app_length, Join_Split.
  - unfold app.parseFileName, app.Atoi. intros e.
    destruct (String.eqb_spec (app.FindVersion fileName) "") as [Hnone|Hsome].
    { intros [= <-]. right. split; [done|]. by left. }
    destruct (Z.ltb_spec int_max (app.digits_value 0 (app.FindVersion fileName)))
      as [Hbig|Hfits].
    { intros [= <-]. by left. }
    destruct (Nat.ltb_spec (List.length (app.Split fileName)) 3) as [Hfew|]; [|done].
    intros [= <-]. right. split; [done|]. by right.
Qed.

(** X7. [getMigrations] reads a directory as a whole or not at all: it
    returns a map exactly when every entry is a migration file, and the
    versions of the map are then exactly the versions of the entries. *)
Theorem getMigrations_all_or_nothing (filePath : string) (files : list app.DirEntry) :
  ((exists migrations, app.getMigrations filePath (inl files) = inl migrations) <->
   Forall (fun f => exists a, fragment filePath f = inl a) files) /\
  (forall migrations, app.getMigrations filePath (inl files) = inl migrations ->
     forall v, is_Some (migrations !! v) <->
               exists f a, f ∈ files /\ fragment filePath f = inl a /\ Version a = v).
Proof.
  unfold app.getMigrations. split; [split|].
  - intros (migrations & Hrun). by eapply collect_fragments.
  - apply collect_succeeds.
  - intros migrations Hrun v. rewrite (collect_dom _ _ _ _ Hrun v).
    split; [|by right]. intros [Hempty|?]; [|done].
    rewrite lookup_empty in Hempty. by destruct Hempty.
Qed.



(** X9. The loop of [runMigrations] over the map, in whatever order Go visits
    it. The migrator ends up with as many migrations as the map has, each
    at an address of its own; the migration visited [i]-th has version
    [i + 1], whatever version its files carried, the name and the bodies
    of its map entry, and status success. The store, the log and the
    objects that existed before are untouched. *)
Theorem registry_numbered_by_position (S : SQLStorage) (migs : gmap Z Migration)
        (order : list Z) (w : World (St S)) :
  app.range_order migs order ->
  exists m w',
    app.registerAll S migs order New w = (w', Ret m) /\
    store w' = store w /\ trace w' = trace w /\
    len m = Z.of_nat (size migs) /\
    NoDup (migrations m) /\
    (forall p, p ∈ dom (heap w) -> load (heap w') p = load (heap w) p) /\
    forall i v, order !! i = Some v ->
      exists p a, migrations m !! i = Some p /\ migs !! v = Some a /\
        load (heap w') p
        = mkMigration (Z.of_nat i + 1) (Name a) (storage.Up a) (storage.Down a)
            (UpGo a) (DownGo a) "success" 0.
Proof.
  unfold app.range_order. intros Horder.
  assert (Forall (fun v => is_Some (migs !! v)) order) as Hall.
  { apply Forall_forall. intros v Hv. rewrite Horder in Hv.
    apply list_elem_of_fmap in Hv as ([v' a] & -> & Hva).
    apply elem_of_map_to_list in Hva. by exists a. }
  destruct (registerAll_from S migs order New w Hall)
    as (m & w' & ps & Hrun & Hst & Htr & _ & Hm & Hlen & Hnd & _ & Hold & Hent).
  cbn in Hm. exists m, w'. split; [done|]. split; [done|]. split; [done|].
  split; [|split; [|split]].
  - unfold len. rewrite Hm, Hlen, Horder, length_fmap, length_map_to_list. done.
  - by rewrite Hm.
  - intros p Hp. unfold load. by rewrite Hold.
  - intros i v Hv. destruct (Hent i v Hv) as (p & a & Hp & Ha & Hload).
    exists p, a. rewrite Hm. split; [done|]. split; [done|].
    unfold load. rewrite Hload. cbn. do 2 f_equal.
Qed.

(** X9 at an instance.
    The map of [two_files] visited as 2, 1: the migration of the files of
    version 2 is registered first, as version 1. *)
Lemma registry_numbered_by_position_witness :
  app.range_order two_versions [2; 1] /\
  exists m w',
    app.registerAll Mock two_versions [2; 1] New mock_empty = (w', Ret m) /\
    len m = 2 /\
    exists p a, migrations m !! 0%nat = Some p /\ two_versions !! 2 = Some a /\
      load (heap w') p
      = mkMigration 1 (Name a) (storage.Up a) (storage.Down a) (UpGo a) (DownGo a)
          "success" 0.
Proof.
  assert (app.range_order two_versions [2; 1]) as Horder.
  { unfold app.range_order. apply (bool_decide_unpack _). by vm_compute. }
  split; [exact Horder|].
  destruct (registry_numbered_by_position Mock two_versions [2; 1] mock_empty Horder)
    as (m & w' & Hrun & _ & _ & Hlen & _ & _ & Hent).
  exists m, w'. split; [exact Hrun|]. split; [exact Hlen|].
  exact (Hent 0%nat 2 eq_refl).
Defined.

(** X10. The mock's [InsertMigration] is an upsert by version and name. On
    records with pairwise different keys it keeps them so; afterwards the
    record [q] of the key handed in has the status and the time handed in,
    every other object is as before, and the history is one record longer
    exactly when the key was new. It never fails. *)
Theorem Mock_InsertMigration_upsert (h : Heap) (s : MockSQLStorage) (p : ptr) :
  NoDup (map (key h) (storage.migrations s)) ->
  exists h' s' q,
    Mock_InsertMigration p h s = (h', s', None) /\
    NoDup (map (key h') (storage.migrations s')) /\
    q ∈ storage.migrations s' /\ key h' q = key h p /\
    Status (load h' q) = Status (load h p) /\
    StatusChangeTime (load h' q) = StatusChangeTime (load h p) /\
    (forall x, x <> q -> load h' x = load h x) /\
    storage.migrations s'
    = (if bool_decide (key h p ∈ map (key h) (storage.migrations s))
       then storage.migrations s else storage.migrations s ++ [p]).
Proof.
  intros Hnd. unfold Mock_InsertMigration.
  destruct (insert_scan_cases h (storage.migrations s) p)
    as [(-> & Hall)|(pre & q & post & Hrecs & Hpre & Hq & ->)].
  - assert (key h p ∉ map (key h) (storage.migrations s)) as Hnew.
    { intros (x & Hx & Hin)%list_elem_of_fmap.
      rewrite Forall_forall in Hall. by apply (Hall x Hin). }
    exists h, {| storage.migrations := storage.migrations s ++ [p] |}, p. cbn.
    rewrite bool_decide_eq_false_2 by done.
    split; [done|]. split.
    { rewrite map_app. apply NoDup_app. split; [done|]. split; [|apply NoDup_singleton].
      intros k Hk [->|[]%elem_of_nil]%elem_of_cons. done. }
    split; [apply elem_of_app; right; apply list_elem_of_here|]. done.
  - assert (key h p ∈ map (key h) (storage.migrations s)) as Hold.
    { rewrite <- Hq, Hrecs. apply list_elem_of_fmap_2, elem_of_app. right.
      apply list_elem_of_here. }
    exists (overwritten h q p), s, q.
    rewrite bool_decide_eq_true_2 by done.
    assert (same_keys h (overwritten h q p)) as Hkeys.
    { unfold key in Hq. injection Hq as HV HN. by apply overwritten_keys. }
    assert (forall x, key (overwritten h q p) x = key h x) as Hkey.
    { intros x. unfold key. by destruct (Hkeys x) as [-> ->]. }
    split; [done|]. split.
    { replace (map (key (overwritten h q p)) (storage.migrations s))
        with (map (key h) (storage.migrations s)); [done|].
      apply map_ext. intros x. by rewrite Hkey. }
    split; [rewrite Hrecs; apply elem_of_app; right; apply list_elem_of_here|].
    split; [by rewrite Hkey|].
    rewrite (overwritten_load h q p Hq). cbn.
    split; [done|]. split; [done|]. split; [|done].
    intros x Hx. by apply overwritten_other.
Qed.

(** X10 at an instance.
    The history with versions 1 and 2: inserting the registry's migration
    of version 2 updates the record of version 2 and adds none. *)
Lemma Mock_InsertMigration_upsert_witness :
  let w := snd both_applied in
  NoDup (map (key (heap w)) (storage.migrations (store w))) /\
  map (key (heap w)) (storage.migrations (store w)) = [(1, "a"); (2, "b")] /\
  key (heap w) 3%nat = (2, "b") /\
  exists h' s' q,
    Mock_InsertMigration 3%nat (heap w) (store w) = (h', s', None) /\
    NoDup (map (key h') (storage.migrations s')) /\
    q ∈ storage.migrations s' /\ key h' q = (2, "b") /\
    storage.migrations s' = storage.migrations (store w).
Proof.
  intros w.
  assert (NoDup (map (key (heap w)) (storage.migrations (store w)))) as Hnd.
  { apply (bool_decide_unpack _). by vm_compute. }
  split; [exact Hnd|]. split; [by vm_compute|]. split; [by vm_compute|].
  destruct (Mock_InsertMigration_upsert (heap w) (store w) 3%nat Hnd)
    as (h' & s' & q & Hins & Hnd' & Hq & Hkey & _ & _ & _ & Hrecs).
  exists h', s', q. split; [exact Hins|]. split; [exact Hnd'|]. split; [exact Hq|].
  split; [exact Hkey|]. exact Hrecs.
Defined.

(** X11. The mock's [UpdateMigration] does what its [InsertMigration] does
    when a record has the version and the name handed in. Where
    [InsertMigration] would add a record, it fails with "migration not
    found" and changes nothing. *)
Theorem Mock_UpdateMigration_or_not_found (h : Heap) (s : MockSQLStorage) (p : ptr) :
  if bool_decide (key h p ∈ map (key h) (storage.migrations s))
  then Mock_UpdateMigration p h s = Mock_InsertMigration p h s
  else Mock_UpdateMigration p h s = (h, s, Some (errorString "migration not found")) /\
       Mock_InsertMigration p h s
       = (h, {| storage.migrations := storage.migrations s ++ [p] |}, None).
Proof.
  unfold Mock_UpdateMigration, Mock_InsertMigration.
  destruct (insert_scan_cases h (storage.migrations s) p)
    as [(-> & Hall)|(pre & q & post & Hrecs & Hpre & Hq & ->)].
  - rewrite bool_decide_eq_false_2.
    2:{ intros (x & Hx & Hin)%list_elem_of_fmap.
        rewrite Forall_forall in Hall. by apply (Hall x Hin). }
    destruct (update_scan_cases h (storage.migrations s) p)
      as [(-> & _)|(pre & q & post & Hrecs & _ & Hq & _)]; [done|].
    rewrite Forall_forall in Hall. destruct (Hall q); [|done].
    rewrite Hrecs. apply elem_of_app. right. apply list_elem_of_here.
  - rewrite bool_decide_eq_true_2.
    2:{ rewrite <- Hq, Hrecs. apply list_elem_of_fmap_2, elem_of_app. right.
        apply list_elem_of_here. }
    destruct (update_scan_cases h (storage.migrations s) p)
      as [(_ & Hall)|(pre' & q' & post' & Hrecs' & Hpre' & Hq' & ->)].
    { rewrite Forall_forall in Hall. destruct (Hall q); [|done].
      rewrite Hrecs. apply elem_of_app. right. apply list_elem_of_here. }
    assert (q' = q) as ->.
    { clear -Hrecs Hrecs' Hpre Hpre' Hq Hq'. rewrite Hrecs in Hrecs'. clear Hrecs.
      revert pre' Hrecs' Hpre'.
      induction Hpre as [|x pre Hx _ IH]; intros pre' Hrecs' Hpre'.
      - destruct Hpre' as [|y pre' Hy _]; cbn in Hrecs'; [congruence|].
        injection Hrecs' as -> _. done.
      - destruct Hpre' as [|y pre' Hy Hpre']; cbn in Hrecs'.
        + injection Hrecs' as <- _. done.
        + injection Hrecs' as _ Hrecs'. by apply (IH pre'). }
    by rewrite (overwritten_update h q p Hq).
Qed.

(** X12. What was inserted into the mock store is found again. After
    [InsertMigration], [SelectMigrations] returns the history, which holds
    a record with the version, the name and the status handed in,
    [SelectLastMigrationByStatus] of that status finds a record, and
    [UpdateMigration] of the same migration succeeds. After
    [DeleteMigrations] all three fail, whatever was there. *)
Theorem Mock_insert_then_lookup (h : Heap) (s : MockSQLStorage) (p : ptr) :
  exists h' s',
    Mock_InsertMigration p h s = (h', s', None) /\
    (exists q, Mock_SelectMigrations h' s' = (h', s', (Some (storage.migrations s'), None)) /\
               q ∈ storage.migrations s' /\
               key h' q = key h p /\ Status (load h' q) = Status (load h p)) /\
    (exists r, Mock_SelectLastMigrationByStatus (Status (load h p)) h' s'
               = (h', s', (Some r, None)) /\ Status r = Status (load h p)) /\
    (exists h'', Mock_UpdateMigration p h' s' = (h'', s', None)) /\
    (exists s0, Mock_DeleteMigrations h' s' = (h', s0, None) /\
       Mock_SelectMigrations h' s0
       = (h', s0, (None, Some (errorString "no migrations found"))) /\
       (forall st, Mock_SelectLastMigrationByStatus st h' s0
                   = (h', s0, (None, Some (errorString ("no migrations found with status " +:+ st))))) /\
       (forall x, Mock_UpdateMigration x h' s0
                  = (h', s0, Some (errorString "migration not found")))).
Proof.
  assert (exists h' s' q,
            Mock_InsertMigration p h s = (h', s', None) /\
            q ∈ storage.migrations s' /\ key h' q = key h p /\
            Status (load h' q) = Status (load h p) /\ key h' p = key h p)
    as (h' & s' & q & Hins & Hq & Hkey & Hst & Hkp).
  { unfold Mock_InsertMigration.
    destruct (insert_scan_cases h (storage.migrations s) p)
      as [(-> & Hall)|(pre & q & post & Hrecs & Hpre & Hq & ->)].
    - exists h, {| storage.migrations := storage.migrations s ++ [p] |}, p.
      split; [done|]. split; [|done]. apply elem_of_app. right. apply list_elem_of_here.
    - assert (same_keys h (overwritten h q p)) as Hkeys.
      { unfold key in Hq. injection Hq as HV HN. by apply overwritten_keys. }
      assert (forall x, key (overwritten h q p) x = key h x) as Hkey.
      { intros x. unfold key. by destruct (Hkeys x) as [-> ->]. }
      exists (overwritten h q p), s, q. split; [done|].
      split; [rewrite Hrecs; apply elem_of_app; right; apply list_elem_of_here|].
      split; [by rewrite Hkey|]. split; [apply overwritten_status|apply Hkey]. }
  exists h', s'. split; [done|]. split; [|split; [|split]].
  - exists q. split; [|done]. unfold Mock_SelectMigrations.
    destruct (storage.migrations s'); [by apply elem_of_nil in Hq|done].
  - destruct (last_with_status_found h' (storage.migrations s') _ q Hq Hst) as (r & Hr & Hrs).
    exists r. unfold Mock_SelectLastMigrationByStatus. by rewrite Hr.
  - unfold Mock_UpdateMigration.
    destruct (update_scan_cases h' (storage.migrations s') p)
      as [(_ & Hall)|(pre & q' & post & _ & _ & _ & ->)]; [|by eexists].
    rewrite Forall_forall in Hall. destruct (Hall q Hq). congruence.
  - by eexists.
Qed.

(** X13. The mock store answers a query that finds nothing with an error that
    is not [ErrMigrationNotFound]. So on a history without a successful
    record (an empty one, to begin with) [Up], [Down] and [Redo] take the
    lock, ask, give the lock back and return that error, and [DBVersion]
    fails with [ErrGetVersion]; no migration is run and nothing is
    written, whatever the registry holds. *)
Theorem Mock_without_success_refuses (goFuncs : GoFunc -> Call MockSQLStorage (option error))
        (m : Migrator) (w : World MockSQLStorage) :
  Forall (fun q => Status (load (heap w) q) <> StatusSuccess)
         (storage.migrations (store w)) ->
  let e := errorString "no migrations found with status success" in
  let asked := ESelectLast StatusSuccess (None, Some e) in
  let after evs := mkWorld (heap w) (store w) (clock w) (trace w ++ evs) in
  Up Mock goFuncs m w = (after [ELock None; asked; EUnlock None], Ret (Some e)) /\
  Down Mock goFuncs m w = (after [ELock None; asked; EUnlock None], Ret (Some e)) /\
  Redo Mock goFuncs m w = (after [ELock None; asked; EUnlock None], Ret (Some e)) /\
  DBVersion Mock w = (after [asked], Ret (None, Some ErrGetVersion)).
Proof.
  intros Hall e asked after. apply last_with_status_None in Hall.
  assert (Down Mock goFuncs m w = (after [ELock None; asked; EUnlock None], Ret (Some e)))
    as HDown.
  { unfold Down, bind, defer, storage_Lock, storage_Unlock,
      storage_SelectLastMigrationByStatus, invoke, ret.
    cbn. unfold Mock_SelectLastMigrationByStatus. rewrite Hall. cbn.
    unfold after. by rewrite <- !app_assoc. }
  split; [|split; [done|split]].
  - unfold Up, bind, defer, storage_Lock, storage_Unlock,
      storage_SelectLastMigrationByStatus, invoke, lift, ret.
    cbn. unfold Mock_SelectLastMigrationByStatus. rewrite Hall. cbn.
    unfold after. by rewrite <- !app_assoc.
  - unfold Redo, bind at 1. change (St Mock) with MockSQLStorage in *.
    by rewrite HDown.
  - unfold DBVersion, bind, storage_SelectLastMigrationByStatus, invoke, ret.
    cbn. unfold Mock_SelectLastMigrationByStatus. by rewrite Hall.
Qed.

(** X13 at an instance.
    A registry of one migration on the new mock store. *)
Lemma Mock_without_success_refuses_witness :
  let m := fst (registry Mock [sql "a" "UA" "DA"] mock_empty) in
  let w := snd (registry Mock [sql "a" "UA" "DA"] mock_empty) in
  Forall (fun q => Status (load (heap w) q) <> StatusSuccess)
         (storage.migrations (store w)) /\
  len m = 1 /\
  snd (Up Mock noGo m w)
  = Ret (Some (errorString "no migrations found with status success")) /\
  snd (DBVersion Mock w) = Ret (None, Some ErrGetVersion).
Proof.
  intros m w.
  assert (Forall (fun q => Status (load (heap w) q) <> StatusSuccess)
                 (storage.migrations (store w))) as Hall by constructor.
  split; [exact Hall|]. split; [reflexivity|].
  destruct (Mock_without_success_refuses noGo m w Hall) as (HUp & _ & _ & HDB).
  split; [exact (f_equal snd HUp)|exact (f_equal snd HDB)].
Defined.

(** X14. [Up] brings the database to the last version of the registry. On
    the mock store, with a history in registry order in which the first
    [k + 1] versions are the applied ones and with bodies that do not
    fail, [Up] returns nil, enters exactly the migrations after version
    [k + 1], in registry order, and leaves every version applied;
    [DBVersion] then reports the size of the registry. *)
Theorem Up_mock_applies_the_rest (goFuncs : GoFunc -> Call MockSQLStorage (option error))
        (m : Migrator) (w : World MockSQLStorage) (k : nat) :
  (forall f h s, goFuncs f h s = (h, s, None)) ->
  applied m (heap w) (storage.migrations (store w)) (Datatypes.S k) ->
  exists w1 evs,
    Up Mock goFuncs m w = (w1, Ret None) /\
    trace w1 = trace w ++ evs /\
    entered StatusProcess evs = drop (Datatypes.S k) (migrations m) /\
    applied m (heap w1) (storage.migrations (store w1)) (List.length (migrations m)) /\
    snd (DBVersion Mock w1) = Ret (Some (len m), None).
Proof.
  intros Hgo Hap.
  destruct (Up_mock_applied goFuncs Hgo m w k Hap)
    as (w1 & evs & last & HUp & Hap1 & _ & Htrace & Hent).
  exists w1, ([ELock None; ESelectLast StatusSuccess (Some last, None)] ++ evs
              ++ [EUnlock None]).
  split; [done|]. split; [done|]. split.
  { cbn. rewrite entered_app, Hent. cbn. by rewrite app_nil_r. }
  split; [done|].
  destruct (List.length (migrations m)) as [|n] eqn:Hn.
  { pose proof (ap_len _ _ _ _ Hap). pose proof (al_len _ _ _ (ap_aligned _ _ _ _ Hap)). lia. }
  rewrite (DBVersion_mock_applied m w1 n Hap1). unfold len. rewrite Hn.
  do 3 f_equal. lia.
Qed.

(** X14 at an instance.
    Versions 1 and 2 with version 1 applied: [Up] enters version 2 (at
    address 2) and [DBVersion] reports 2. *)
Lemma Up_mock_applies_the_rest_witness :
  let m := fst one_applied in
  let w := snd one_applied in
  applied m (heap w) (storage.migrations (store w)) 1 /\
  exists w1 evs,
    Up Mock noGo m w = (w1, Ret None) /\
    trace w1 = trace w ++ evs /\
    entered StatusProcess evs = [2%nat] /\
    snd (DBVersion Mock w1) = Ret (Some 2, None).
Proof.
  intros m w. split; [exact one_applied_applied|].
  destruct (Up_mock_applies_the_rest noGo m w 0 (fun f h s => eq_refl) one_applied_applied)
    as (w1 & evs & HUp & Htrace & Hent & _ & HDB).
  exists w1, evs. split; [exact HUp|]. split; [exact Htrace|].
  assert (drop 1 (migrations m) = [2%nat]) as Hdrop by (vm_compute; reflexivity).
  assert (len m = 2) as Hlen by (vm_compute; reflexivity).
  split; [exact (eq_trans Hent Hdrop)|].
  exact (eq_trans HDB (f_equal (fun v => Ret (Some v, None)) Hlen)).
Defined.







(** X18. [Up] and [Down] over any store. The lock is the first thing they ask
    for; when it is refused they return that error and ask for nothing
    else; when it is granted they ask for it once, every query, write and
    script comes between that [Lock] and the one [Unlock], and the
    [Unlock] is the last call on every way out, a panic included. *)
Theorem Up_Down_hold_the_lock (S : SQLStorage)
        (goFuncs : GoFunc -> Call (St S) (option error))
        (m : Migrator) (w : World (St S)) :
  let run (f : Migrator -> M S (option error)) :=
    exists evs,
      trace (fst (f m w)) = trace w ++ evs /\
      guarded false evs = true /\ holding false evs = false /\
      match Lock S (heap w) (store w) with
      | (_, _, Some e) => evs = [ELock (Some e)] /\ snd (f m w) = Ret (Some e)
      | (_, _, None) =>
          exists rest u,
            evs = ELock None :: rest ++ [EUnlock u] /\ forallb is_work rest = true
      end in
  run (Up S goFuncs) /\ run (Down S goFuncs).
Proof.
  intros run. subst run. cbn beta. split.
  - destruct (Up_holds_lock S goFuncs m w) as (evs & Ht & Hg & Hh).
    exists evs. split; [done|]. split; [done|]. split; [done|].
    destruct (Lock S (heap w) (store w)) as [[h1 s1] [e|]] eqn:HL.
    { assert (Up S goFuncs m w
              = (mkWorld h1 s1 (clock w) (trace w ++ [ELock (Some e)]), Ret (Some e)))
        as HUp by (unfold Up, bind at 1, storage_Lock, invoke; by rewrite HL).
      rewrite HUp in Ht |- *. cbn in Ht. by apply app_inv_head in Ht. }
    destruct (Up_trace_shape S goFuncs m w h1 s1 HL) as (rest & u & Ht' & Hwork).
    rewrite Ht' in Ht. apply app_inv_head in Ht. subst evs. by exists rest, u.
  - destruct (Down_holds_lock S goFuncs m w) as (evs & Ht & Hg & Hh).
    exists evs. split; [done|]. split; [done|]. split; [done|].
    destruct (Lock S (heap w) (store w)) as [[h1 s1] [e|]] eqn:HL.
    { assert (Down S goFuncs m w
              = (mkWorld h1 s1 (clock w) (trace w ++ [ELock (Some e)]), Ret (Some e)))
        as HDown by (unfold Down, bind at 1, storage_Lock, invoke; by rewrite HL).
      rewrite HDown in Ht |- *. cbn in Ht. by apply app_inv_head in Ht. }
    destruct (Down_trace_shape S goFuncs m w h1 s1 HL) as (rest & u & Ht' & Hwork).
    rewrite Ht' in Ht. apply app_inv_head in Ht. subst evs. by exists rest, u.
Qed.

(** X19. What [getMigrations] returns under a version: the fragments of the
    files of that version, merged in the order of the listing into the
    first of them. So the name is that of the first file of the version,
    and each body is that of the last file of the version that supplies
    it, empty when none does. *)
Theorem getMigrations_merges_in_listing_order (filePath : string)
        (files : list app.DirEntry) (migrations : gmap Z Migration) (v : Z) :
  app.getMigrations filePath (inl files) = inl migrations ->
  let fragments :=
    omap (fun f => match fragment filePath f with
                   | inl a => if bool_decide (Version a = v) then Some a else None
                   | inr _ => None
                   end) files in
  migrations !! v
  = match fragments with
    | [] => None
    | a :: rest => Some (foldl app.mergeMigrations a rest)
    end /\
  forall a, migrations !! v = Some a ->
    Version a = v /\
    Some (Name a) = Name <$> head fragments /\
    storage.Up a = default "" (last (filter (fun s => s <> "") (storage.Up <$> fragments))) /\
    storage.Down a
    = default "" (last (filter (fun s => s <> "") (storage.Down <$> fragments))) /\
    UpGo a = last (omap UpGo fragments) /\
    DownGo a = last (omap DownGo fragments).
Proof.
  intros Hrun fragments. unfold app.getMigrations in Hrun.
  pose proof (collect_lookup filePath files ∅ migrations v Hrun) as Hlook.
  cbn zeta in Hlook. fold fragments in Hlook. rewrite lookup_empty in Hlook.
  split; [exact Hlook|].
  intros a Ha. rewrite Ha in Hlook.
  assert (Forall (fun b => Version b = v /\ Status b = "") fragments) as Hall.
  { apply Forall_forall. intros b Hin.
    unfold fragments in Hin. apply list_elem_of_omap in Hin as (f & _ & Hf).
    destruct (fragment filePath f) as [a'|] eqn:Hfrag; [|done].
    destruct (bool_decide_reflect (Version a' = v)); [|done]. injection Hf as <-.
    split; [done|]. by destruct (fragment_fresh _ _ _ Hfrag). }
  destruct fragments as [|first rest] eqn:Hfr; [done|].
  injection Hlook as ->.
  apply Forall_cons in Hall as [[HVfirst _] _].
  destruct (foldl_merge_keeps rest first) as [HV HN].
  split; [by rewrite HV|]. split; [by rewrite HN|].
  rewrite (foldl_merge_text storage.Up), (foldl_merge_text storage.Down),
    (foldl_merge_closure UpGo), (foldl_merge_closure DownGo).
  2-5: intros x y; by destruct (merge_fields x y) as (? & ? & ? & ? & _).
  cbn [fmap list_fmap].
  rewrite (last_text_cons (storage.Up first)), (last_text_cons (storage.Down first)),
    (last_closure_cons UpGo first), (last_closure_cons DownGo first).
  done.
Qed.

(** X19 at an instance.
    The down-script and the up-script of version 1, in that order. *)
Lemma getMigrations_merges_in_listing_order_witness :
  exists migrations,
    app.getMigrations "migrations" (inl first_migration) = inl migrations /\
    migrations !! 1 = Some (mkMigration 1 "a" "UA" "DA" None None "" 0).
Proof.
  assert (exists migrations,
            app.getMigrations "migrations" (inl first_migration) = inl migrations)
    as [migrations Hread].
  { apply getMigrations_all_or_nothing. repeat constructor; eexists; vm_compute; reflexivity. }
  exists migrations. split; [exact Hread|].
  exact (proj1 (getMigrations_merges_in_listing_order "migrations" first_migration
                  migrations 1 Hread)).
Defined.

(** X20. The mock's [SelectLastMigrationByStatus] returns the record inserted
    last among those of the status asked for, whatever its version, and
    fails exactly when no record has the status; it changes nothing. *)
Theorem Mock_SelectLast_latest (h : Heap) (s : MockSQLStorage) (st : string) :
  (forall r,
     Mock_SelectLastMigrationByStatus st h s = (h, s, (Some r, None)) <->
     exists j q, storage.migrations s !! j = Some q /\ r = load h q /\ Status r = st /\
       forall j' q', (j < j')%nat -> storage.migrations s !! j' = Some q' ->
                     Status (load h q') <> st) /\
  (Mock_SelectLastMigrationByStatus st h s
   = (h, s, (None, Some (errorString ("no migrations found with status " +:+ st)))) <->
   Forall (fun q => Status (load h q) <> st) (storage.migrations s)) /\
  (Mock_SelectLastMigrationByStatus st h s).1 = (h, s).
Proof.
  unfold Mock_SelectLastMigrationByStatus. split; [|split].
  - intros r. rewrite <- last_with_status_latest.
    destruct (last_with_status h (storage.migrations s) st) as [r'|]; split;
      try done; by intros [= ->].
  - rewrite <- last_with_status_None.
    by destruct (last_with_status h (storage.migrations s) st).
  - by destruct (last_with_status h (storage.migrations s) st).
Qed.

(** X21. The mock store keeps the pointer it is handed. After
    [InsertMigration] of a migration whose version and name are new, the
    history ends with that very object: a later change of its status
    through the caller's pointer is what [SelectLastMigrationByStatus]
    returns, with no further call of [InsertMigration]. *)
Theorem Mock_keeps_the_pointer (h : Heap) (s : MockSQLStorage) (p : ptr)
        (f : Migration -> Migration) :
  key h p ∉ map (key h) (storage.migrations s) ->
  exists s',
    Mock_InsertMigration p h s = (h, s', None) /\
    last (storage.migrations s') = Some p /\
    Mock_SelectLastMigrationByStatus (Status (f (load h p))) (poke h p f) s'
    = (poke h p f, s', (Some (f (load h p)), None)).
Proof.
  intros Hnew. unfold Mock_InsertMigration.
  destruct (insert_scan_cases h (storage.migrations s) p)
    as [(-> & _)|(pre & q & post & Hrecs & _ & Hq & _)].
  - eexists. split; [reflexivity|]. cbn. split; [by rewrite last_snoc|].
    unfold Mock_SelectLastMigrationByStatus. cbn.
    rewrite (last_with_status_last _ _ _ p); [by rewrite load_poke| |].
    + by rewrite last_snoc.
    + by rewrite load_poke.
  - destruct Hnew. rewrite <- Hq, Hrecs.
    apply list_elem_of_fmap_2, elem_of_app. right. apply list_elem_of_here.
Qed.

(** X21 at an instance.
    A registered migration, inserted into the new mock store and then
    marked as rolled back. *)
Lemma Mock_keeps_the_pointer_witness :
  let w := snd (registry Mock [sql "a" "UA" "DA"] mock_empty) in
  (key (heap w) 0%nat ∉ map (key (heap w)) (storage.migrations (store w))) /\
  exists s',
    Mock_InsertMigration 0%nat (heap w) (store w) = (heap w, s', None) /\
    last (storage.migrations s') = Some 0%nat /\
    Mock_SelectLastMigrationByStatus StatusCancel
      (poke (heap w) 0%nat (SetStatus StatusCancel)) s'
    = (poke (heap w) 0%nat (SetStatus StatusCancel), s',
       (Some (SetStatus StatusCancel (load (heap w) 0%nat)), None)).
Proof.
  intros w.
  assert (key (heap w) 0%nat ∉ map (key (heap w)) (storage.migrations (store w))) as Hnew
    by apply not_elem_of_nil.
  split; [exact Hnew|].
  exact (Mock_keeps_the_pointer (heap w) (store w) 0%nat (SetStatus StatusCancel) Hnew).
Defined.

(** X22. A history whose last successful record has a version below 1. For
    every store, [Down] then indexes the registry out of range: it
    panics, having run and written nothing, and the lock is given back;
    [Redo], which starts with [Down], panics too. [Up] panics in the same
    way when the version is negative. *)
Theorem version_below_one_panics (S : SQLStorage)
        (goFuncs : GoFunc -> Call (St S) (option error))
        (m : Migrator) (w : World (St S)) h1 s1 h2 s2 last :
  Lock S (heap w) (store w) = (h1, s1, None) ->
  SelectLastMigrationByStatus S StatusSuccess h1 s1 = (h2, s2, (Some last, None)) ->
  int_min <= Version last <= 0 ->
  len m <= int_max ->
  exists u,
    let evs := [ELock None; ESelectLast StatusSuccess (Some last, None); EUnlock u] in
    snd (Down S goFuncs m w) = Panic "index out of range" /\
    trace (fst (Down S goFuncs m w)) = trace w ++ evs /\
    snd (Redo S goFuncs m w) = Panic "index out of range" /\
    trace (fst (Redo S goFuncs m w)) = trace w ++ evs /\
    (int_min < Version last < 0 ->
     snd (Up S goFuncs m w) = Panic "index out of range" /\
     trace (fst (Up S goFuncs m w)) = trace w ++ evs).
Proof.
  intros HL HS HV Hlen.
  destruct (Down_cases S goFuncs m w h1 s1 h2 s2 _ HL HS) as (evs & u & Ht & Hc).
  cbn in Hc.
  destruct (Z.ltb_spec (len m) (Version last)) as [Hlt|_]; [unfold len in Hlt; lia|].
  assert (elem m (int_sub (Version last) 1) = None) as Hel.
  { unfold elem, int_sub.
    destruct (Z_le_gt_dec int_min (Version last - 1)) as [Hin|Hout].
    - rewrite wrap_int_small by (unfold int_min, int_max in *; lia).
      by destruct (Z.ltb_spec (Version last - 1) 0); [|lia].
    - assert (Version last = int_min) as -> by lia.
      replace (wrap_int (int_min - 1)) with int_max by (by vm_compute).
      destruct (Z.ltb_spec int_max 0); [by vm_compute in H|].
      by destruct (Z.leb_spec (len m) int_max); [|lia]. }
  rewrite Hel in Hc. destruct Hc as [-> HDown].
  exists u. cbn zeta. split; [done|]. split; [done|].
  assert (Redo S goFuncs m w = (fst (Down S goFuncs m w), Panic "index out of range"))
    as HRedo.
  { unfold Redo, bind at 1. destruct (Down S goFuncs m w) as [w1 res].
    cbn in HDown. by subst res. }
  rewrite HRedo. cbn [fst snd]. split; [done|]. split; [done|].
  intros HV'.
  unfold Up, bind, defer, storage_Lock, storage_Unlock,
    storage_SelectLastMigrationByStatus, invoke, lift, ret, panic.
  rewrite HL. cbn. rewrite HS. cbn.
  unfold int_sub. rewrite wrap_int_small by (unfold int_min, int_max in *; lia).
  destruct (Z.ltb_spec (len m) (Version last - 1)) as [Hb|_]; [unfold len in Hb; lia|].
  destruct (Z.to_nat (len m - Version last)) as [|n] eqn:Hn; [unfold len in Hn; lia|].
  cbn [up_loop]. unfold bind, index, elem.
  destruct (Z.ltb_spec (Version last) 0) as [_|]; [|lia]. cbn.
  revert Ht HDown. unfold Down, bind, defer, storage_Lock, storage_Unlock,
    storage_SelectLastMigrationByStatus, invoke, ret, panic.
  rewrite HL. cbn. rewrite HS. cbn.
  destruct (Z.ltb_spec (len m) (Version last)) as [Hlt|_]; [unfold len in Hlt; lia|].
  unfold index. rewrite Hel. cbn.
  destruct (Unlock S h2 s2) as [[h3 s3] u']. cbn.
  rewrite <- !app_assoc. cbn. intros Ht%app_inv_head _. injection Ht as <-.
  done.
Qed.

(** X22 at an instance.
    One migration on the mock store, the last successful record having
    version -1. *)
Lemma version_below_one_panics_witness :
  let m := fst below_one in
  let w := snd below_one in
  let last := CreateMigration "z" StatusSuccess (-1) 0 in
  Lock Mock (heap w) (store w) = (heap w, store w, None) /\
  SelectLastMigrationByStatus Mock StatusSuccess (heap w) (store w)
  = (heap w, store w, (Some last, None)) /\
  int_min < Version last < 0 /\
  len m = 1 /\
  exists u,
    let evs := [ELock None; ESelectLast StatusSuccess (Some last, None); EUnlock u] in
    snd (Down Mock noGo m w) = Panic "index out of range" /\
    trace (fst (Down Mock noGo m w)) = trace w ++ evs /\
    snd (Up Mock noGo m w) = Panic "index out of range" /\
    trace (fst (Up Mock noGo m w)) = trace w ++ evs.
Proof.
  intros m w last.
  assert (SelectLastMigrationByStatus Mock StatusSuccess (heap w) (store w)
          = (heap w, store w, (Some last, None))) as HS by (vm_compute; reflexivity).
  assert (int_min < Version last < 0) as HV by (vm_compute; split; reflexivity).
  assert (int_min <= Version last <= 0) as HV' by (vm_compute; split; discriminate).
  assert (len m <= int_max) as Hlen by (vm_compute; discriminate).
  split; [reflexivity|]. split; [exact HS|]. split; [exact HV|]. split; [reflexivity|].
  destruct (version_below_one_panics Mock noGo m w (heap w) (store w) (heap w) (store w)
              last eq_refl HS HV' Hlen) as (u & HDown & HtD & _ & _ & HUp).
  exists u. split; [exact HDown|]. split; [exact HtD|]. exact (HUp HV).
Defined.

End props.
